(** * ircv3: the typed message framework

    A shallow embedding of [Message] (raw-line tokenizer, tag and prefix
    parsing, the parameter-specification engine, serialization),
    [StringTools.isChannel] and the [CapabilityNegotiation] message type,
    followed by the properties established about them.

    Conventions of the embedding:
    - a JavaScript string is a [string], i.e. a sequence of 8-bit code
      units; [undefined] is [None];
    - a JavaScript object used as a dictionary ([_parsedParams], the
      [params] argument of [create]) is the [gmap string _] of its own
      properties, and so is the tag [Map]; where the code reads such an
      object with [in] or with brackets, the members it inherits from
      [Object.prototype] are read as well ([JS.inherited]).  An
      assignment to the name [__proto__] creates no property: it makes
      the assigned object the prototype; [_parsedParams] keeps that
      object under the name [__proto__], and the properties [value] and
      [trailing] are then inherited from it;
      [PARAM_SPEC], whose enumeration order drives the resolution, is an
      association list in enumeration order;
    - a [throw] (or a [TypeError] raised by the runtime) is the [Throw]
      branch of [result];
    - a [RegExp] of a parameter spec is the boolean function [re.test]. *)

From Stdlib Require Import String Ascii List ZArith Bool Lia.
From stdpp Require Import base option list gmap strings.
Import ListNotations.

Local Open Scope string_scope.
Local Open Scope Z_scope.

(** ** Errors *)

(** One constructor per [throw] site of [Message], plus the runtime's
    [TypeError] for a method call on [undefined]. *)
Inductive JsError : Type :=
| LineWithoutCommand (line : string)
| TypeError (what : string)
| CreateParamDidNotSuit (paramName param : string)
| CreateParamNotFound (paramName command : string)
| ExpectedMoreParams (command : string) (expected : Z) (got : nat)
| NotEnoughParamsLeft
| UnexpectedParamUnderflow
| NoParamsLeftForRest (paramName : string)
| ParamDidNotSuit (paramName : string) (index : nat) (param : string)
| CaptureNotSupported (command : string).

Inductive result (A : Type) : Type :=
| Ok (a : A)
| Throw (e : JsError).
Arguments Ok {A} a.
Arguments Throw {A} e.

#[global] Instance result_bind : MBind result :=
  fun A B (k : A -> result B) (r : result A) =>
    match r with
    | Ok a => k a
    | Throw e => Throw e
    end.

Definition threw {A : Type} (r : result A) : bool :=
  match r with Ok _ => false | Throw _ => true end.

(** ** The JavaScript string primitives the code relies on *)

Module JS.

Definition SP : ascii := " "%char.

(** [s.split(sep)] for a one-character separator: never empty. *)
Fixpoint split (sep : ascii) (s : string) : list string :=
  match s with
  | EmptyString => [EmptyString]
  | String c s' =>
      if Ascii.eqb c sep then EmptyString :: split sep s'
      else match split sep s' with
           | [] => [String c EmptyString]
           | piece :: pieces => String c piece :: pieces
           end
  end.

(** [s.split(sep, limit)]: every piece is computed, the first [limit]
    are returned. *)
Definition split_limit (sep : ascii) (limit : nat) (s : string) : list string :=
  take limit (split sep s).

(** [pieces.join(' ')]. *)
Definition join (sep : string) (pieces : list string) : string :=
  String.concat sep pieces.

(** [s.substr(1)]. *)
Definition substr1 (s : string) : string :=
  match s with
  | EmptyString => EmptyString
  | String _ s' => s'
  end.

(** [s[0] === c]. *)
Definition first_is (c : ascii) (s : string) : bool :=
  match s with
  | EmptyString => false
  | String d _ => Ascii.eqb d c
  end.

Definition upper_char (c : ascii) : ascii :=
  let n := nat_of_ascii c in
  if (Nat.leb 97 n && Nat.leb n 122)%bool then ascii_of_nat (n - 32) else c.

(** [s.toUpperCase()] on the letters a-z. *)
Fixpoint toUpperCase (s : string) : string :=
  match s with
  | EmptyString => EmptyString
  | String c s' => String (upper_char c) (toUpperCase s')
  end.

(** White space in the sense of [String.prototype.trim], among the code
    units below 256: TAB, LF, VT, FF, CR, SP and NBSP. *)
Definition is_white (c : ascii) : bool :=
  let n := nat_of_ascii c in
  ((Nat.leb 9 n && Nat.leb n 13) || Nat.eqb n 32 || Nat.eqb n 160)%bool.

Fixpoint trimStart (s : string) : string :=
  match s with
  | EmptyString => EmptyString
  | String c s' => if is_white c then trimStart s' else s
  end.

Fixpoint trimEnd (s : string) : string :=
  match s with
  | EmptyString => EmptyString
  | String c s' =>
      match trimEnd s' with
      | EmptyString => if is_white c then EmptyString else String c EmptyString
      | t => String c t
      end
  end.

(** [s.trim()]. *)
Definition trim (s : string) : string := trimEnd (trimStart s).

(** Whether the code unit [c] occurs in [s]. *)
Fixpoint has_char (c : ascii) (s : string) : bool :=
  match s with
  | EmptyString => false
  | String d s' => Ascii.eqb d c || has_char c s'
  end.

(** A falsy string: [!s] holds for the empty string. *)
Definition falsy (s : string) : bool :=
  match s with EmptyString => true | _ => false end.

(** [s.replace(re, fn)] for a global [re]: scan left to right; where
    [match_at] finds a match, emit its replacement and resume after it,
    otherwise copy one code unit.  [match_at] is only ever asked about a
    one-unit look-ahead here, so it receives the current unit and the
    next one. *)
Fixpoint replace_pairs (match_at : ascii -> ascii -> option ascii) (s : string) : string :=
  match s with
  | EmptyString => EmptyString
  | String c s' =>
      match s' with
      | EmptyString => String c EmptyString
      | String d s'' =>
          match match_at c d with
          | Some r => String r (replace_pairs match_at s'')
          | None => String c (replace_pairs match_at s')
          end
      end
  end.

(** The text of a built-in function where it is used as a string, as
    Node gives it. *)
Definition native (f : string) : string := "function " ++ f ++ "() { [native code] }".

(** The members of [Object.prototype], which every plain object
    inherits, each with the text it is turned into where the code uses
    it as a string; [__proto__] reads as the prototype object itself. *)
Definition Object_prototype : list (string * string) :=
  [ ("constructor", native "Object");
    ("__defineGetter__", native "__defineGetter__");
    ("__defineSetter__", native "__defineSetter__");
    ("hasOwnProperty", native "hasOwnProperty");
    ("__lookupGetter__", native "__lookupGetter__");
    ("__lookupSetter__", native "__lookupSetter__");
    ("isPrototypeOf", native "isPrototypeOf");
    ("propertyIsEnumerable", native "propertyIsEnumerable");
    ("toString", native "toString");
    ("valueOf", native "valueOf");
    ("__proto__", "[object Object]");
    ("toLocaleString", native "toLocaleString") ].

Fixpoint assoc (members : list (string * string)) (name : string) : option string :=
  match members with
  | [] => None
  | (member, text) :: more => if String.eqb member name then Some text else assoc more name
  end.

(** The member that a plain object inherits under [name], if any. *)
Definition inherited (name : string) : option string := assoc Object_prototype name.

End JS.

(** ** Toolkit/StringTools.ts *)

Module StringTools.

(** The negated class [[^ \b\0\n\r,]] of [isChannel]'s pattern.  The
    pattern is a template literal, so [\b] is the code unit 8
    (backspace), [\0] is 0, [\n] is 10 and [\r] is 13. *)
Definition channel_excluded : list ascii :=
  [" "%char; ascii_of_nat 8; ascii_of_nat 0; ascii_of_nat 10; ascii_of_nat 13; ","%char].

Definition in_class (class : list ascii) (c : ascii) : bool :=
  existsb (Ascii.eqb c) class.

(** The class [[${escapeRegexString(validTypes)}]]: escaping makes each
    character of [validTypes] stand for itself.  (The escaping function
    comes from a package outside the repository; a hyphen standing between
    two other characters is taken to be a member like any other, not the
    sign of a range.) *)
Definition type_class (validTypes : string) : list ascii :=
  list_ascii_of_string validTypes.

(** [new RegExp(`^[${escapeRegexString(validTypes)}][^ \b\0\n\r,]+$`).test(str)];
    [validTypes] defaults to ["#&"]. *)
Definition isChannel (str : string) (validTypes : string) : bool :=
  match str with
  | EmptyString => false
  | String c tail =>
      in_class (type_class validTypes) c
      && negb (JS.falsy tail)
      && forallb (fun x => negb (in_class channel_excluded x)) (list_ascii_of_string tail)
  end.

Definition default_validTypes : string := "#&".

End StringTools.

(** ** Message/Message.ts *)

Record MessagePrefix : Type := {
  raw : string;
  nick : string;
  user : option string;
  host : option string
}.

Record MessageParam : Type := {
  value : string;
  trailing : bool
}.

Inductive ParamType : Type := channel.

(** [MessageParamSpecEntry]; an absent boolean flag reads as [false]. *)
Record MessageParamSpecEntry : Type := {
  spec_trailing : bool;
  spec_rest : bool;
  spec_optional : bool;
  spec_type : option ParamType;
  spec_match : option (string -> bool)
}.

(** The static side of a message class ([MessageConstructor]); [name] is
    the class name, which is what [instanceof] tells apart here since
    every message class extends [Message] directly. *)
Record MessageConstructor : Type := {
  name : string;
  COMMAND : string;
  PARAM_SPEC : list (string * MessageParamSpecEntry);
  SUPPORTS_CAPTURE : bool
}.

(** The part of [Client] that [Message] reads.  [getCommandClass] (with
    [knowsCommand c] being [is_Some (getCommandClass c)]) is the command
    registry, which is not part of the sources at hand and is therefore
    left as a field. *)
Record Client : Type := {
  channelTypes : string;
  getCommandClass : string -> option MessageConstructor
}.

Definition knowsCommand (client : Client) (command : string) : bool :=
  match getCommandClass client command with Some _ => true | None => false end.

Record Message : Type := {
  constructor : MessageConstructor;
  _tags : option (gmap string string);
  _prefix : option MessagePrefix;
  _command : string;
  _params : option (list MessageParam);
  _parsedParams : option (gmap string MessageParam);
  _raw : option string
}.

(** [class Message]: empty command, empty [PARAM_SPEC], no capture. *)
Definition MessageClass : MessageConstructor :=
  {| name := "Message"; COMMAND := EmptyString; PARAM_SPEC := []; SUPPORTS_CAPTURE := false |}.

Definition instanceof (m : Message) (cls : MessageConstructor) : bool :=
  String.eqb (name (constructor m)) (name cls).

(** *** parsePrefix *)

Definition parsePrefix (raw : string) : MessagePrefix :=
  match JS.split_limit "!" 2 raw with
  | nick :: rest =>
      match rest with
      | hostName :: _ =>
          if JS.falsy hostName then
            {| raw := raw; nick := nick; user := None; host := None |}
          else
            match JS.split_limit "@" 2 hostName with
            | user :: host :: _ =>
                if JS.falsy host then
                  {| raw := raw; nick := nick; user := None; host := Some user |}
                else
                  {| raw := raw; nick := nick; user := Some user; host := Some host |}
            | [user] =>
                {| raw := raw; nick := nick; user := None; host := Some user |}
            | [] => {| raw := raw; nick := nick; user := None; host := None |}
            end
      | [] => {| raw := raw; nick := nick; user := None; host := None |}
      end
  | [] => {| raw := raw; nick := EmptyString; user := None; host := None |}
  end.

(** *** parseTags *)

Definition tagEscapeMap : list (ascii * ascii) :=
  [ ("\"%char, "\"%char);
    (":"%char, ";"%char);
    ("n"%char, ascii_of_nat 10);
    ("r"%char, ascii_of_nat 13);
    ("s"%char, " "%char) ].

Fixpoint assoc_ascii (k : ascii) (l : list (ascii * ascii)) : option ascii :=
  match l with
  | [] => None
  | (k', v) :: l' => if Ascii.eqb k k' then Some v else assoc_ascii k l'
  end.

(** The pattern [/\\([\\:nrs])/]: a backslash followed by one of the five
    characters; the replacement is [tagEscapeMap[match]]. *)
Definition tag_escape_at (c d : ascii) : option ascii :=
  if Ascii.eqb c "\"%char
  then if StringTools.in_class ["\"%char; ":"%char; "n"%char; "r"%char; "s"%char] d
       then assoc_ascii d tagEscapeMap
       else None
  else None.

(** [tagValue.replace(/\\([\\:nrs])/g, (_, match) => tagEscapeMap[match])]. *)
Definition unescapeTagValue (tagValue : string) : string :=
  JS.replace_pairs tag_escape_at tagValue.

(** One round of the [for] loop of [parseTags]: [tagValue] is
    [undefined] when the tag has no [=], and [undefined.replace] raises. *)
Definition parseTag (tags : gmap string string) (tagString : string)
  : result (gmap string string) :=
  match JS.split_limit "=" 2 tagString with
  | tagName :: tagValue :: _ => Ok (<[tagName := unescapeTagValue tagValue]> tags)
  | _ => Throw (TypeError "Cannot read property 'replace' of undefined")
  end.

Fixpoint parseTags_loop (tagStrings : list string) (tags : gmap string string)
  : result (gmap string string) :=
  match tagStrings with
  | [] => Ok tags
  | tagString :: more =>
      tags' ← parseTag tags tagString; parseTags_loop more tags'
  end.

Definition parseTags (raw : string) : result (gmap string string) :=
  parseTags_loop (JS.split ";" raw) ∅.

(** *** checkParam *)

Definition checkParam (client : Client) (param : string) (spec : MessageParamSpecEntry) : bool :=
  if match spec_type spec with
     | Some channel => negb (StringTools.isChannel param (channelTypes client))
     | None => false
     end
  then false
  else match spec_match spec with
       | Some re => re param
       | None => true
       end.

(** *** minParamCount *)

Definition minParamCount (cls : MessageConstructor) : Z :=
  Z.of_nat (length (List.filter (fun spec => negb (spec_optional spec))
                                (map snd (PARAM_SPEC cls)))).

(** *** parseParams *)

(** The variables of the resolution loop: the raw-token index [i], the
    countdown [requiredParamsLeft] and the object under construction. *)
Record Resolution : Type := {
  res_i : nat;
  res_requiredParamsLeft : Z;
  res_parsedParams : gmap string MessageParam
}.

(** How one round of the [for] loop ends: by falling through or
    [continue], or by [break]. *)
Inductive Flow : Type :=
| Continue (st : Resolution)
| Break (st : Resolution).

(** [while (this._params[i] && !this._params[i].trailing) { restParams.push(...); ++i; }]
    run on the tokens from index [i] on. *)
Fixpoint restParams (from_i : list MessageParam) : list string :=
  match from_i with
  | [] => []
  | p :: more => if trailing p then [] else value p :: restParams more
  end.

(** The tail of a round: [if (paramSpec.trailing) break;]. *)
Definition end_of_round (paramSpec : MessageParamSpecEntry) (st : Resolution) : Flow :=
  if spec_trailing paramSpec then Break st else Continue st.

(** The validation step of a round, once [param] is chosen and [i] stands
    where the choice left it. *)
Definition accept_or_skip (client : Client) (paramName : string)
    (paramSpec : MessageParamSpecEntry) (param : MessageParam) (st : Resolution)
  : result Flow :=
  if checkParam client (value param) paramSpec then
    Ok (end_of_round paramSpec
          {| res_i := if spec_rest paramSpec then res_i st else S (res_i st);
             res_requiredParamsLeft :=
               if spec_optional paramSpec then res_requiredParamsLeft st
               else res_requiredParamsLeft st - 1;
             res_parsedParams := <[paramName := param]> (res_parsedParams st) |})
  else if negb (spec_optional paramSpec) then
    Throw (ParamDidNotSuit paramName (res_i st) (value param))
  else Ok (end_of_round paramSpec st).

(** One round of the [for] loop over [Object.entries(paramSpecList)]. *)
Definition parseParams_round (client : Client) (params : list MessageParam)
    (paramName : string) (paramSpec : MessageParamSpecEntry) (st : Resolution)
  : result Flow :=
  let left := Z.of_nat (length params) - Z.of_nat (res_i st) in
  if (left <=? res_requiredParamsLeft st) && spec_optional paramSpec then
    Ok (Continue st)
  else if (left <=? res_requiredParamsLeft st)
          && negb (left =? res_requiredParamsLeft st) then
    Throw NotEnoughParamsLeft
  else
    match params !! res_i st with
    | None =>
        if spec_optional paramSpec then Ok (Break st)
        else Throw UnexpectedParamUnderflow
    | Some param =>
        if spec_rest paramSpec then
          let collected := restParams (drop (res_i st) params) in
          match collected with
          | [] =>
              if spec_optional paramSpec then Ok (Continue st)
              else Throw (NoParamsLeftForRest paramName)
          | _ :: _ =>
              accept_or_skip client paramName paramSpec
                {| value := JS.join " " collected; trailing := false |}
                {| res_i := (res_i st + length collected)%nat;
                   res_requiredParamsLeft := res_requiredParamsLeft st;
                   res_parsedParams := res_parsedParams st |}
          end
        else accept_or_skip client paramName paramSpec param st
    end.

Fixpoint parseParams_loop (client : Client) (params : list MessageParam)
    (entries : list (string * MessageParamSpecEntry)) (st : Resolution)
  : result Resolution :=
  match entries with
  | [] => Ok st
  | (paramName, paramSpec) :: more =>
      flow ← parseParams_round client params paramName paramSpec st;
      match flow with
      | Continue st' => parseParams_loop client params more st'
      | Break st' => Ok st'
      end
  end.

(** [parseParams]: nothing happens when [_params] is [undefined];
    otherwise the result is the new [_parsedParams]. *)
Definition parseParams (cls : MessageConstructor) (client : Client) (command : string)
    (params : option (list MessageParam))
  : result (option (gmap string MessageParam)) :=
  match params with
  | None => Ok None
  | Some ps =>
      if minParamCount cls >? Z.of_nat (length ps) then
        Throw (ExpectedMoreParams command (minParamCount cls) (length ps))
      else
        st ← parseParams_loop client ps (PARAM_SPEC cls)
               {| res_i := 0%nat;
                  res_requiredParamsLeft := minParamCount cls;
                  res_parsedParams := ∅ |};
        Ok (Some (res_parsedParams st))
  end.

(** [new cls(client, command, params, tags, prefix)]. *)
Definition new (cls : MessageConstructor) (client : Client) (command : string)
    (params : option (list MessageParam)) (tags : option (gmap string string))
    (prefix : option MessagePrefix)
  : result Message :=
  parsed ← parseParams cls client command params;
  Ok {| constructor := cls; _tags := tags; _prefix := prefix; _command := command;
        _params := params; _parsedParams := parsed; _raw := None |}.

(** *** parse *)

(** The variables of the tokenizer loop. *)
Record Tokens : Type := {
  tok_tags : option (gmap string string);
  tok_prefix : option MessagePrefix;
  tok_command : option string;
  tok_params : list MessageParam
}.

(** [!command]: unset, or set to the empty string. *)
Definition no_command (command : option string) : bool :=
  match command with
  | None => true
  | Some c => JS.falsy c
  end.

Definition is_unset {A : Type} (o : option A) : bool :=
  match o with None => true | Some _ => false end.

(** The [while (splitLine.length)] loop; [splitLine] is the argument. *)
Fixpoint tokenize (splitLine : list string) (st : Tokens) : result Tokens :=
  match splitLine with
  | [] => Ok st
  | token :: shifted =>
      if JS.first_is "@" token && is_unset (tok_tags st) && no_command (tok_command st) then
        tags ← parseTags (JS.substr1 token);
        tokenize shifted
          {| tok_tags := Some tags; tok_prefix := tok_prefix st;
             tok_command := tok_command st; tok_params := tok_params st |}
      else if JS.first_is ":" token then
        if is_unset (tok_prefix st) && no_command (tok_command st) then
          tokenize shifted
            {| tok_tags := tok_tags st;
               tok_prefix := Some (parsePrefix (JS.substr1 token));
               tok_command := tok_command st; tok_params := tok_params st |}
        else
          Ok {| tok_tags := tok_tags st; tok_prefix := tok_prefix st;
                tok_command := tok_command st;
                tok_params := tok_params st ++
                  [{| value := JS.substr1 (JS.join " " splitLine); trailing := true |}] |}
      else if no_command (tok_command st) then
        tokenize shifted
          {| tok_tags := tok_tags st; tok_prefix := tok_prefix st;
             tok_command := Some (JS.toUpperCase token); tok_params := tok_params st |}
      else
        tokenize shifted
          {| tok_tags := tok_tags st; tok_prefix := tok_prefix st;
             tok_command := tok_command st;
             tok_params := tok_params st ++ [{| value := token; trailing := false |}] |}
  end.

Definition no_tokens : Tokens :=
  {| tok_tags := None; tok_prefix := None; tok_command := None; tok_params := [] |}.

Definition parse (line : string) (client : Client) : result Message :=
  toks ← tokenize (JS.split " " line) no_tokens;
  match tok_command toks with
  | None => Throw (LineWithoutCommand line)
  | Some command =>
      if JS.falsy command then Throw (LineWithoutCommand line)
      else
        let messageClass :=
          match getCommandClass client command with
          | Some cls => cls
          | None => MessageClass
          end in
        message ← new messageClass client command (Some (tok_params toks))
                    (tok_tags toks) (tok_prefix toks);
        Ok {| constructor := constructor message; _tags := _tags message;
              _prefix := _prefix message; _command := _command message;
              _params := _params message; _parsedParams := _parsedParams message;
              _raw := Some line |}
  end.

(** *** create *)

(** [paramName in params] and [params[paramName]]: an own property of
    the object, or else the member it inherits under that name, which
    stands here as the text it is turned into wherever the code uses it
    as a string. *)
Definition read (params : gmap string string) (paramName : string) : option string :=
  match params !! paramName with
  | Some param => Some param
  | None => JS.inherited paramName
  end.

(** [paramName in parsedParams]: an own property, a member inherited
    from [Object.prototype], or [value] and [trailing] once an
    assignment to [__proto__] has given the object a parameter as its
    prototype. *)
Definition has_property (parsedParams : gmap string MessageParam) (paramName : string)
  : bool :=
  negb (is_unset (parsedParams !! paramName))
  || negb (is_unset (JS.inherited paramName))
  || (negb (is_unset (parsedParams !! "__proto__"))
      && (String.eqb paramName "value" || String.eqb paramName "trailing")).

(** The callback handed to [ObjectTools.forEach(this.PARAM_SPEC, ...)]. *)
Definition create_entry (cls : MessageConstructor) (client : Client)
    (params : gmap string string) (parsedParams : gmap string MessageParam)
    (paramName : string) (paramSpec : MessageParamSpecEntry)
  : result (gmap string MessageParam) :=
  parsedParams' ←
    match read params paramName with
    | Some param =>
        if checkParam client param paramSpec then
          Ok (<[paramName := {| value := param; trailing := spec_trailing paramSpec |}]>
                parsedParams)
        else if negb (spec_optional paramSpec) then
          Throw (CreateParamDidNotSuit paramName param)
        else Ok parsedParams
    | None => Ok parsedParams
    end;
  if negb (has_property parsedParams' paramName) && negb (spec_optional paramSpec) then
    Throw (CreateParamNotFound paramName (COMMAND cls))
  else Ok parsedParams'.

Fixpoint create_loop (cls : MessageConstructor) (client : Client)
    (params : gmap string string) (entries : list (string * MessageParamSpecEntry))
    (parsedParams : gmap string MessageParam)
  : result (gmap string MessageParam) :=
  match entries with
  | [] => Ok parsedParams
  | (paramName, paramSpec) :: more =>
      parsedParams' ← create_entry cls client params parsedParams paramName paramSpec;
      create_loop cls client params more parsedParams'
  end.

Definition create (cls : MessageConstructor) (client : Client)
    (params : gmap string string) : result Message :=
  message ← new cls client (COMMAND cls) None None None;
  parsedParams ← create_loop cls client params (PARAM_SPEC cls) ∅;
  Ok {| constructor := constructor message; _tags := _tags message;
        _prefix := _prefix message; _command := _command message;
        _params := _params message; _parsedParams := Some parsedParams;
        _raw := _raw message |}.

(** *** toString *)

(** The [map] callback of [toString]; [None] is the [undefined] that the
    following [filter] drops.  [this._parsedParams[paramName]] also reads
    what the object inherits: a member of [Object.prototype], or the
    [value] or [trailing] of a parameter made its prototype.  What is
    read there is no parameter; where it is truthy, its [trailing] and
    [value] are [undefined] and the text written is ["undefined"]. *)
Definition render (parsedParams : gmap string MessageParam) (paramName : string)
  : option string :=
  match parsedParams !! paramName with
  | Some param => Some ((if trailing param then ":" else EmptyString) ++ value param)
  | None =>
      if negb (is_unset (JS.inherited paramName)) then Some "undefined"
      else
        match parsedParams !! "__proto__" with
        | Some proto =>
            if (String.eqb paramName "value" && negb (JS.falsy (value proto)))
               || (String.eqb paramName "trailing" && trailing proto)
            then Some "undefined"
            else None
        | None => None
        end
  end.

(** [toString]; reading a property of an [undefined] [_parsedParams]
    raises, which takes a spec with at least one key. *)
Definition toString (m : Message) : result string :=
  let specKeys := map fst (PARAM_SPEC (constructor m)) in
  match _parsedParams m with
  | Some parsedParams =>
      Ok (JS.join " " (_command m :: omap (render parsedParams) specKeys))
  | None =>
      match specKeys with
      | [] => Ok (JS.join " " [_command m])
      | _ :: _ => Throw (TypeError "Cannot read property of undefined")
      end
  end.

(** [get params]: [ObjectTools.map(this._parsedParams, param => param.value)],
    the values of the own properties of [_parsedParams]. *)
Definition params (m : Message) : result (gmap string string) :=
  match _parsedParams m with
  | Some parsedParams => Ok (value <$> delete "__proto__" parsedParams)
  | None => Throw (TypeError "Cannot convert undefined or null to object")
  end.

(** ** Message/MessageTypes *)

Definition plain_entry : MessageParamSpecEntry :=
  {| spec_trailing := false; spec_rest := false; spec_optional := false;
     spec_type := None; spec_match := None |}.

(** [@MessageType('INVITE') class ChannelInvite]: the property decorators
    fill [PARAM_SPEC] in declaration order. *)
Definition ChannelInvite : MessageConstructor :=
  {| name := "ChannelInvite"; COMMAND := "INVITE";
     PARAM_SPEC :=
       [ ("target", plain_entry);
         ("channel", {| spec_trailing := false; spec_rest := false; spec_optional := false;
                        spec_type := Some channel; spec_match := None |}) ];
     SUPPORTS_CAPTURE := false |}.

(** [@MessageType('QUIT') class ClientQuit]. *)
Definition ClientQuit : MessageConstructor :=
  {| name := "ClientQuit"; COMMAND := "QUIT";
     PARAM_SPEC :=
       [ ("message", {| spec_trailing := true; spec_rest := false; spec_optional := true;
                        spec_type := None; spec_match := None |}) ];
     SUPPORTS_CAPTURE := false |}.

(** [@MessageType('436') class Error436NickCollision]. *)
Definition Error436NickCollision : MessageConstructor :=
  {| name := "Error436NickCollision"; COMMAND := "436";
     PARAM_SPEC :=
       [ ("me", plain_entry);
         ("nick", plain_entry);
         ("suffix", {| spec_trailing := true; spec_rest := false; spec_optional := false;
                       spec_type := None; spec_match := None |}) ];
     SUPPORTS_CAPTURE := false |}.

(** [@MessageType('315') class Reply315EndOfWho]. *)
Definition Reply315EndOfWho : MessageConstructor :=
  {| name := "Reply315EndOfWho"; COMMAND := "315";
     PARAM_SPEC :=
       [ ("me", plain_entry);
         ("query", plain_entry);
         ("suffix", {| spec_trailing := true; spec_rest := false; spec_optional := false;
                       spec_type := None; spec_match := None |}) ];
     SUPPORTS_CAPTURE := false |}.

Module CapabilityNegotiation.

Definition is_letter (c : ascii) : bool :=
  let n := nat_of_ascii c in
  ((Nat.leb 65 n && Nat.leb n 90) || (Nat.leb 97 n && Nat.leb n 122))%bool.

Definition is_digit (c : ascii) : bool :=
  let n := nat_of_ascii c in (Nat.leb 48 n && Nat.leb n 57)%bool.

(** The punctuation of the two classes of the [target] pattern. *)
Definition is_special (c : ascii) : bool :=
  StringTools.in_class
    ["_"%char; "-"%char; "["%char; "]"%char; "\"%char; "^"%char;
     "{"%char; "}"%char; "|"%char; "`"%char] c.

(** The [match] of [target], case-insensitive: either a lone star, or
    one character of [[a-z_\-\[\]\\^{}|`]] followed by any number of
    characters of [[a-z0-9_\-\[\]\\^{}|`]]. *)
Definition target_match (s : string) : bool :=
  String.eqb s "*"
  || match s with
     | EmptyString => false
     | String c tail =>
         (is_letter c || is_special c)
         && forallb (fun x => is_letter x || is_digit x || is_special x)
                    (list_ascii_of_string tail)
     end.

(** [/^(?:LS|LIST|REQ|ACK|NAK|END|NEW|DEL)$/i.test] *)
Definition command_match (s : string) : bool :=
  existsb (String.eqb (JS.toUpperCase s))
          ["LS"; "LIST"; "REQ"; "ACK"; "NAK"; "END"; "NEW"; "DEL"].

(** [/^\d+$/.test] *)
Definition version_match (s : string) : bool :=
  negb (JS.falsy s) && forallb is_digit (list_ascii_of_string s).

(** [/^\*$/.test] *)
Definition continued_match (s : string) : bool := String.eqb s "*".

Definition cls : MessageConstructor :=
  {| name := "CapabilityNegotiation"; COMMAND := "CAP";
     PARAM_SPEC :=
       [ ("target", {| spec_trailing := false; spec_rest := false; spec_optional := true;
                       spec_type := None; spec_match := Some target_match |});
         ("command", {| spec_trailing := false; spec_rest := false; spec_optional := false;
                        spec_type := None; spec_match := Some command_match |});
         ("version", {| spec_trailing := false; spec_rest := false; spec_optional := true;
                        spec_type := None; spec_match := Some version_match |});
         ("continued", {| spec_trailing := false; spec_rest := false; spec_optional := true;
                          spec_type := None; spec_match := Some continued_match |});
         ("capabilities", {| spec_trailing := true; spec_rest := false; spec_optional := true;
                             spec_type := None; spec_match := None |}) ];
     SUPPORTS_CAPTURE := true |}.

Definition is_ack_or_nak (command : option string) : bool :=
  match command with
  | Some c => String.eqb c "ACK" || String.eqb c "NAK"
  | None => false
  end.

Definition is_ls_or_list (command : option string) : bool :=
  match command with
  | Some c => String.eqb c "LS" || String.eqb c "LIST"
  | None => false
  end.

(** [===] on two property reads, each a string or [undefined]. *)
Definition strict_eq (a b : option string) : bool := bool_decide (a = b).

Definition isResponseTo (this originalMessage : Message) : result bool :=
  if negb (instanceof originalMessage cls) then Ok false
  else
    mine ← params this;
    if is_ack_or_nak (mine !! "command") then
      theirs ← params originalMessage;
      if strict_eq (theirs !! "command") (Some "REQ") then
        match mine !! "capabilities" with
        | Some capabilities =>
            Ok (strict_eq (theirs !! "capabilities") (Some (JS.trim capabilities)))
        | None => Throw (TypeError "Cannot read property 'trim' of undefined")
        end
      else Ok false
    else if is_ls_or_list (mine !! "command") then
      theirs ← params originalMessage;
      Ok (strict_eq (theirs !! "command") (mine !! "command"))
    else Ok false.

Definition endsResponseTo (this originalMessage : Message) : result bool :=
  if negb (instanceof originalMessage cls) then Ok false
  else
    mine ← params this;
    if is_ls_or_list (mine !! "command") then
      Ok match mine !! "continued" with
         | Some continued => JS.falsy continued
         | None => true
         end
    else Ok true.

End CapabilityNegotiation.

(** *** The overridable methods, dispatched on the receiver's class *)

Definition isResponseTo (this originalMessage : Message) : result bool :=
  if instanceof this CapabilityNegotiation.cls then
    CapabilityNegotiation.isResponseTo this originalMessage
  else if instanceof this Error436NickCollision then
    Ok (String.eqb (_command originalMessage) "NICK")
  else if instanceof this Reply315EndOfWho then
    Ok (String.eqb (name (constructor originalMessage)) "WhoQuery")
  else Ok false.

Definition endsResponseTo (this originalMessage : Message) : result bool :=
  if instanceof this CapabilityNegotiation.cls then
    CapabilityNegotiation.endsResponseTo this originalMessage
  else if instanceof this Error436NickCollision then Ok true
  else if instanceof this Reply315EndOfWho then Ok true
  else Ok false.

Definition _acceptsInReplyCollection (this message : Message) : result bool :=
  isResponseTo message this.

(** ** Reply capture *)

Inductive CaptureSlot : Type :=
| Open
| ClosedSuccess (messages : list Message)
| ClosedFailure (reason : string).

Record PendingCapture : Type := {
  originating : Message;
  accumulated : list Message;
  slot : CaptureSlot
}.

(** The mutable side of a [Client]: the live captures, in registration
    order, and the lines handed to the connection. *)
Record ClientState : Type := {
  collectors : list PendingCapture;
  sentLines : list string
}.

(** Modelled from the spec: [Client.collect] and the promise it gives are
    not part of the sources at hand.  Per the reply-correlator contract,
    beginning a capture registers an [Open] pending capture for the
    message, with nothing accumulated, after the captures already live;
    the handle to wait on is its position in the registry. *)
Definition collect (originalMessage : Message) (st : ClientState) : nat * ClientState :=
  (length (collectors st),
   {| collectors := collectors st ++
        [{| originating := originalMessage; accumulated := []; slot := Open |}];
      sentLines := sentLines st |}).

(** Modelled from the spec: what the correlator does with one inbound
    message and one pending capture (the collector class is not part of
    the sources at hand).  An [Open] capture accepts the candidate iff
    [isResponseTo] holds, appends it, and closes with the accumulated
    sequence iff [endsResponseTo] holds. *)
Definition offer (capture : PendingCapture) (candidate : Message) : result PendingCapture :=
  match slot capture with
  | Open =>
      accepted ← _acceptsInReplyCollection (originating capture) candidate;
      if (accepted : bool) then
        let messages := (accumulated capture ++ [candidate])%list in
        ends ← endsResponseTo candidate (originating capture);
        Ok {| originating := originating capture; accumulated := messages;
              slot := if (ends : bool) then ClosedSuccess messages else Open |}
      else Ok capture
  | _ => Ok capture
  end.

(** Modelled from the spec: the inbound messages are offered to a pending
    capture one at a time, in arrival order. *)
Fixpoint offer_all (capture : PendingCapture) (inbound : list Message)
  : result PendingCapture :=
  match inbound with
  | [] => Ok capture
  | candidate :: later =>
      capture' ← offer capture candidate; offer_all capture' later
  end.

(** [Client.send]: [this._connection.sendLine(message.toString())]. *)
Definition send (message : Message) (st : ClientState) : result unit * ClientState :=
  match toString message with
  | Ok line => (Ok tt, {| collectors := collectors st; sentLines := sentLines st ++ [line] |})
  | Throw e => (Throw e, st)
  end.

(** [Message.sendAndCaptureReply]; the outcome is how the returned promise
    starts out: rejected with the error thrown, or pending on the handle
    of the capture. *)
Definition sendAndCaptureReply (this : Message) (st : ClientState)
  : result nat * ClientState :=
  let cls := constructor this in
  if negb (SUPPORTS_CAPTURE cls) then (Throw (CaptureNotSupported (COMMAND cls)), st)
  else
    let '(promise, st1) := collect this st in
    match send this st1 with
    | (Ok _, st2) => (Ok promise, st2)
    | (Throw e, st2) => (Throw e, st2)
    end.

(** ** Vocabulary of the statements *)

(** The number of non-optional entries of a parameter spec, counted entry
    by entry. *)
Fixpoint nonOptionalEntries (entries : list (string * MessageParamSpecEntry)) : nat :=
  match entries with
  | [] => 0%nat
  | (_, paramSpec) :: more =>
      if spec_optional paramSpec then nonOptionalEntries more
      else S (nonOptionalEntries more)
  end.

(** The state a round leaves behind, however it ends. *)
Definition flow_state (flow : Flow) : Resolution :=
  match flow with
  | Continue st => st
  | Break st => st
  end.

(** The state in which the resolution loop reaches the entry that follows
    [entries], provided every round before it fell through. *)
Fixpoint reaches (client : Client) (params : list MessageParam)
    (entries : list (string * MessageParamSpecEntry)) (st : Resolution)
  : option Resolution :=
  match entries with
  | [] => Some st
  | (paramName, paramSpec) :: more =>
      match parseParams_round client params paramName paramSpec st with
      | Ok (Continue st') => reaches client params more st'
      | _ => None
      end
  end.

(** The state in which [parseParams] enters its loop. *)
Definition initial (cls : MessageConstructor) : Resolution :=
  {| res_i := 0%nat; res_requiredParamsLeft := minParamCount cls; res_parsedParams := ∅ |}.

(** The resolved value of a named parameter, when there is one. *)
Definition param (m : Message) (paramName : string) : option string :=
  match _parsedParams m with
  | Some parsedParams => value <$> parsedParams !! paramName
  | None => None
  end.

Definition BEL : ascii := ascii_of_nat 7.
Definition BS : ascii := ascii_of_nat 8.

(** A client with the default channel types and an empty registry. *)
Definition bare_client : Client :=
  {| channelTypes := StringTools.default_validTypes; getCommandClass := fun _ => None |}.

Definition no_traffic : ClientState := {| collectors := []; sentLines := [] |}.

(** A client whose registry knows the message types above. *)
Definition sample_client : Client :=
  {| channelTypes := StringTools.default_validTypes;
     getCommandClass := fun command =>
       if String.eqb command "CAP" then Some CapabilityNegotiation.cls
       else if String.eqb command "INVITE" then Some ChannelInvite
       else if String.eqb command "QUIT" then Some ClientQuit
       else if String.eqb command "436" then Some Error436NickCollision
       else if String.eqb command "315" then Some Reply315EndOfWho
       else None |}.

(** *** Serializable descriptors and values *)

(** A command that [parse] reads back as the command token. *)
Definition command_token (command : string) : bool :=
  negb (JS.falsy command) && negb (JS.has_char " " command)
  && negb (JS.first_is "@" command) && negb (JS.first_is ":" command).

(** A layout of entries that [parseParams] reads back in full: only the
    last entry may be [trailing]; a [rest] entry is not [trailing] and is
    either the last entry or followed by the [trailing] entry alone. *)
Fixpoint well_laid (entries : list (string * MessageParamSpecEntry)) : bool :=
  match entries with
  | [] => true
  | (_, paramSpec) :: more =>
      match more with
      | [] => negb (spec_rest paramSpec && spec_trailing paramSpec)
      | (_, next) :: more' =>
          negb (spec_trailing paramSpec)
          && (if spec_rest paramSpec
              then match more' with [] => true | _ :: _ => false end
                   && spec_trailing next && negb (spec_rest next)
              else true)
          && well_laid more
      end
  end.

Definition serializable (cls : MessageConstructor) : bool :=
  command_token (COMMAND cls)
  && bool_decide (NoDup (map fst (PARAM_SPEC cls)))
  && well_laid (PARAM_SPEC cls).

(** A value that [toString] writes as tokens [parse] reads back as
    written: anything for a [trailing] entry; for a [rest] entry, pieces
    between spaces none of which starts with a colon; otherwise a single
    piece, without space, that does not start with a colon. *)
Definition fits (paramSpec : MessageParamSpecEntry) (v : string) : bool :=
  if spec_trailing paramSpec then true
  else if spec_rest paramSpec then
    forallb (fun piece => negb (JS.first_is ":" piece)) (JS.split " " v)
  else negb (JS.has_char " " v) && negb (JS.first_is ":" v).

(** A fully valid set of named values: every entry of the spec is given
    a value, and the value passes the entry's validator. *)
Definition fully_valid (client : Client) (entries : list (string * MessageParamSpecEntry))
    (vals : gmap string string) : bool :=
  forallb (fun entry =>
             match vals !! entry.1 with
             | Some v => checkParam client v entry.2
             | None => false
             end) entries.

(** Every value given to an entry fits the entry's position. *)
Definition fitting (entries : list (string * MessageParamSpecEntry))
    (vals : gmap string string) : bool :=
  forallb (fun entry =>
             match vals !! entry.1 with
             | Some v => fits entry.2 v
             | None => true
             end) entries.

(** Both at once, entry by entry. *)
Definition valid_and_fitting (client : Client) (entries : list (string * MessageParamSpecEntry))
    (vals : gmap string string) : bool :=
  forallb (fun entry =>
             match vals !! entry.1 with
             | Some v => checkParam client v entry.2 && fits entry.2 v
             | None => false
             end) entries.

Definition val_of (vals : gmap string string) (paramName : string) : string :=
  match vals !! paramName with
  | Some v => v
  | None => EmptyString
  end.

(** No entry is named like a member of [Object.prototype]. *)
Definition ordinary_names (entries : list (string * MessageParamSpecEntry)) : bool :=
  forallb (fun entry => is_unset (JS.inherited entry.1)) entries.

(** A valid set of named values, which may leave optional entries out:
    every value given passes its entry's validator, and every entry that
    is not optional is given one. *)
Definition valid_set (client : Client) (entries : list (string * MessageParamSpecEntry))
    (vals : gmap string string) : bool :=
  forallb (fun entry =>
             match vals !! entry.1 with
             | Some v => checkParam client v entry.2
             | None => spec_optional entry.2
             end) entries.

(** The entries that are given a value, in the order of the spec. *)
Definition supplied (vals : gmap string string)
    (entries : list (string * MessageParamSpecEntry))
  : list (string * MessageParamSpecEntry) :=
  List.filter (fun entry => negb (is_unset (vals !! entry.1))) entries.

(** The object [create] builds from a valid set of values. *)
Fixpoint given (vals : gmap string string)
    (entries : list (string * MessageParamSpecEntry))
    (parsedParams : gmap string MessageParam) : gmap string MessageParam :=
  match entries with
  | [] => parsedParams
  | (paramName, paramSpec) :: more =>
      given vals more
        match vals !! paramName with
        | Some v =>
            <[paramName := {| value := v; trailing := spec_trailing paramSpec |}]>
              parsedParams
        | None => parsedParams
        end
  end.

(** The tokenizer state once [more] parameters have been pushed. *)
Definition pushed (st : Tokens) (more : list MessageParam) : Tokens :=
  {| tok_tags := tok_tags st; tok_prefix := tok_prefix st;
     tok_command := tok_command st; tok_params := (tok_params st ++ more)%list |}.

Definition plain_token (piece : string) : MessageParam :=
  {| value := piece; trailing := false |}.

(** The raw tokens an entry's value comes back as. *)
Definition tokens_of_entry (vals : gmap string string)
    (entry : string * MessageParamSpecEntry) : list MessageParam :=
  if spec_trailing entry.2 then [{| value := val_of vals entry.1; trailing := true |}]
  else if spec_rest entry.2 then
    map plain_token (JS.split " " (val_of vals entry.1))
  else [{| value := val_of vals entry.1; trailing := false |}].

Definition tokens_of (vals : gmap string string)
    (entries : list (string * MessageParamSpecEntry)) : list MessageParam :=
  flat_map (tokens_of_entry vals) entries.

(** What [toString] writes after the command, entry by entry. *)
Definition written (vals : gmap string string)
    (entries : list (string * MessageParamSpecEntry)) : list string :=
  map (fun entry =>
         (if spec_trailing entry.2 then ":" else EmptyString) ++ val_of vals entry.1)
      entries.

(** Whether an entry reached with the tokens [toks] left takes some of
    them: a [rest] entry takes every token that is not trailing, any
    other entry takes the first token if its validator accepts it. *)
Definition takes (client : Client) (paramSpec : MessageParamSpecEntry)
    (toks : list MessageParam) : bool :=
  match toks with
  | [] => false
  | p :: _ =>
      if spec_rest paramSpec then negb (trailing p)
      else checkParam client (value p) paramSpec
  end.

(** On the way back, no entry that was given no value takes a token
    written for a later entry: when it is reached, either no more tokens
    are left than there are entries still required, or it does not take
    the next one. *)
Fixpoint undisturbed (client : Client) (vals : gmap string string)
    (entries : list (string * MessageParamSpecEntry)) : bool :=
  match entries with
  | [] => true
  | (paramName, paramSpec) :: more =>
      let toks := tokens_of vals (supplied vals more) in
      (negb (is_unset (vals !! paramName))
       || Nat.leb (length toks) (nonOptionalEntries more)
       || negb (takes client paramSpec toks))
      && undisturbed client vals more
  end.

(** Sample values for [create]. *)
Definition nick_collision_values : gmap string string :=
  <["me" := "a b"]> (<["nick" := "n"]> {[ "suffix" := "s t" ]}).

(** A descriptor with a [rest] entry ahead of a plain one, and a client
    that resolves every command against it. *)
Definition RestThenPlain : MessageConstructor :=
  {| name := "RestThenPlain"; COMMAND := "X";
     PARAM_SPEC :=
       [ ("list", {| spec_trailing := false; spec_rest := true; spec_optional := false;
                     spec_type := None; spec_match := None |});
         ("last", plain_entry) ];
     SUPPORTS_CAPTURE := false |}.

Definition rest_then_plain_client : Client :=
  {| channelTypes := StringTools.default_validTypes;
     getCommandClass := fun _ => Some RestThenPlain |}.

(** A descriptor with an optional entry named like a member of
    [Object.prototype], and a client that resolves every command
    against it. *)
Definition Inheriting : MessageConstructor :=
  {| name := "Inheriting"; COMMAND := "X";
     PARAM_SPEC :=
       [ ("toString", {| spec_trailing := false; spec_rest := false; spec_optional := true;
                         spec_type := None; spec_match := None |}) ];
     SUPPORTS_CAPTURE := false |}.

Definition inheriting_client : Client :=
  {| channelTypes := StringTools.default_validTypes;
     getCommandClass := fun _ => Some Inheriting |}.

(** ** Toolkit/StringTools.ts, the remaining functions *)

Definition NUL : ascii := ascii_of_nat 0.
Definition SOH : ascii := ascii_of_nat 1.
Definition LF : ascii := ascii_of_nat 10.
Definition CR : ascii := ascii_of_nat 13.
Definition DLE : ascii := ascii_of_nat 16.

(** [s.replace(/[...]/g, '')]: every character of the class is dropped. *)
Fixpoint remove_class (class : list ascii) (s : string) : string :=
  match s with
  | EmptyString => EmptyString
  | String c s' =>
      if StringTools.in_class class c then remove_class class s'
      else String c (remove_class class s')
  end.

(** The class a call of [sanitizeParameter] removes. *)
Definition unsafe_chars (spaceAllowed : bool) : list ascii :=
  if spaceAllowed then [NUL; CR; LF] else [NUL; CR; LF; " "%char].

(** [sanitizeParameter(param, spaceAllowed)]; [spaceAllowed] defaults to
    [false]. *)
Definition sanitizeParameter (param : string) (spaceAllowed : bool) : string :=
  if spaceAllowed then remove_class [NUL; CR; LF] param
  else remove_class [NUL; CR; LF; " "%char] param.

(** [ToInt32], applied by [&] and [>>] to their operand. *)
Definition toInt32 (z : Z) : Z := (z + 2 ^ 31) mod 2 ^ 32 - 2 ^ 31.

(** The [do ... while (length)] loop of [padLeft]; [None] when the rounds
    allowed by [fuel] do not bring [length] to zero. *)
Fixpoint padLeft_loop (fuel : nat) (length : Z) (padding paddingStr : string)
  : option string :=
  match fuel with
  | O => None
  | S fuel' =>
      let paddingStr' :=
        if Z.land (toInt32 length) 1 =? 1 then paddingStr ++ padding else paddingStr in
      let length' := Z.shiftr (toInt32 length) 1 in
      if length' =? 0 then Some paddingStr'
      else padLeft_loop fuel' length' (padding ++ padding) paddingStr'
  end.

(** [padLeft(str, length, padding)] for a string [str] and an integral
    [length]; [padding] is [None] when the argument is left out. *)
Definition padLeft (fuel : nat) (str : string) (length : Z) (padding : option string)
  : option string :=
  let length := length - Z.of_nat (String.length str) in
  if length <=? 0 then Some str
  else
    let padding := match padding with Some p => p | None => " " end in
    match padLeft_loop fuel length padding EmptyString with
    | Some paddingStr => Some (paddingStr ++ str)
    | None => None
    end.

(** [n] copies of [s] in a row. *)
Fixpoint repeat_string (s : string) (n : nat) : string :=
  match n with
  | O => EmptyString
  | S n' => s ++ repeat_string s n'
  end.

Record ParsedCtcp : Type := {
  ctcp_command : string;
  ctcp_message : string
}.

(** [s.slice(-1) === c ? s.slice(0, -1) : s]. *)
Fixpoint drop_last_if (c : ascii) (s : string) : string :=
  match s with
  | EmptyString => EmptyString
  | String d EmptyString => if Ascii.eqb d c then EmptyString else s
  | String d s' => String d (drop_last_if c s')
  end.

(** The table of [decodeCtcp]'s replacement callback, with its [|| '']. *)
Definition ctcp_unquoted (escapedChar : ascii) : string :=
  if Ascii.eqb escapedChar "0" then String NUL EmptyString
  else if Ascii.eqb escapedChar "n" then String LF EmptyString
  else if Ascii.eqb escapedChar "r" then String CR EmptyString
  else if Ascii.eqb escapedChar DLE then String DLE EmptyString
  else EmptyString.

(** The dot of a pattern matches anything but a line terminator. *)
Definition line_terminator (c : ascii) : bool := Ascii.eqb c LF || Ascii.eqb c CR.

(** [s.replace(/\x10(.)/, ...)]: the pattern is not global, so the
    leftmost match alone is replaced. *)
Fixpoint unquote_first (s : string) : string :=
  match s with
  | EmptyString => EmptyString
  | String c s' =>
      match s' with
      | EmptyString => s
      | String d s'' =>
          if Ascii.eqb c DLE && negb (line_terminator d)
          then ctcp_unquoted d ++ s''
          else String c (unquote_first s')
      end
  end.

(** [decodeCtcp(message)]; [None] is the [false] returned for a message
    that is not a CTCP one. *)
Definition decodeCtcp (message : string) : option ParsedCtcp :=
  if negb (JS.first_is SOH message) then None
  else
    let strippedMessage := unquote_first (drop_last_if SOH (JS.substr1 message)) in
    match JS.split " " strippedMessage with
    | [] => Some {| ctcp_command := EmptyString; ctcp_message := JS.join " " [] |}
    | command :: splitMessage =>
        Some {| ctcp_command := JS.toUpperCase command;
                ctcp_message := JS.join " " splitMessage |}
    end.

(** ** Vocabulary of the further statements *)

(** A raw token as the tokenizer pushes it before the trailing one: not
    flagged trailing, without space, not starting with a colon. *)
Definition positional (p : MessageParam) : bool :=
  negb (trailing p) && negb (JS.has_char " " (value p)) && negb (JS.first_is ":" (value p)).

(** A raw token stream: positional tokens, then at most one trailing
    token, which is the last. *)
Fixpoint raw_stream (ps : list MessageParam) : bool :=
  match ps with
  | [] => true
  | p :: more =>
      match more with
      | [] => positional p || trailing p
      | _ :: _ => positional p && raw_stream more
      end
  end.

(** The parameters the tokenizer reads from the tokens that follow the
    command. *)
Fixpoint params_after_command (splitLine : list string) : list MessageParam :=
  match splitLine with
  | [] => []
  | token :: shifted =>
      if JS.first_is ":" token
      then [{| value := JS.substr1 (JS.join " " splitLine); trailing := true |}]
      else {| value := token; trailing := false |} :: params_after_command shifted
  end.

(** A token that the tokenizer takes for the command when none is set. *)
Definition command_like (token : string) : bool :=
  negb (JS.falsy token) && negb (JS.first_is "@" token) && negb (JS.first_is ":" token).

(** The line starts with a command: no tag block, no prefix. *)
Definition starts_with_command (line : string) : bool :=
  match JS.split " " line with
  | token :: _ => command_like token
  | [] => false
  end.

(** A message as [parse] returns it, with other tags, prefix and raw line. *)
Definition framed (m : Message) (tags : option (gmap string string))
    (prefix : option MessagePrefix) (line : string) : Message :=
  {| constructor := constructor m; _tags := tags; _prefix := prefix;
     _command := _command m; _params := _params m; _parsedParams := _parsedParams m;
     _raw := Some line |}.

(** The text of a tag value that [parseTags] keeps: what stands before a
    second [=]. *)
Definition kept_value (tagValue : string) : string :=
  match JS.split "=" tagValue with
  | piece :: _ => piece
  | [] => EmptyString
  end.

(** The tag map after the tags [kvs], taken in order. *)
Definition tags_of (kvs : list (string * string)) : gmap string string :=
  foldl (fun tags kv => <[kv.1 := unescapeTagValue (kept_value kv.2)]> tags) ∅ kvs.

(** A tag as written on the wire. *)
Definition tag_text (kv : string * string) : string := kv.1 ++ String "=" kv.2.

(** Only the last entry of the spec may be [trailing]. *)
Fixpoint trailing_last (entries : list (string * MessageParamSpecEntry)) : bool :=
  match entries with
  | [] => true
  | (_, paramSpec) :: more =>
      match more with
      | [] => true
      | _ :: _ => negb (spec_trailing paramSpec) && trailing_last more
      end
  end.

(** The object built by giving the entries, in order, the tokens at the
    same positions. *)
Fixpoint by_position (entries : list (string * MessageParamSpecEntry))
    (ps : list MessageParam) (parsedParams : gmap string MessageParam)
  : gmap string MessageParam :=
  match entries, ps with
  | (paramName, _) :: more, p :: ps' => by_position more ps' (<[paramName := p]> parsedParams)
  | _, _ => parsedParams
  end.

(** What the tokenizer keeps true of its command. *)
Definition command_kept (command : option string) : Prop :=
  match command with
  | None => True
  | Some c => JS.toUpperCase c = c /\ JS.has_char " " c = false
  end.

(** The class [parse] builds a message of a given command from. *)
Definition class_for (client : Client) (command : string) : MessageConstructor :=
  match getCommandClass client command with
  | Some cls => cls
  | None => MessageClass
  end.

(** Every entry is required and takes a single token. *)
Definition plain_required (entries : list (string * MessageParamSpecEntry)) : bool :=
  forallb (fun entry => negb (spec_optional entry.2) && negb (spec_rest entry.2)) entries.

(** Each entry's validator accepts the token at the entry's position. *)
Fixpoint tokens_pass (client : Client) (entries : list (string * MessageParamSpecEntry))
    (ps : list MessageParam) : bool :=
  match entries, ps with
  | (_, paramSpec) :: more, p :: ps' =>
      checkParam client (value p) paramSpec && tokens_pass client more ps'
  | _, _ => true
  end.

(** The countdown is the number of non-optional entries still to come,
    and the index stays within the tokens. *)
Definition counting (ps : list MessageParam)
    (entries : list (string * MessageParamSpecEntry)) (st : Resolution) : Prop :=
  res_requiredParamsLeft st = Z.of_nat (nonOptionalEntries entries)
  /\ (res_i st <= length ps)%nat.

(** ** Toolkit/ObjectTools *)

Module ObjectTools.

(** [Object.assign(target, ...sources)], as to the own properties of the
    result: the own properties of the sources are assigned to the target
    from left to right, a later one overwriting an earlier one.  The
    assignment of a property named [__proto__] creates none: it runs the
    setter inherited from [Object.prototype]. *)
Definition assign {O : Type} (target : gmap string O) (sources : list (gmap string O))
  : gmap string O :=
  foldl (fun acc source => delete "__proto__" source ∪ acc) target sources.

(** [fromArray(arr, fn)]: [Object.assign({}, ...arr.map(fn))]. *)
Definition fromArray {T O : Type} (arr : list T) (fn : T -> gmap string O)
  : gmap string O :=
  assign ∅ (List.map fn arr).

(** [indexBy(arr, keyFn)], [keyFn] a function; a property name given
    instead is first turned into the function that reads that property. *)
Definition indexBy {T : Type} (arr : list T) (keyFn : T -> string) : gmap string T :=
  fromArray arr (fun val => {[ keyFn val := val ]}).

(** [map(obj, fn)]: one single-property object per entry of [obj],
    assigned onto an empty object.  The keys of [obj] are distinct, so
    the order in which the entries are taken does not show in the
    properties of the result. *)
Definition map {T O : Type} (obj : gmap string T) (fn : T -> string -> O)
  : gmap string O :=
  assign ∅ (List.map (fun entry => {[ entry.1 := fn entry.2 entry.1 ]}) (map_to_list obj)).

End ObjectTools.

(** ** Client *)

(** The fields of the connection info that the constructor reads. *)
Module Connection.

Record ConnectionInfo : Type := {
  password : option string;
  nick : string;
  userName : option string;
  realName : option string
}.

End Connection.

(** [a || b] for an optional string [a]. *)
Definition or_else (a : option string) (b : string) : string :=
  match a with
  | Some s => if JS.falsy s then b else s
  | None => b
  end.

(** The lines the ['connected'] handler hands to [sendLine], in order. *)
Definition connected (connection : Connection.ConnectionInfo) : list string :=
  let _nick := Connection.nick connection in
  let _userName := or_else (Connection.userName connection) (Connection.nick connection) in
  let _realName := or_else (Connection.realName connection) (Connection.nick connection) in
  let pass_line :=
    match Connection.password connection with
    | Some pass =>
        if JS.falsy pass then [] else ["PASS " ++ sanitizeParameter pass false]
    | None => []
    end in
  let nick_line := "NICK " ++ sanitizeParameter _nick false in
  let user_line :=
    "USER " ++ sanitizeParameter _userName false ++ " 8 * :"
      ++ sanitizeParameter _realName true in
  (pass_line ++ [nick_line; user_line])%list.

(** A supported feature: [true], or the text given for it. *)
Inductive Feature : Type :=
| Flag
| Text (param : string).

(** The callback of the [Numeric005ISupport] handler:
    [const [support, param] = part.split('=', 2); return {[support]: param || true}].
    [split] returns at least one piece, so the last branch is never taken. *)
Definition isupport_part (part : string) : gmap string Feature :=
  match JS.split_limit "=" 2 part with
  | support :: rest =>
      {[ support := match rest with
                    | param :: _ => if JS.falsy param then Flag else Text param
                    | [] => Flag
                    end ]}
  | [] => ∅
  end.

(** The [Numeric005ISupport] handler: the new value of [_supportedFeatures]. *)
Definition on_isupport (_supportedFeatures : gmap string Feature) (supports : string)
  : gmap string Feature :=
  ObjectTools.assign _supportedFeatures
    [ObjectTools.fromArray (JS.split " " supports) isupport_part].

(** ** Vocabulary of the statements on the client *)

(** The name a part of the [ISUPPORT] text announces. *)
Definition announces (support part : string) : bool :=
  match JS.split "=" part with
  | piece :: _ => String.eqb piece support
  | [] => false
  end.

(** The name and the feature that one part of the [ISUPPORT] text gives. *)
Definition support_of (part : string) : string :=
  match JS.split "=" part with
  | support :: _ => support
  | [] => EmptyString
  end.

Definition feature_of (part : string) : Feature :=
  match JS.split "=" part with
  | _ :: param :: _ => if JS.falsy param then Flag else Text param
  | _ => Flag
  end.

(** A raw token as [toString] writes it. *)
Definition token_text (p : MessageParam) : string :=
  (if trailing p then ":" else EmptyString) ++ value p.

(** The command, if set, does not start with a colon. *)
Definition command_no_colon (command : option string) : Prop :=
  match command with
  | None => True
  | Some c => JS.first_is ":" c = false
  end.

(** * Properties *)

(** ** Strings *)

Section StringFacts.

Variable sep : ascii.

Lemma split_not_nil (s : string) : JS.split sep s <> [].
Proof.
  destruct s as [|c s]; simpl; [discriminate|].
  destruct (Ascii.eqb c sep); [discriminate|].
  destruct (JS.split sep s); discriminate.
Qed.

Lemma split_without_sep (s : string) :
  JS.has_char sep s = false -> JS.split sep s = [s].
Proof.
  induction s as [|c s IH]; simpl; [reflexivity|].
  destruct (Ascii.eqb c sep); simpl; [discriminate|].
  intros H. rewrite (IH H). reflexivity.
Qed.

Lemma split_app_sep (a b : string) :
  JS.split sep (a ++ String sep b) = (JS.split sep a ++ JS.split sep b)%list.
Proof.
  induction a as [|c a IH]; simpl.
  - rewrite Ascii.eqb_refl. reflexivity.
  - destruct (Ascii.eqb c sep); [rewrite IH; reflexivity|].
    rewrite IH. pose proof (split_not_nil a) as Hne.
    destruct (JS.split sep a); [contradiction|reflexivity].
Qed.

Lemma join_split (s : string) :
  JS.join (String sep EmptyString) (JS.split sep s) = s.
Proof.
  unfold JS.join. induction s as [|c s IH]; simpl; [reflexivity|].
  destruct (Ascii.eqb c sep) eqn:E.
  - apply Ascii.eqb_eq in E. subst c.
    pose proof (split_not_nil s) as Hne.
    destruct (JS.split sep s) eqn:Es; [contradiction|].
    simpl in *. rewrite IH. reflexivity.
  - pose proof (split_not_nil s) as Hne.
    destruct (JS.split sep s) as [|p ps] eqn:Es; [contradiction|].
    destruct ps; simpl in *; rewrite <- IH; reflexivity.
Qed.

Lemma split_join (piece : string) (pieces : list string) :
  JS.split sep (JS.join (String sep EmptyString) (piece :: pieces))
  = flat_map (JS.split sep) (piece :: pieces).
Proof.
  unfold JS.join. revert piece.
  induction pieces as [|q qs IH]; intros piece.
  - simpl. rewrite app_nil_r. reflexivity.
  - change (String.concat (String sep EmptyString) (piece :: q :: qs))
      with (piece ++ String sep (String.concat (String sep EmptyString) (q :: qs))).
    rewrite split_app_sep, IH. reflexivity.
Qed.

End StringFacts.

(** ** [isChannel] *)

Lemma in_class_In (class : list ascii) (c : ascii) :
  StringTools.in_class class c = true <-> In c class.
Proof.
  unfold StringTools.in_class. rewrite existsb_exists. split.
  - intros (x & Hx & E). apply Ascii.eqb_eq in E. subst x. exact Hx.
  - intros H. exists c. split; [exact H | apply Ascii.eqb_refl].
Qed.

(** What the pattern of [isChannel] accepts: a first character taken from
    [validTypes], then at least one character, none of which is a space,
    a backspace, NUL, LF, CR or a comma. *)
Lemma isChannel_accepts (str validTypes : string) :
  StringTools.isChannel str validTypes = true <->
  exists c tail,
    str = String c tail
    /\ In c (list_ascii_of_string validTypes)
    /\ tail <> EmptyString
    /\ Forall (fun x => ~ In x StringTools.channel_excluded) (list_ascii_of_string tail).
Proof.
  unfold StringTools.isChannel. destruct str as [|c tail].
  - split; [discriminate | intros (c & t & H & _); discriminate].
  - rewrite !andb_true_iff, in_class_In, negb_true_iff, forallb_forall.
    unfold StringTools.type_class. split.
    + intros [[Hc Ht] Hall]. exists c, tail. repeat split; auto.
      * intros ->. discriminate.
      * apply List.Forall_forall. intros x Hx Hin. apply in_class_In in Hin.
        specialize (Hall x Hx). rewrite Hin in Hall. discriminate.
    + intros (c' & t' & E & Hc & Ht & Hall). injection E as <- <-.
      rewrite List.Forall_forall in Hall. repeat split; auto.
      * destruct tail; [contradiction | reflexivity].
      * intros x Hx. apply negb_true_iff.
        destruct (StringTools.in_class StringTools.channel_excluded x) eqn:Hin; [|reflexivity].
        apply in_class_In in Hin. exfalso. exact (Hall x Hx Hin).
Qed.

(** The three sample calls of the channel-validation property. *)
Example isChannel_samples :
  StringTools.isChannel "#foo" "#&" = true
  /\ StringTools.isChannel "foo" "#&" = false
  /\ StringTools.isChannel "&bar" "#" = false.
Proof. repeat split; reflexivity. Qed.

(** C9: the characters after the channel-type prefix are meant to exclude
    BELL, yet [isChannel] answers [true] on the name made of [#], [a] and
    BELL: the class written in the pattern excludes the backspace (code
    unit 8), not BELL (code unit 7).  Conversely a name containing a
    backspace is turned down. *)
Theorem isChannel_admits_BEL :
  StringTools.isChannel (String "#" (String "a" (String BEL EmptyString))) "#&" = true
  /\ StringTools.isChannel (String "#" (String "a" (String BS EmptyString))) "#&" = false
  /\ ~ In BEL StringTools.channel_excluded.
Proof.
  repeat split; try reflexivity.
  intros H. apply in_class_In in H. discriminate H.
Qed.

(** ** Tag values *)

(** C6, as the code has it: each of the five escapes is replaced by the
    character it stands for, and every other backslash sequence is left
    as it is, the backslash and the character after it both kept. *)
Theorem unescapeTagValue_equations (d : ascii) (tail : string) :
  unescapeTagValue (String "\" (String "\" tail)) = String "\" (unescapeTagValue tail)
  /\ unescapeTagValue (String "\" (String ":" tail)) = String ";" (unescapeTagValue tail)
  /\ unescapeTagValue (String "\" (String "n" tail))
     = String (ascii_of_nat 10) (unescapeTagValue tail)
  /\ unescapeTagValue (String "\" (String "r" tail))
     = String (ascii_of_nat 13) (unescapeTagValue tail)
  /\ unescapeTagValue (String "\" (String "s" tail)) = String " " (unescapeTagValue tail)
  /\ (~ In d ["\"%char; ":"%char; "n"%char; "r"%char; "s"%char] ->
      unescapeTagValue (String "\" (String d tail))
      = String "\" (String d (unescapeTagValue tail)))
  /\ (d <> "\"%char ->
      unescapeTagValue (String d tail) = String d (unescapeTagValue tail)).
Proof.
  assert (Hplain : forall c s, c <> "\"%char ->
            unescapeTagValue (String c s) = String c (unescapeTagValue s)).
  { intros c s Hc. unfold unescapeTagValue. destruct s as [|e s]; [reflexivity|].
    cbn [JS.replace_pairs]. unfold tag_escape_at at 1.
    destruct (Ascii.eqb c "\") eqn:E; [apply Ascii.eqb_eq in E; contradiction|].
    reflexivity. }
  repeat split; try reflexivity.
  - intros Hd.
    assert (Hcls : StringTools.in_class
                     ["\"%char; ":"%char; "n"%char; "r"%char; "s"%char] d = false).
    { destruct (StringTools.in_class _ d) eqn:E; [|reflexivity].
      apply in_class_In in E. contradiction. }
    assert (Hne : d <> "\"%char) by (intros ->; apply Hd; left; reflexivity).
    rewrite <- (Hplain d tail Hne).
    unfold unescapeTagValue. cbn [JS.replace_pairs].
    unfold tag_escape_at at 1. rewrite Ascii.eqb_refl, Hcls. reflexivity.
  - apply Hplain.
Qed.

Lemma unescapeTagValue_equations_witness :
  unescapeTagValue "\xy" = String "\" (String "x" (unescapeTagValue "y"))
  /\ unescapeTagValue "xy" = String "x" (unescapeTagValue "y").
Proof.
  destruct (unescapeTagValue_equations "x" "y") as (_ & _ & _ & _ & _ & Hkeep & Hplain).
  split.
  - apply Hkeep. intros H. apply in_class_In in H. discriminate H.
  - apply Hplain. discriminate.
Defined.

(** C6 as stated fails: an unknown escape does not collapse, it stays. *)
Lemma unknown_escape_is_kept :
  unescapeTagValue "a\xb" = "a\xb"
  /\ unescapeTagValue "\x" <> EmptyString.
Proof. split; [reflexivity | discriminate]. Qed.

(** A valueless tag makes one round of [parseTags] raise. *)
Lemma parseTag_valueless (tags : gmap string string) (tagString : string) :
  JS.has_char "=" tagString = false ->
  parseTag tags tagString = Throw (TypeError "Cannot read property 'replace' of undefined").
Proof.
  intros H. unfold parseTag, JS.split_limit.
  rewrite (split_without_sep _ _ H). reflexivity.
Qed.

Lemma parseTags_loop_valueless (tagStrings : list string) :
  existsb (fun tagString => negb (JS.has_char "=" tagString)) tagStrings = true ->
  forall tags,
    parseTags_loop tagStrings tags
    = Throw (TypeError "Cannot read property 'replace' of undefined").
Proof.
  induction tagStrings as [|t ts IH]; simpl; [discriminate|].
  intros H tags. destruct (JS.has_char "=" t) eqn:Et; simpl in H.
  - unfold parseTag at 1.
    destruct (JS.split_limit "=" 2 t) as [|a [|b l]]; try reflexivity.
    simpl. apply IH. exact H.
  - rewrite (parseTag_valueless _ _ Et). reflexivity.
Qed.

(** C7: a tag block in which some tag has no [=value] part does not
    decode: [parseTags] raises a [TypeError], and so does [parse] on any
    line that starts with that block. *)
Theorem parseTags_valueless_tag (tagBlock : string) :
  existsb (fun tagString => negb (JS.has_char "=" tagString)) (JS.split ";" tagBlock) = true ->
  parseTags tagBlock = Throw (TypeError "Cannot read property 'replace' of undefined")
  /\ (JS.has_char " " tagBlock = false ->
      forall (rest : string) (client : Client),
        parse (String "@" tagBlock ++ String " " rest) client
        = Throw (TypeError "Cannot read property 'replace' of undefined")).
Proof.
  intros H. split.
  - unfold parseTags. apply parseTags_loop_valueless. exact H.
  - intros Hsp rest client. unfold parse.
    rewrite split_app_sep.
    assert (Hs : JS.split " " (String "@" tagBlock) = [String "@" tagBlock]).
    { apply split_without_sep. simpl. exact Hsp. }
    rewrite Hs. cbn [app tokenize JS.first_is JS.substr1 no_tokens tok_tags tok_command
                     is_unset no_command andb].
    rewrite Ascii.eqb_refl. cbn [andb].
    unfold parseTags. rewrite (parseTags_loop_valueless _ H). reflexivity.
Qed.

Lemma parseTags_valueless_tag_witness :
  parseTags "account=bob;solo" = Throw (TypeError "Cannot read property 'replace' of undefined")
  /\ forall client, parse "@account=bob;solo PING :irc.example.org" client
       = Throw (TypeError "Cannot read property 'replace' of undefined").
Proof.
  destruct (parseTags_valueless_tag "account=bob;solo" eq_refl) as [H1 H2].
  split; [exact H1|]. intros client. exact (H2 eq_refl "PING :irc.example.org" client).
Defined.

(** ** Prefixes *)

(** C5, as the code has it, for a prefix with at most one [!] and at most
    one [@] after it: without [!] the whole text is the nick; with it, the
    text before is the nick and the remainder is split on [@]; an empty
    remainder gives neither user nor host; a remainder without [@], or
    with nothing after it, gives a host and no user. *)
Theorem parsePrefix_cases (text : string) :
  (JS.has_char "!" text = false ->
   parsePrefix text = {| raw := text; nick := text; user := None; host := None |})
  /\ (forall n r : string,
       text = n ++ String "!" r ->
       JS.has_char "!" n = false -> JS.has_char "!" r = false ->
       (JS.has_char "@" r = false ->
        parsePrefix text
        = {| raw := text; nick := n; user := None;
             host := if JS.falsy r then None else Some r |})
       /\ (forall u h : string,
            r = u ++ String "@" h ->
            JS.has_char "@" u = false -> JS.has_char "@" h = false ->
            parsePrefix text
            = if JS.falsy h
              then {| raw := text; nick := n; user := None; host := Some u |}
              else {| raw := text; nick := n; user := Some u; host := Some h |}))
  /\ parsePrefix "nick!user@host"
     = {| raw := "nick!user@host"; nick := "nick"; user := Some "user"; host := Some "host" |}
  /\ parsePrefix "nick@host"
     = {| raw := "nick@host"; nick := "nick@host"; user := None; host := None |}
  /\ parsePrefix "nick" = {| raw := "nick"; nick := "nick"; user := None; host := None |}.
Proof.
  split; [|split; [|repeat split; reflexivity]].
  - intros H. unfold parsePrefix, JS.split_limit.
    rewrite (split_without_sep _ _ H). reflexivity.
  - intros n r -> Hn Hr.
    assert (Hsplit : JS.split_limit "!" 2 (n ++ String "!" r) = [n; r]).
    { unfold JS.split_limit.
      rewrite split_app_sep, (split_without_sep _ _ Hn), (split_without_sep _ _ Hr).
      reflexivity. }
    split.
    + intros Hat. unfold parsePrefix. rewrite Hsplit.
      destruct (JS.falsy r) eqn:Er; [reflexivity|].
      unfold JS.split_limit. rewrite (split_without_sep _ _ Hat). reflexivity.
    + intros u h -> Hu Hh. unfold parsePrefix. rewrite Hsplit.
      assert (Hnonempty : JS.falsy (u ++ String "@" h) = false) by (destruct u; reflexivity).
      rewrite Hnonempty. unfold JS.split_limit.
      rewrite split_app_sep, (split_without_sep _ _ Hu), (split_without_sep _ _ Hh).
      reflexivity.
Qed.

Lemma parsePrefix_cases_witness :
  parsePrefix "irc.example.org"
  = {| raw := "irc.example.org"; nick := "irc.example.org"; user := None; host := None |}
  /\ parsePrefix "nick!host"
     = {| raw := "nick!host"; nick := "nick"; user := None; host := Some "host" |}
  /\ parsePrefix "nick!user@host"
     = {| raw := "nick!user@host"; nick := "nick"; user := Some "user"; host := Some "host" |}.
Proof.
  split; [|split].
  - exact (proj1 (parsePrefix_cases "irc.example.org") eq_refl).
  - exact (proj1 (proj1 (proj2 (parsePrefix_cases "nick!host"))
                    "nick" "host" eq_refl eq_refl eq_refl) eq_refl).
  - exact (proj2 (proj1 (proj2 (parsePrefix_cases "nick!user@host"))
                    "nick" "user@host" eq_refl eq_refl eq_refl)
             "user" "host" eq_refl eq_refl eq_refl).
Defined.

(** C5 as stated fails: ["nick@host"] has no [!], so it is a nick and
    nothing else; and what follows a second [!] is not kept. *)
Lemma parsePrefix_nick_at_host :
  host (parsePrefix "nick@host") = None
  /\ nick (parsePrefix "nick@host") = "nick@host"
  /\ parsePrefix "nick@host"
     <> {| raw := "nick@host"; nick := "nick"; user := None; host := Some "host" |}
  /\ parsePrefix "nick!us!er@host"
     = {| raw := "nick!us!er@host"; nick := "nick"; user := None; host := Some "us" |}.
Proof. repeat split; try reflexivity. discriminate. Qed.

(** ** Required parameters *)

Lemma minParamCount_counts (cls : MessageConstructor) :
  minParamCount cls = Z.of_nat (nonOptionalEntries (PARAM_SPEC cls)).
Proof.
  unfold minParamCount. f_equal.
  induction (PARAM_SPEC cls) as [|[paramName paramSpec] more IH]; simpl; [reflexivity|].
  destruct (spec_optional paramSpec); simpl; rewrite IH; reflexivity.
Qed.

(** C4: [minParamCount] is the number of non-optional entries of the
    parameter spec, and a token stream shorter than that is turned down
    by [parseParams] before any entry is looked at: no message is built,
    neither by the constructor nor by [parse]. *)
Theorem too_few_params (cls : MessageConstructor) (client : Client) :
  minParamCount cls = Z.of_nat (nonOptionalEntries (PARAM_SPEC cls))
  /\ (forall (command : string) (ps : list MessageParam),
       Z.of_nat (length ps) < minParamCount cls ->
       parseParams cls client command (Some ps)
       = Throw (ExpectedMoreParams command (minParamCount cls) (length ps))
       /\ forall tags prefix,
            new cls client command (Some ps) tags prefix
            = Throw (ExpectedMoreParams command (minParamCount cls) (length ps)))
  /\ (forall (line command : string) (toks : Tokens),
       tokenize (JS.split " " line) no_tokens = Ok toks ->
       tok_command toks = Some command ->
       JS.falsy command = false ->
       getCommandClass client command = Some cls ->
       Z.of_nat (length (tok_params toks)) < minParamCount cls ->
       parse line client
       = Throw (ExpectedMoreParams command (minParamCount cls) (length (tok_params toks)))).
Proof.
  assert (Hparams : forall command ps,
            Z.of_nat (length ps) < minParamCount cls ->
            parseParams cls client command (Some ps)
            = Throw (ExpectedMoreParams command (minParamCount cls) (length ps))).
  { intros command ps Hlt. unfold parseParams.
    destruct (minParamCount cls >? Z.of_nat (length ps)) eqn:E; [reflexivity|].
    rewrite Z.gtb_ltb, Z.ltb_ge in E. lia. }
  split; [apply minParamCount_counts|]. split.
  - intros command ps Hlt. split; [apply Hparams; exact Hlt|].
    intros tags prefix. unfold new. rewrite (Hparams _ _ Hlt). reflexivity.
  - intros line command toks Htok Hcmd Hne Hcls Hlt. unfold parse.
    rewrite Htok. cbn [mbind result_bind]. rewrite Hcmd, Hne, Hcls.
    unfold new. rewrite (Hparams _ _ Hlt). reflexivity.
Qed.

Lemma too_few_params_witness :
  minParamCount Error436NickCollision = 3
  /\ parseParams Error436NickCollision bare_client "436"
       (Some [{| value := "me"; trailing := false |}])
     = Throw (ExpectedMoreParams "436" 3 1)
  /\ parse "436 me"
       {| channelTypes := "#&";
          getCommandClass := fun _ => Some Error436NickCollision |}
     = Throw (ExpectedMoreParams "436" 3 1).
Proof.
  pose (client := {| channelTypes := "#&";
                     getCommandClass := fun _ => Some Error436NickCollision |}).
  destruct (too_few_params Error436NickCollision client) as (Hc & Hp & Hl).
  split; [exact Hc|]. split.
  - destruct (too_few_params Error436NickCollision bare_client) as (_ & Hp' & _).
    exact (proj1 (Hp' "436" [{| value := "me"; trailing := false |}] eq_refl)).
  - refine (Hl "436 me" "436"
              {| tok_tags := None; tok_prefix := None; tok_command := Some "436";
                 tok_params := [{| value := "me"; trailing := false |}] |}
              eq_refl eq_refl eq_refl eq_refl eq_refl).
Defined.

(** ** A value that fails its validator *)

Lemma parseParams_loop_reaches (client : Client) (ps : list MessageParam)
    (before after : list (string * MessageParamSpecEntry)) (st0 st : Resolution) :
  reaches client ps before st0 = Some st ->
  parseParams_loop client ps (before ++ after)%list st0 = parseParams_loop client ps after st.
Proof.
  revert st0. induction before as [|[paramName paramSpec] more IH]; intros st0; simpl.
  - intros [= ->]. reflexivity.
  - destruct (parseParams_round client ps paramName paramSpec st0) as [[st'|st']|e];
      try discriminate.
    intros H. cbn [mbind result_bind]. apply IH. exact H.
Qed.

(** A round that raises makes [parseParams] raise, wherever in the spec
    the entry stands. *)
Lemma parseParams_round_throws (cls : MessageConstructor) (client : Client)
    (command : string) (ps : list MessageParam)
    (before after : list (string * MessageParamSpecEntry))
    (paramName : string) (paramSpec : MessageParamSpecEntry) (st : Resolution) :
  PARAM_SPEC cls = (before ++ (paramName, paramSpec) :: after)%list ->
  reaches client ps before (initial cls) = Some st ->
  threw (parseParams_round client ps paramName paramSpec st) = true ->
  threw (parseParams cls client command (Some ps)) = true.
Proof.
  intros Hspec Hreach Hround. unfold parseParams.
  destruct (minParamCount cls >? Z.of_nat (length ps)); [reflexivity|].
  rewrite Hspec. fold (initial cls).
  rewrite (parseParams_loop_reaches _ _ _ _ _ _ Hreach). simpl.
  destruct (parseParams_round client ps paramName paramSpec st); [discriminate|reflexivity].
Qed.

(** C3, as the code has it.  When the token at the index fails the
    validator of an entry that is not [rest]: an optional entry ends its
    round with the state it started from (same index, same countdown,
    nothing assigned), and a non-optional entry makes the round, and with
    it the whole of [parseParams], raise.  A non-optional [rest] entry
    whose joined value fails the validator raises in the same way. *)
Theorem failed_validation (client : Client) (ps : list MessageParam)
    (paramName : string) (paramSpec : MessageParamSpecEntry)
    (st : Resolution) (p : MessageParam) :
  ps !! res_i st = Some p ->
  (spec_rest paramSpec = false ->
   checkParam client (value p) paramSpec = false ->
   (spec_optional paramSpec = true ->
    exists flow,
      parseParams_round client ps paramName paramSpec st = Ok flow
      /\ flow_state flow = st)
   /\ (spec_optional paramSpec = false ->
       threw (parseParams_round client ps paramName paramSpec st) = true
       /\ forall cls command before after,
            PARAM_SPEC cls = (before ++ (paramName, paramSpec) :: after)%list ->
            reaches client ps before (initial cls) = Some st ->
            threw (parseParams cls client command (Some ps)) = true))
  /\ (spec_rest paramSpec = true ->
      spec_optional paramSpec = false ->
      checkParam client (JS.join " " (restParams (drop (res_i st) ps))) paramSpec = false ->
      threw (parseParams_round client ps paramName paramSpec st) = true
      /\ forall cls command before after,
           PARAM_SPEC cls = (before ++ (paramName, paramSpec) :: after)%list ->
           reaches client ps before (initial cls) = Some st ->
           threw (parseParams cls client command (Some ps)) = true).
Proof.
  intros Hp. split.
  - intros Hrest Hcheck. split.
    + intros Hopt. unfold parseParams_round. rewrite Hopt, Hrest, Hp.
      destruct (_ <=? _); cbn [andb].
      * exists (Continue st). split; reflexivity.
      * unfold accept_or_skip. rewrite Hcheck, Hopt. cbn [negb].
        exists (end_of_round paramSpec st). split; [reflexivity|].
        unfold end_of_round. destruct (spec_trailing paramSpec); reflexivity.
    + intros Hopt.
      assert (Hround : threw (parseParams_round client ps paramName paramSpec st) = true).
      { unfold parseParams_round. rewrite Hopt, Hrest, Hp. rewrite andb_false_r.
        destruct (_ && _); [reflexivity|].
        unfold accept_or_skip. rewrite Hcheck, Hopt. reflexivity. }
      split; [exact Hround|].
      intros cls command before after Hspec Hreach.
      exact (parseParams_round_throws _ _ _ _ _ _ _ _ _ Hspec Hreach Hround).
  - intros Hrest Hopt Hcheck.
    assert (Hround : threw (parseParams_round client ps paramName paramSpec st) = true).
    { unfold parseParams_round. rewrite Hopt, Hrest, Hp. rewrite andb_false_r.
      destruct (_ && _); [reflexivity|].
      destruct (restParams (drop (res_i st) ps)) eqn:Ecol; [reflexivity|].
      unfold accept_or_skip. cbn [value]. rewrite Hcheck, Hopt. reflexivity. }
    split; [exact Hround|].
    intros cls command before after Hspec Hreach.
    exact (parseParams_round_throws _ _ _ _ _ _ _ _ _ Hspec Hreach Hround).
Qed.

(** The [version] entry of [CAP] meets the token [ACK]: optional, it is
    passed over and the index stays at 1.  The [channel] entry of [INVITE]
    meets [nochannel]: required, resolution fails. *)
Lemma failed_validation_witness :
  (exists flow,
     parseParams_round bare_client
       [{| value := "*"; trailing := false |}; {| value := "ACK"; trailing := false |}]
       "version"
       {| spec_trailing := false; spec_rest := false; spec_optional := true;
          spec_type := None; spec_match := Some CapabilityNegotiation.version_match |}
       {| res_i := 1; res_requiredParamsLeft := 1; res_parsedParams := ∅ |}
     = Ok flow
     /\ flow_state flow = {| res_i := 1; res_requiredParamsLeft := 1; res_parsedParams := ∅ |})
  /\ threw (parseParams ChannelInvite bare_client "INVITE"
              (Some [{| value := "bob"; trailing := false |};
                     {| value := "nochannel"; trailing := false |}])) = true.
Proof.
  split.
  - refine (proj1 (proj1 (failed_validation bare_client
                            [{| value := "*"; trailing := false |};
                             {| value := "ACK"; trailing := false |}]
                            "version"
                            {| spec_trailing := false; spec_rest := false;
                               spec_optional := true; spec_type := None;
                               spec_match := Some CapabilityNegotiation.version_match |}
                            {| res_i := 1; res_requiredParamsLeft := 1;
                               res_parsedParams := ∅ |}
                            {| value := "ACK"; trailing := false |} eq_refl)
                      eq_refl eq_refl) eq_refl).
  - refine (proj2 (proj2 (proj1 (failed_validation bare_client
                            [{| value := "bob"; trailing := false |};
                             {| value := "nochannel"; trailing := false |}]
                            "channel"
                            {| spec_trailing := false; spec_rest := false;
                               spec_optional := false; spec_type := Some channel;
                               spec_match := None |}
                            {| res_i := 1; res_requiredParamsLeft := 1;
                               res_parsedParams :=
                                 <["target" := {| value := "bob"; trailing := false |}]> ∅ |}
                            {| value := "nochannel"; trailing := false |} eq_refl)
                      eq_refl eq_refl) eq_refl)
              ChannelInvite "INVITE" [("target", plain_entry)] [] eq_refl _).
    vm_compute. reflexivity.
Defined.

(** C3 as stated fails for [rest] entries: an optional [rest] entry whose
    single collected token fails the validator is passed over with that
    token consumed, the index having moved from 0 to 1. *)
Lemma optional_rest_keeps_tokens_consumed :
  let paramSpec :=
    {| spec_trailing := false; spec_rest := true; spec_optional := true;
       spec_type := None; spec_match := Some CapabilityNegotiation.version_match |} in
  let ps := [{| value := "abc"; trailing := false |}] in
  let st := {| res_i := 0; res_requiredParamsLeft := 0; res_parsedParams := ∅ |} in
  restParams (drop (res_i st) ps) = ["abc"]
  /\ checkParam bare_client "abc" paramSpec = false
  /\ parseParams_round bare_client ps "numbers" paramSpec st
     = Ok (Continue {| res_i := 1; res_requiredParamsLeft := 0; res_parsedParams := ∅ |})
  /\ ~ (exists flow,
          parseParams_round bare_client ps "numbers" paramSpec st = Ok flow
          /\ res_i (flow_state flow) = res_i st).
Proof.
  cbv zeta. repeat split.
  intros (flow & Hflow & Hi). vm_compute in Hflow.
  injection Hflow as <-. discriminate Hi.
Qed.

(** ** Unknown commands *)

Lemma parseParams_generic (client : Client) (command : string) (ps : list MessageParam) :
  parseParams MessageClass client command (Some ps) = Ok (Some ∅).
Proof.
  unfold parseParams. change (minParamCount MessageClass) with 0.
  destruct (0 >? Z.of_nat (length ps)) eqn:E; [|reflexivity].
  rewrite Z.gtb_ltb, Z.ltb_lt in E. lia.
Qed.

(** C8, as the code has it: a command the registry does not know never
    makes [parse] fail.  Once the line tokenizes, the message is built
    from the generic class [Message], whose parameter spec has no entry:
    nothing is resolved, nothing is validated, and the raw parameter
    tokens are kept as they came in [_params]. *)
Theorem parse_unknown_command (line command : string) (client : Client) (toks : Tokens) :
  tokenize (JS.split " " line) no_tokens = Ok toks ->
  tok_command toks = Some command ->
  JS.falsy command = false ->
  getCommandClass client command = None ->
  parse line client
  = Ok {| constructor := MessageClass; _tags := tok_tags toks; _prefix := tok_prefix toks;
          _command := command; _params := Some (tok_params toks);
          _parsedParams := Some ∅; _raw := Some line |}
  /\ PARAM_SPEC MessageClass = [].
Proof.
  intros Htok Hcmd Hne Hunknown. split; [|reflexivity].
  unfold parse. rewrite Htok. cbn [mbind result_bind].
  rewrite Hcmd, Hne, Hunknown. unfold new.
  rewrite parseParams_generic. reflexivity.
Qed.

Lemma parse_unknown_command_witness :
  parse ":irc.example.org FOO a b :c d" bare_client
  = Ok {| constructor := MessageClass; _tags := None;
          _prefix := Some {| raw := "irc.example.org"; nick := "irc.example.org";
                             user := None; host := None |};
          _command := "FOO";
          _params := Some [{| value := "a"; trailing := false |};
                           {| value := "b"; trailing := false |};
                           {| value := "c d"; trailing := true |}];
          _parsedParams := Some ∅;
          _raw := Some ":irc.example.org FOO a b :c d" |}.
Proof.
  exact (proj1 (parse_unknown_command ":irc.example.org FOO a b :c d" "FOO" bare_client
                  {| tok_tags := None;
                     tok_prefix := Some {| raw := "irc.example.org";
                                           nick := "irc.example.org";
                                           user := None; host := None |};
                     tok_command := Some "FOO";
                     tok_params := [{| value := "a"; trailing := false |};
                                    {| value := "b"; trailing := false |};
                                    {| value := "c d"; trailing := true |}] |}
                  eq_refl eq_refl eq_refl eq_refl)).
Defined.

(** C8 as stated fails: the generic descriptor has no entry, let alone a
    sole catch-all one, and the message parsed from an unknown command
    resolves no parameter. *)
Lemma generic_descriptor_has_no_entry :
  (forall paramName paramSpec, PARAM_SPEC MessageClass <> [(paramName, paramSpec)])
  /\ exists m,
       parse "FOO a b" bare_client = Ok m
       /\ constructor m = MessageClass
       /\ _parsedParams m = Some ∅
       /\ forall paramName, param m paramName = None.
Proof.
  split; [discriminate|].
  eexists. split; [reflexivity|]. repeat split.
Qed.

(** ** Reply capture *)

(** C10: on a message whose class does not support capture,
    [sendAndCaptureReply] raises at once and leaves the client as it was:
    no capture registered, no line sent.  On a class that supports it, the
    capture is registered, open and empty, after those already live, the
    line is sent, and the outcome is the handle of that capture. *)
Theorem sendAndCaptureReply_guard (this : Message) (st : ClientState) :
  (SUPPORTS_CAPTURE (constructor this) = false ->
   sendAndCaptureReply this st
   = (Throw (CaptureNotSupported (COMMAND (constructor this))), st))
  /\ (SUPPORTS_CAPTURE (constructor this) = true ->
      collectors (sendAndCaptureReply this st).2
      = (collectors st ++ [{| originating := this; accumulated := []; slot := Open |}])%list
      /\ forall line,
           toString this = Ok line ->
           sendAndCaptureReply this st
           = (Ok (length (collectors st)),
              {| collectors :=
                   (collectors st ++
                      [{| originating := this; accumulated := []; slot := Open |}])%list;
                 sentLines := (sentLines st ++ [line])%list |})).
Proof.
  unfold sendAndCaptureReply, collect, send. split; intros Hcap; rewrite Hcap; cbn [negb].
  - reflexivity.
  - split.
    + destruct (toString this); reflexivity.
    + intros line ->. reflexivity.
Qed.

Lemma sendAndCaptureReply_guard_witness :
  let quit :=
    {| constructor := ClientQuit; _tags := None; _prefix := None; _command := "QUIT";
       _params := None; _parsedParams := Some ∅; _raw := None |} in
  let cap_ls :=
    {| constructor := CapabilityNegotiation.cls; _tags := None; _prefix := None;
       _command := "CAP"; _params := None;
       _parsedParams := Some {[ "command" := {| value := "LS"; trailing := false |} ]};
       _raw := None |} in
  create ClientQuit bare_client ∅ = Ok quit
  /\ sendAndCaptureReply quit no_traffic = (Throw (CaptureNotSupported "QUIT"), no_traffic)
  /\ create CapabilityNegotiation.cls bare_client {[ "command" := "LS" ]} = Ok cap_ls
  /\ sendAndCaptureReply cap_ls no_traffic
     = (Ok 0%nat,
        {| collectors := [{| originating := cap_ls; accumulated := []; slot := Open |}];
           sentLines := ["CAP LS"] |}).
Proof.
  intros quit cap_ls. split; [reflexivity|]. split; [|split; [reflexivity|]].
  - exact (proj1 (sendAndCaptureReply_guard quit no_traffic) eq_refl).
  - exact (proj2 (proj2 (sendAndCaptureReply_guard cap_ls no_traffic) eq_refl)
             "CAP LS" eq_refl).
Defined.

(** ** Capability negotiation *)

Lemma is_ack_or_nak_iff (command : option string) :
  CapabilityNegotiation.is_ack_or_nak command = true
  <-> command = Some "ACK" \/ command = Some "NAK".
Proof.
  destruct command as [c|]; simpl.
  - rewrite orb_true_iff, !String.eqb_eq. split; intros [H|H]; try (left; congruence);
      right; congruence.
  - split; [discriminate | intros [H|H]; discriminate].
Qed.

Lemma is_ls_or_list_iff (command : option string) :
  CapabilityNegotiation.is_ls_or_list command = true
  <-> command = Some "LS" \/ command = Some "LIST".
Proof.
  destruct command as [c|]; simpl.
  - rewrite orb_true_iff, !String.eqb_eq. split; intros [H|H]; try (left; congruence);
      right; congruence.
  - split; [discriminate | intros [H|H]; discriminate].
Qed.

Lemma strict_eq_iff (a b : option string) :
  CapabilityNegotiation.strict_eq a b = true <-> a = b.
Proof. unfold CapabilityNegotiation.strict_eq. apply bool_decide_eq_true. Qed.

Lemma params_lookup (m : Message) (parsedParams : gmap string MessageParam) (k : string) :
  _parsedParams m = Some parsedParams ->
  k <> "__proto__" ->
  params m = Ok (value <$> delete "__proto__" parsedParams)
  /\ (value <$> delete "__proto__" parsedParams) !! k = param m k.
Proof.
  intros H Hk. unfold params, param. rewrite H. split; [reflexivity|].
  rewrite lookup_fmap, lookup_delete_ne by congruence. reflexivity.
Qed.

(** [isResponseTo] of [CapabilityNegotiation], read off the resolved
    parameters of two messages that have them. *)
Lemma cap_isResponseTo_params (reply orig : Message)
    (mine theirs : gmap string MessageParam) :
  _parsedParams reply = Some mine ->
  _parsedParams orig = Some theirs ->
  instanceof orig CapabilityNegotiation.cls = true ->
  CapabilityNegotiation.isResponseTo reply orig
  = if CapabilityNegotiation.is_ack_or_nak (param reply "command") then
      if CapabilityNegotiation.strict_eq (param orig "command") (Some "REQ") then
        match param reply "capabilities" with
        | Some capabilities =>
            Ok (CapabilityNegotiation.strict_eq (param orig "capabilities")
                  (Some (JS.trim capabilities)))
        | None => Throw (TypeError "Cannot read property 'trim' of undefined")
        end
      else Ok false
    else if CapabilityNegotiation.is_ls_or_list (param reply "command") then
      Ok (CapabilityNegotiation.strict_eq (param orig "command") (param reply "command"))
    else Ok false.
Proof.
  intros Hr Ho Hinst. unfold CapabilityNegotiation.isResponseTo.
  rewrite Hinst. cbn [negb].
  destruct (params_lookup reply mine "command" Hr ltac:(discriminate)) as [-> Hrc].
  destruct (params_lookup reply mine "capabilities" Hr ltac:(discriminate)) as [_ Hrcap].
  destruct (params_lookup orig theirs "command" Ho ltac:(discriminate)) as [-> Hoc].
  destruct (params_lookup orig theirs "capabilities" Ho ltac:(discriminate)) as [_ Hocap].
  cbn [mbind result_bind]. rewrite Hrc, Hrcap, Hoc, Hocap. reflexivity.
Qed.

(** Offering messages that are no response to the originating message
    leaves an open capture as it is. *)
Lemma offer_all_no_response (orig : Message) (before : list Message) :
  forall taken : list Message,
    Forall (fun m => isResponseTo m orig = Ok false) before ->
    offer_all {| originating := orig; accumulated := taken; slot := Open |} before
    = Ok {| originating := orig; accumulated := taken; slot := Open |}.
Proof.
  induction before as [|m before IH]; intros taken Hnone; [reflexivity|].
  apply Forall_cons in Hnone as [Hm Hnone].
  cbn [offer_all]. unfold offer, _acceptsInReplyCollection.
  cbn [slot originating accumulated]. rewrite Hm. cbn [mbind result_bind].
  apply IH. exact Hnone.
Qed.

(** A closed capture takes nothing more. *)
Lemma offer_all_closed (capture : PendingCapture) (after : list Message) :
  slot capture <> Open -> offer_all capture after = Ok capture.
Proof.
  intros Hclosed. induction after as [|m after IH]; [reflexivity|].
  cbn [offer_all]. unfold offer. destruct (slot capture); [contradiction| |];
    cbn [mbind result_bind]; exact IH.
Qed.

Lemma offer_all_app (capture : PendingCapture) (before after : list Message) :
  offer_all capture (before ++ after)
  = (capture' ← offer_all capture before; offer_all capture' after).
Proof.
  revert capture. induction before as [|m before IH]; intros capture; [reflexivity|].
  cbn [app offer_all]. destruct (offer capture m) as [capture'|e]; [|reflexivity].
  cbn [mbind result_bind]. apply IH.
Qed.

(** C2: between two [CAP] messages, [isResponseTo] holds exactly when the
    reply is an [ACK] or a [NAK], the originating message a [REQ], and the
    capabilities of the originating message equal those of the reply once
    the reply's are trimmed; or when the reply is an [LS] or a [LIST] and
    the originating message has the same sub-command.  An [ACK] or [NAK]
    reply always ends the exchange.  So a capture opened for a [REQ]
    completes with exactly one accumulated message: whatever inbound
    messages that are no response to the [REQ] come first, they are left
    out, the [ACK] or [NAK] with the requested capabilities is taken and
    closes the capture, and nothing that comes after is added. *)
Theorem cap_reply_matching (reply orig : Message) :
  instanceof reply CapabilityNegotiation.cls = true ->
  instanceof orig CapabilityNegotiation.cls = true ->
  (isResponseTo reply orig = Ok true
   <-> ((param reply "command" = Some "ACK" \/ param reply "command" = Some "NAK")
        /\ param orig "command" = Some "REQ"
        /\ exists capabilities,
             param reply "capabilities" = Some capabilities
             /\ param orig "capabilities" = Some (JS.trim capabilities))
       \/ ((param reply "command" = Some "LS" \/ param reply "command" = Some "LIST")
           /\ param orig "command" = param reply "command"))
  /\ (param reply "command" = Some "ACK" \/ param reply "command" = Some "NAK" ->
      endsResponseTo reply orig = Ok true
      /\ (param orig "command" = Some "REQ" ->
          (exists capabilities,
             param reply "capabilities" = Some capabilities
             /\ param orig "capabilities" = Some (JS.trim capabilities)) ->
          forall before after : list Message,
            Forall (fun m => isResponseTo m orig = Ok false) before ->
            offer_all {| originating := orig; accumulated := []; slot := Open |}
              (before ++ reply :: after)
            = Ok {| originating := orig; accumulated := [reply];
                    slot := ClosedSuccess [reply] |})).
Proof.
  intros Hreply Horig.
  assert (Hdispatch : isResponseTo reply orig = CapabilityNegotiation.isResponseTo reply orig)
    by (unfold isResponseTo; rewrite Hreply; reflexivity).
  assert (Hiff :
    isResponseTo reply orig = Ok true
    <-> ((param reply "command" = Some "ACK" \/ param reply "command" = Some "NAK")
         /\ param orig "command" = Some "REQ"
         /\ exists capabilities,
              param reply "capabilities" = Some capabilities
              /\ param orig "capabilities" = Some (JS.trim capabilities))
        \/ ((param reply "command" = Some "LS" \/ param reply "command" = Some "LIST")
            /\ param orig "command" = param reply "command")).
  {
    rewrite Hdispatch.
    destruct (_parsedParams reply) as [mine|] eqn:Er.
    + destruct (_parsedParams orig) as [theirs|] eqn:Eo.
      * rewrite (cap_isResponseTo_params _ _ _ _ Er Eo Horig).
        destruct (CapabilityNegotiation.is_ack_or_nak (param reply "command")) eqn:Eack.
        -- apply is_ack_or_nak_iff in Eack.
           destruct (CapabilityNegotiation.strict_eq (param orig "command") (Some "REQ")) eqn:Ereq.
           ++ apply strict_eq_iff in Ereq.
              destruct (param reply "capabilities") as [capabilities|] eqn:Ecap.
              ** split.
                 --- intros [= Heq]. apply strict_eq_iff in Heq. left. eauto.
                 --- intros [(_ & _ & c & [= <-] & Hc)|([H|H] & _)].
                     +++ f_equal. apply strict_eq_iff. exact Hc.
                     +++ destruct Eack; congruence.
                     +++ destruct Eack; congruence.
              ** split; [discriminate|].
                 intros [(_ & _ & c & Hc & _)|([H|H] & _)];
                   [discriminate | destruct Eack; congruence | destruct Eack; congruence].
           ++ split; [discriminate|].
              intros [(_ & Hreq & _)|([H|H] & _)].
              ** apply strict_eq_iff in Hreq. congruence.
              ** destruct Eack; congruence.
              ** destruct Eack; congruence.
        -- destruct (CapabilityNegotiation.is_ls_or_list (param reply "command")) eqn:Els.
           ++ apply is_ls_or_list_iff in Els. split.
              ** intros [= Heq]. apply strict_eq_iff in Heq. right. auto.
              ** intros [(Hack & _)|(_ & Heq)].
                 --- apply is_ack_or_nak_iff in Hack. congruence.
                 --- f_equal. apply strict_eq_iff. exact Heq.
           ++ split; [discriminate|].
              intros [(Hack & _)|(Hls & _)].
              ** apply is_ack_or_nak_iff in Hack. congruence.
              ** apply is_ls_or_list_iff in Hls. congruence.
      * assert (Hnone : forall k, param orig k = None)
          by (intros k; unfold param; rewrite Eo; reflexivity).
        unfold CapabilityNegotiation.isResponseTo. rewrite Horig. cbn [negb].
        destruct (params_lookup reply mine "command" Er ltac:(discriminate)) as [-> Hrc].
        cbn [mbind result_bind]. rewrite Hrc.
        unfold params at 1. rewrite Eo.
        split.
        -- destruct (CapabilityNegotiation.is_ack_or_nak _); [discriminate|].
           unfold params. rewrite Eo.
           destruct (CapabilityNegotiation.is_ls_or_list _); discriminate.
        -- rewrite !Hnone. intros [(_ & H & _)|([H|H] & H')]; congruence.
    + assert (Hnone : forall k, param reply k = None)
        by (intros k; unfold param; rewrite Er; reflexivity).
      unfold CapabilityNegotiation.isResponseTo, params. rewrite Horig, Er. cbn [negb].
      split; [discriminate|]. rewrite !Hnone.
      intros [([H|H] & _)|([H|H] & _)]; discriminate. }
  split; [exact Hiff|].
  intros Hack.
  assert (Hends : endsResponseTo reply orig = Ok true).
  { unfold endsResponseTo. rewrite Hreply.
    unfold CapabilityNegotiation.endsResponseTo. rewrite Horig. cbn [negb].
    destruct (_parsedParams reply) as [mine|] eqn:Er.
    - destruct (params_lookup reply mine "command" Er ltac:(discriminate)) as [-> Hrc].
      cbn [mbind result_bind]. rewrite Hrc.
      destruct (CapabilityNegotiation.is_ls_or_list (param reply "command")) eqn:Els;
        [|reflexivity].
      apply is_ls_or_list_iff in Els. destruct Hack, Els; congruence.
    - unfold param in Hack. rewrite Er in Hack. destruct Hack; discriminate. }
  split; [exact Hends|].
  intros Hreq Hcaps before after Hnone.
  assert (Haccept : isResponseTo reply orig = Ok true) by (apply Hiff; left; auto).
  rewrite offer_all_app, (offer_all_no_response orig before [] Hnone).
  cbn [mbind result_bind offer_all]. unfold offer, _acceptsInReplyCollection.
  cbn [slot originating accumulated]. rewrite Haccept. cbn [mbind result_bind].
  rewrite Hends. cbn [mbind result_bind app].
  apply offer_all_closed. discriminate.
Qed.

Lemma cap_reply_matching_witness :
  let req :=
    {| constructor := CapabilityNegotiation.cls; _tags := None; _prefix := None;
       _command := "CAP"; _params := None;
       _parsedParams :=
         Some (<["command" := {| value := "REQ"; trailing := false |}]>
                 {[ "capabilities" := {| value := "multi-prefix"; trailing := true |} ]});
       _raw := None |} in
  let ping :=
    {| constructor := MessageClass; _tags := None; _prefix := None;
       _command := "PING";
       _params := Some [{| value := "irc.example.org"; trailing := true |}];
       _parsedParams := Some ∅; _raw := Some "PING :irc.example.org" |} in
  let ack :=
    {| constructor := CapabilityNegotiation.cls; _tags := None; _prefix := None;
       _command := "CAP";
       _params := Some [{| value := "*"; trailing := false |};
                        {| value := "ACK"; trailing := false |};
                        {| value := "multi-prefix "; trailing := true |}];
       _parsedParams :=
         Some (<["target" := {| value := "*"; trailing := false |}]>
                 (<["command" := {| value := "ACK"; trailing := false |}]>
                    {[ "capabilities" := {| value := "multi-prefix "; trailing := true |} ]}));
       _raw := Some "CAP * ACK :multi-prefix " |} in
  create CapabilityNegotiation.cls sample_client
    (<["command" := "REQ"]> {[ "capabilities" := "multi-prefix" ]}) = Ok req
  /\ parse "PING :irc.example.org" sample_client = Ok ping
  /\ parse "CAP * ACK :multi-prefix " sample_client = Ok ack
  /\ isResponseTo ping req = Ok false
  /\ isResponseTo ack req = Ok true
  /\ endsResponseTo ack req = Ok true
  /\ offer_all {| originating := req; accumulated := []; slot := Open |} [ping; ack; ack]
     = Ok {| originating := req; accumulated := [ack]; slot := ClosedSuccess [ack] |}.
Proof.
  intros req ping ack.
  destruct (cap_reply_matching ack req eq_refl eq_refl) as [Hiff Hend].
  assert (Haccept : isResponseTo ack req = Ok true).
  { apply Hiff. left. split; [left; reflexivity|]. split; [reflexivity|].
    exists "multi-prefix ". split; reflexivity. }
  assert (Hping : isResponseTo ping req = Ok false) by reflexivity.
  destruct (Hend (or_introl eq_refl)) as [Hends Hcapture].
  split; [reflexivity|]. split; [reflexivity|]. split; [reflexivity|].
  split; [exact Hping|]. split; [exact Haccept|]. split; [exact Hends|].
  apply (Hcapture eq_refl
           (ex_intro _ "multi-prefix " (conj eq_refl eq_refl)) [ping] [ack]).
  constructor; [exact Hping|constructor].
Defined.

(** ** Names that plain objects inherit *)

Lemma read_ordinary (params : gmap string string) (paramName : string) :
  JS.inherited paramName = None -> read params paramName = params !! paramName.
Proof. intros H. unfold read. rewrite H. destruct (params !! paramName); reflexivity. Qed.

Lemma has_property_ordinary (parsedParams : gmap string MessageParam) (paramName : string) :
  JS.inherited paramName = None ->
  parsedParams !! "__proto__" = None ->
  has_property parsedParams paramName = negb (is_unset (parsedParams !! paramName)).
Proof.
  intros H Hproto. unfold has_property. rewrite H, Hproto. cbn [is_unset negb andb].
  rewrite !orb_false_r. reflexivity.
Qed.

Lemma render_ordinary (parsedParams : gmap string MessageParam) (paramName : string) :
  JS.inherited paramName = None ->
  parsedParams !! "__proto__" = None ->
  render parsedParams paramName
  = match parsedParams !! paramName with
    | Some param => Some ((if trailing param then ":" else EmptyString) ++ value param)
    | None => None
    end.
Proof. intros H Hproto. unfold render. rewrite H, Hproto. reflexivity. Qed.

Lemma ordinary_not_proto (paramName : string) :
  JS.inherited paramName = None -> paramName <> "__proto__".
Proof. intros H ->. discriminate H. Qed.

Lemma ordinary_names_cons (paramName : string) (paramSpec : MessageParamSpecEntry)
    (more : list (string * MessageParamSpecEntry)) :
  ordinary_names ((paramName, paramSpec) :: more) = true ->
  JS.inherited paramName = None /\ ordinary_names more = true.
Proof.
  unfold ordinary_names. cbn [forallb fst]. rewrite andb_true_iff. intros [H Hmore].
  split; [|exact Hmore]. destruct (JS.inherited paramName); [discriminate H|reflexivity].
Qed.

Lemma ordinary_names_In (entries : list (string * MessageParamSpecEntry))
    (paramName : string) (paramSpec : MessageParamSpecEntry) :
  ordinary_names entries = true ->
  In (paramName, paramSpec) entries ->
  JS.inherited paramName = None.
Proof.
  induction entries as [|[n e] more IH]; intros Hord Hin; [contradiction|].
  destruct (ordinary_names_cons _ _ _ Hord) as [Hn Hmore].
  destruct Hin as [[= <- <-]|Hin]; [exact Hn | exact (IH Hmore Hin)].
Qed.

(** For an entry with an ordinary name and an object without prototype
    of its own, the callback of [create] only sees own properties. *)
Lemma create_entry_ordinary (cls : MessageConstructor) (client : Client)
    (params : gmap string string) (parsedParams : gmap string MessageParam)
    (paramName : string) (paramSpec : MessageParamSpecEntry) :
  JS.inherited paramName = None ->
  parsedParams !! "__proto__" = None ->
  create_entry cls client params parsedParams paramName paramSpec
  = (parsedParams' ←
       match params !! paramName with
       | Some param =>
           if checkParam client param paramSpec then
             Ok (<[paramName := {| value := param; trailing := spec_trailing paramSpec |}]>
                   parsedParams)
           else if negb (spec_optional paramSpec) then
             Throw (CreateParamDidNotSuit paramName param)
           else Ok parsedParams
       | None => Ok parsedParams
       end;
     if is_unset (parsedParams' !! paramName) && negb (spec_optional paramSpec) then
       Throw (CreateParamNotFound paramName (COMMAND cls))
     else Ok parsedParams')
  /\ forall parsedParams',
       create_entry cls client params parsedParams paramName paramSpec = Ok parsedParams' ->
       parsedParams' !! "__proto__" = None.
Proof.
  intros Hname Hproto. pose proof (ordinary_not_proto _ Hname) as Hne.
  unfold create_entry. rewrite (read_ordinary _ _ Hname).
  assert (Hins : forall p : MessageParam,
            (<[paramName := p]> parsedParams) !! "__proto__" = None)
    by (intros p; rewrite lookup_insert_ne by exact Hne; exact Hproto).
  destruct (params !! paramName) as [param|]; cbn [mbind result_bind].
  - destruct (checkParam client param paramSpec); cbn [mbind result_bind].
    + rewrite (has_property_ordinary _ _ Hname (Hins _)), negb_involutive.
      split; [reflexivity|]. intros parsedParams'.
      destruct (_ && _); [discriminate|]. intros [= <-]. apply Hins.
    + destruct (negb (spec_optional paramSpec)) eqn:Eo; cbn [mbind result_bind].
      * split; [reflexivity|]. discriminate.
      * rewrite (has_property_ordinary _ _ Hname Hproto), negb_involutive.
        split; [reflexivity|]. intros parsedParams'.
        destruct (_ && _); [discriminate|]. intros [= <-]. exact Hproto.
  - rewrite (has_property_ordinary _ _ Hname Hproto), negb_involutive.
    split; [reflexivity|]. intros parsedParams'.
    destruct (_ && _); [discriminate|]. intros [= <-]. exact Hproto.
Qed.

(** ** Round trip: [create], [toString], [parse] *)

Section RoundTrip.

Variable client : Client.
Variable vals : gmap string string.

Lemma valid_and_fitting_cons (paramName : string) (paramSpec : MessageParamSpecEntry)
    (more : list (string * MessageParamSpecEntry)) :
  valid_and_fitting client ((paramName, paramSpec) :: more) vals = true ->
  vals !! paramName = Some (val_of vals paramName)
  /\ checkParam client (val_of vals paramName) paramSpec = true
  /\ fits paramSpec (val_of vals paramName) = true
  /\ valid_and_fitting client more vals = true.
Proof.
  unfold valid_and_fitting, val_of. cbn [forallb fst snd].
  destruct (vals !! paramName) as [v|]; [|discriminate].
  rewrite !andb_true_iff. intros [[Hc Hf] Hm]. auto.
Qed.

Lemma valid_set_cons (paramName : string) (paramSpec : MessageParamSpecEntry)
    (more : list (string * MessageParamSpecEntry)) :
  valid_set client ((paramName, paramSpec) :: more) vals = true ->
  match vals !! paramName with
  | Some v => checkParam client v paramSpec = true
  | None => spec_optional paramSpec = true
  end
  /\ valid_set client more vals = true.
Proof.
  unfold valid_set. cbn [forallb fst snd]. rewrite andb_true_iff. intros [H Hmore].
  split; [|exact Hmore]. destruct (vals !! paramName); exact H.
Qed.

Lemma supplied_cons (paramName : string) (paramSpec : MessageParamSpecEntry)
    (more : list (string * MessageParamSpecEntry)) :
  supplied vals ((paramName, paramSpec) :: more)
  = match vals !! paramName with
    | Some _ => (paramName, paramSpec) :: supplied vals more
    | None => supplied vals more
    end.
Proof. unfold supplied. cbn [List.filter fst]. destruct (vals !! paramName); reflexivity. Qed.

Lemma valid_and_fitting_supplied (entries : list (string * MessageParamSpecEntry)) :
  valid_set client entries vals = true ->
  fitting entries vals = true ->
  valid_and_fitting client (supplied vals entries) vals = true.
Proof.
  induction entries as [|[n e] more IH]; [reflexivity|].
  intros Hvalid Hfit. destruct (valid_set_cons _ _ _ Hvalid) as [Hn Hmore].
  unfold fitting in Hfit. cbn [forallb fst snd] in Hfit.
  apply andb_true_iff in Hfit as [Hf Hfit].
  rewrite supplied_cons. destruct (vals !! n) as [v|] eqn:Ev; [|exact (IH Hmore Hfit)].
  unfold valid_and_fitting. cbn [forallb fst snd]. rewrite Ev, Hn, Hf.
  exact (IH Hmore Hfit).
Qed.

Lemma create_loop_given (cls : MessageConstructor)
    (entries : list (string * MessageParamSpecEntry)) :
  forall parsedParams : gmap string MessageParam,
    valid_set client entries vals = true ->
    ordinary_names entries = true ->
    parsedParams !! "__proto__" = None ->
    create_loop cls client vals entries parsedParams = Ok (given vals entries parsedParams).
Proof.
  induction entries as [|[n e] more IH]; intros parsedParams Hvalid Hord Hproto;
    [reflexivity|].
  destruct (valid_set_cons _ _ _ Hvalid) as [Hn Hmore].
  destruct (ordinary_names_cons _ _ _ Hord) as [Hname Hord'].
  cbn [create_loop given].
  rewrite (proj1 (create_entry_ordinary cls client vals parsedParams n e Hname Hproto)).
  destruct (vals !! n) as [v|].
  - rewrite Hn. cbn [mbind result_bind]. rewrite lookup_insert_eq. cbn [is_unset andb].
    apply IH; [exact Hmore|exact Hord'|].
    rewrite lookup_insert_ne by exact (ordinary_not_proto _ Hname). exact Hproto.
  - cbn [mbind result_bind]. rewrite Hn, andb_false_r. apply IH; assumption.
Qed.

Lemma given_elsewhere (entries : list (string * MessageParamSpecEntry))
    (parsedParams : gmap string MessageParam) (k : string) :
  k ∉ map fst entries ->
  given vals entries parsedParams !! k = parsedParams !! k.
Proof.
  revert parsedParams.
  induction entries as [|[paramName paramSpec] more IH]; intros parsedParams Hk.
  - reflexivity.
  - cbn [map fst] in Hk. apply not_elem_of_cons in Hk as [Hne Hk].
    cbn [given]. rewrite (IH _ Hk). destruct (vals !! paramName); [|reflexivity].
    apply lookup_insert_ne. congruence.
Qed.

Lemma given_lookup (entries : list (string * MessageParamSpecEntry))
    (parsedParams : gmap string MessageParam)
    (paramName : string) (paramSpec : MessageParamSpecEntry) :
  NoDup (map fst entries) ->
  In (paramName, paramSpec) entries ->
  given vals entries parsedParams !! paramName
  = match vals !! paramName with
    | Some v => Some {| value := v; trailing := spec_trailing paramSpec |}
    | None => parsedParams !! paramName
    end.
Proof.
  revert parsedParams.
  induction entries as [|[n e] more IH]; intros parsedParams Hnd Hin; [contradiction|].
  cbn [map fst] in Hnd. apply NoDup_cons in Hnd as [Hfresh Hnd].
  cbn [given]. destruct Hin as [[= -> ->]|Hin].
  - rewrite (given_elsewhere _ _ _ Hfresh).
    destruct (vals !! paramName); [apply lookup_insert_eq|reflexivity].
  - rewrite (IH _ Hnd Hin). destruct (vals !! paramName) eqn:Ev; [reflexivity|].
    destruct (vals !! n); [|reflexivity].
    apply lookup_insert_ne. intros ->. apply Hfresh.
    apply list_elem_of_fmap. exists (paramName, paramSpec).
    split; [reflexivity|apply list_elem_of_In; exact Hin].
Qed.

(** What [toString] writes of an object that holds, of the entries,
    exactly the values given: one text per value given. *)
Lemma omap_render_created (created : gmap string MessageParam)
    (entries : list (string * MessageParamSpecEntry)) :
  created !! "__proto__" = None ->
  ordinary_names entries = true ->
  (forall paramName paramSpec,
     In (paramName, paramSpec) entries ->
     created !! paramName
     = match vals !! paramName with
       | Some v => Some {| value := v; trailing := spec_trailing paramSpec |}
       | None => None
       end) ->
  omap (render created) (map fst entries) = written vals (supplied vals entries).
Proof.
  intros Hproto. induction entries as [|[n e] more IH]; intros Hord Hall; [reflexivity|].
  destruct (ordinary_names_cons _ _ _ Hord) as [Hname Hord'].
  assert (Hmore : omap (render created) (map fst more) = written vals (supplied vals more)).
  { apply IH; [exact Hord'|]. intros paramName paramSpec Hin. apply Hall. right. exact Hin. }
  cbn [map fst omap list_omap]. fold (omap (render created) (map fst more)).
  rewrite (render_ordinary _ _ Hname Hproto), (Hall n e (or_introl eq_refl)).
  rewrite supplied_cons, Hmore.
  destruct (vals !! n) as [v|] eqn:Ev; [|reflexivity].
  assert (Hval : val_of vals n = v) by (unfold val_of; rewrite Ev; reflexivity).
  unfold written. cbn [map fst snd trailing value]. rewrite Hval. reflexivity.
Qed.

End RoundTrip.

Section Tokenizing.

Variable vals : gmap string string.

Lemma pushed_pushed (st : Tokens) (a b : list MessageParam) :
  pushed (pushed st a) b = pushed st (a ++ b)%list.
Proof. unfold pushed. cbn. rewrite app_assoc. reflexivity. Qed.

Lemma tokenize_plain (pieces tl : list string) (st : Tokens) :
  forallb (fun piece => negb (JS.first_is ":" piece)) pieces = true ->
  no_command (tok_command st) = false ->
  tokenize (pieces ++ tl)%list st = tokenize tl (pushed st (map plain_token pieces)).
Proof.
  revert st. induction pieces as [|piece pieces IH]; intros st Hpieces Hcmd.
  - unfold pushed. cbn. rewrite app_nil_r. destruct st; reflexivity.
  - cbn [forallb] in Hpieces. apply andb_true_iff in Hpieces as [Hpiece Hpieces].
    apply negb_true_iff in Hpiece.
    cbn [app tokenize]. rewrite Hcmd, Hpiece, andb_false_r.
    rewrite IH by assumption.
    change (map plain_token (piece :: pieces))
      with ([plain_token piece] ++ map plain_token pieces)%list.
    rewrite <- pushed_pushed. reflexivity.
Qed.

Lemma split_colon_head (v : string) :
  exists piece pieces, JS.split " " (String ":" v) = String ":" piece :: pieces.
Proof.
  cbn. pose proof (split_not_nil " " v) as Hne.
  destruct (JS.split " " v) as [|piece pieces]; [contradiction|]. eauto.
Qed.

Lemma tokenize_trailing (v : string) (st : Tokens) :
  no_command (tok_command st) = false ->
  tokenize (JS.split " " (String ":" v)) st
  = Ok (pushed st [{| value := v; trailing := true |}]).
Proof.
  intros Hcmd. pose proof (join_split " " (String ":" v)) as Hjoin.
  destruct (split_colon_head v) as (piece & pieces & Hsplit).
  rewrite Hsplit in Hjoin |- *.
  cbn [tokenize JS.first_is]. rewrite Hcmd, !andb_false_r.
  change (Ascii.eqb ":" "@") with false. change (Ascii.eqb ":" ":") with true.
  cbn [andb]. rewrite Hjoin. reflexivity.
Qed.

Lemma well_laid_tail (entry : string * MessageParamSpecEntry)
    (more : list (string * MessageParamSpecEntry)) :
  well_laid (entry :: more) = true -> well_laid more = true.
Proof.
  destruct entry as [n e], more as [|[n' e'] more']; [reflexivity|].
  cbn [well_laid]. rewrite !andb_true_iff. intros [_ H]. exact H.
Qed.

Lemma well_laid_trailing_last (n : string) (e : MessageParamSpecEntry)
    (more : list (string * MessageParamSpecEntry)) :
  well_laid ((n, e) :: more) = true ->
  spec_trailing e = true ->
  more = [] /\ spec_rest e = false.
Proof.
  intros Hwl Ht. destruct more as [|[n' e'] more']; cbn [well_laid] in Hwl.
  - rewrite Ht, andb_true_r in Hwl. apply negb_true_iff in Hwl. auto.
  - rewrite Ht in Hwl. discriminate.
Qed.

(** After a [rest] entry comes nothing, or the [trailing] entry alone. *)
Lemma well_laid_after_rest (n : string) (e : MessageParamSpecEntry)
    (more : list (string * MessageParamSpecEntry)) :
  well_laid ((n, e) :: more) = true ->
  spec_rest e = true ->
  spec_trailing e = false
  /\ (more = []
      \/ exists n' e', more = [(n', e')] /\ spec_trailing e' = true /\ spec_rest e' = false).
Proof.
  intros Hwl Hr. destruct more as [|[n' e'] more']; cbn [well_laid] in Hwl.
  - rewrite Hr in Hwl. cbn in Hwl. apply negb_true_iff in Hwl. auto.
  - rewrite Hr, !andb_true_iff in Hwl.
    destruct Hwl as [[Ht [[Hlast Hnext] Hnr]] _]. apply negb_true_iff in Ht.
    apply negb_true_iff in Hnr.
    split; [exact Ht|]. right. destruct more'; [|discriminate]. eauto.
Qed.

Lemma well_laid_rest_stops (n : string) (e : MessageParamSpecEntry)
    (more : list (string * MessageParamSpecEntry)) :
  well_laid ((n, e) :: more) = true ->
  spec_rest e = true ->
  spec_trailing e = false /\ restParams (tokens_of vals (supplied vals more)) = [].
Proof.
  intros Hwl Hr.
  destruct (well_laid_after_rest _ _ _ Hwl Hr) as [Ht [->|(n' & e' & -> & Ht' & Hr')]];
    (split; [exact Ht|]); [reflexivity|].
  rewrite supplied_cons. destruct (vals !! n'); [|reflexivity].
  unfold tokens_of, tokens_of_entry. cbn. rewrite Ht'. reflexivity.
Qed.

Lemma well_laid_cons (n n' : string) (e e' : MessageParamSpecEntry)
    (more : list (string * MessageParamSpecEntry)) :
  well_laid ((n, e) :: (n', e') :: more)
  = negb (spec_trailing e)
    && (if spec_rest e
        then match more with [] => true | _ :: _ => false end
             && spec_trailing e' && negb (spec_rest e')
        else true)
    && well_laid ((n', e') :: more).
Proof. reflexivity. Qed.

(** Leaving entries out of a layout that reads back gives one that reads
    back. *)
Lemma well_laid_filter (keep : string * MessageParamSpecEntry -> bool)
    (entries : list (string * MessageParamSpecEntry)) :
  well_laid entries = true -> well_laid (List.filter keep entries) = true.
Proof.
  induction entries as [|[n e] more IH]; [reflexivity|]. intros Hwl.
  pose proof (IH (well_laid_tail _ _ Hwl)) as Hmore.
  cbn [List.filter]. destruct (keep (n, e)); [|exact Hmore].
  destruct (List.filter keep more) as [|[n' e'] kept] eqn:Ekept.
  - cbn [well_laid]. destruct (spec_trailing e) eqn:Et;
      [|rewrite andb_false_r; reflexivity].
    destruct (well_laid_trailing_last _ _ _ Hwl Et) as [_ ->]. reflexivity.
  - assert (Hne : more <> []) by (intros ->; discriminate Ekept).
    assert (Ht : spec_trailing e = false).
    { destruct (spec_trailing e) eqn:Et; [|reflexivity].
      destruct (well_laid_trailing_last _ _ _ Hwl Et) as [-> _]. contradiction. }
    rewrite well_laid_cons, Ht, Hmore, andb_true_r. cbn [negb andb].
    destruct (spec_rest e) eqn:Er; [|reflexivity].
    destruct (well_laid_after_rest _ _ _ Hwl Er) as [_ [->|(n1 & e1 & -> & Ht1 & Hr1)]];
      [contradiction|].
    cbn [List.filter] in Ekept. destruct (keep (n1, e1)); [|discriminate Ekept].
    injection Ekept as <- <- <-. rewrite Ht1, Hr1. reflexivity.
Qed.

Lemma tokenize_written (entries : list (string * MessageParamSpecEntry))
    (client : Client) (st : Tokens) :
  well_laid entries = true ->
  valid_and_fitting client entries vals = true ->
  no_command (tok_command st) = false ->
  tokenize (flat_map (JS.split " ") (written vals entries)) st
  = Ok (pushed st (tokens_of vals entries)).
Proof.
  revert st. induction entries as [|[n e] more IH]; intros st Hwl Hvalid Hcmd.
  - unfold pushed. cbn. rewrite app_nil_r. destruct st; reflexivity.
  - destruct (valid_and_fitting_cons _ _ _ _ _ Hvalid) as (_ & _ & Hfits & Hmore).
    pose proof (well_laid_tail _ _ Hwl) as Hwl'.
    unfold written, tokens_of. cbn [map flat_map fst snd].
    fold (written vals more). fold (tokens_of vals more).
    unfold tokens_of_entry, fits in *. cbn [fst snd].
    destruct (spec_trailing e) eqn:Et.
    + destruct (well_laid_trailing_last _ _ _ Hwl Et) as [-> _].
      cbn [written map flat_map tokens_of]. rewrite !app_nil_r.
      apply tokenize_trailing. exact Hcmd.
    + change (EmptyString ++ val_of vals n) with (val_of vals n).
      rewrite <- pushed_pushed.
      destruct (spec_rest e) eqn:Er.
      * rewrite tokenize_plain by assumption. apply IH; assumption.
      * apply andb_true_iff in Hfits as [Hsp Hcolon].
        apply negb_true_iff in Hsp. rewrite (split_without_sep _ _ Hsp).
        rewrite (tokenize_plain [val_of vals n]); [apply IH; assumption| |exact Hcmd].
        cbn. rewrite Hcolon. reflexivity.
Qed.

End Tokenizing.

Section Resolving.

Variable client : Client.
Variable vals : gmap string string.

Lemma restParams_plain (pieces : list string) (tl : list MessageParam) :
  restParams (map plain_token pieces ++ tl)%list = (pieces ++ restParams tl)%list.
Proof.
  induction pieces as [|piece pieces IH]; [reflexivity|].
  cbn. rewrite IH. reflexivity.
Qed.

Lemma nonOptionalEntries_le (entries : list (string * MessageParamSpecEntry)) :
  (nonOptionalEntries entries <= length entries)%nat.
Proof.
  induction entries as [|[n e] more IH]; cbn; [lia|].
  destruct (spec_optional e); cbn; lia.
Qed.

Lemma tokens_of_entry_not_nil (entry : string * MessageParamSpecEntry) :
  (1 <= length (tokens_of_entry vals entry))%nat.
Proof.
  unfold tokens_of_entry. destruct (spec_trailing entry.2); [cbn; lia|].
  destruct (spec_rest entry.2); [|cbn; lia].
  pose proof (split_not_nil " " (val_of vals entry.1)).
  destruct (JS.split " " (val_of vals entry.1)); [contradiction|cbn; lia].
Qed.

Lemma tokens_of_length (entries : list (string * MessageParamSpecEntry)) :
  (length entries <= length (tokens_of vals entries))%nat.
Proof.
  induction entries as [|entry more IH]; [cbn; lia|].
  unfold tokens_of in *. cbn [flat_map]. rewrite length_app.
  pose proof (tokens_of_entry_not_nil entry). cbn [length]. lia.
Qed.

(** A valid set gives every required entry a value, so at least as many
    tokens are written as entries are required. *)
Lemma required_written (entries : list (string * MessageParamSpecEntry)) :
  valid_set client entries vals = true ->
  (nonOptionalEntries entries <= length (tokens_of vals (supplied vals entries)))%nat.
Proof.
  intros Hvalid.
  assert (Hcount : (nonOptionalEntries entries <= length (supplied vals entries))%nat).
  { induction entries as [|[n e] more IH]; [cbn; lia|].
    destruct (valid_set_cons _ _ _ _ _ Hvalid) as [Hn Hmore]. specialize (IH Hmore).
    rewrite supplied_cons. cbn [nonOptionalEntries].
    destruct (vals !! n); [destruct (spec_optional e); cbn [length]; lia|].
    rewrite Hn. exact IH. }
  pose proof (tokens_of_length (supplied vals entries)). lia.
Qed.

(** The count guard at the head of a round lets an entry through when
    more tokens are left than entries are required after it. *)
Lemma count_guard_passes (e : MessageParamSpecEntry)
    (more : list (string * MessageParamSpecEntry)) (left : Z) :
  Z.of_nat (S (nonOptionalEntries more)) <= left ->
  let required :=
    Z.of_nat (if spec_optional e then nonOptionalEntries more
              else S (nonOptionalEntries more)) in
  (left <=? required) && spec_optional e = false
  /\ (left <=? required) && negb (left =? required) = false.
Proof.
  intros Hleft required. subst required. destruct (spec_optional e).
  - assert (E : (left <=? Z.of_nat (nonOptionalEntries more)) = false)
      by (apply Z.leb_gt; lia).
    rewrite E. split; reflexivity.
  - split; [apply andb_false_r|].
    destruct (left <=? Z.of_nat (S (nonOptionalEntries more))) eqn:E; [|reflexivity].
    apply Z.leb_le in E.
    assert (E' : (left =? Z.of_nat (S (nonOptionalEntries more))) = true)
      by (apply Z.eqb_eq; lia).
    rewrite E'. reflexivity.
Qed.

Lemma parseParams_loop_given (entries : list (string * MessageParamSpecEntry)) :
  forall (before : list MessageParam) (parsedParams : gmap string MessageParam),
    well_laid entries = true ->
    valid_set client entries vals = true ->
    undisturbed client vals entries = true ->
    exists st,
      parseParams_loop client (before ++ tokens_of vals (supplied vals entries))%list entries
        {| res_i := length before;
           res_requiredParamsLeft := Z.of_nat (nonOptionalEntries entries);
           res_parsedParams := parsedParams |}
      = Ok st
      /\ res_parsedParams st = given vals entries parsedParams.
Proof.
  induction entries as [|[n e] more IH]; intros before parsedParams Hwl Hvalid Hund.
  - eexists. split; reflexivity.
  - destruct (valid_set_cons _ _ _ _ _ Hvalid) as [Hn Hmore].
    pose proof (well_laid_tail _ _ Hwl) as Hwl'.
    cbn [undisturbed] in Hund. apply andb_true_iff in Hund as [Hhere Hund'].
    pose proof (required_written more Hmore) as Hreq.
    rewrite supplied_cons. cbn [parseParams_loop nonOptionalEntries given].
    set (toks := tokens_of vals (supplied vals more)) in *.
    destruct (vals !! n) as [v|] eqn:Ev.
    + (* the entry was given a value: it takes back what was written for it *)
      assert (Hval : val_of vals n = v) by (unfold val_of; rewrite Ev; reflexivity).
      unfold tokens_of. cbn [flat_map]. fold (tokens_of vals (supplied vals more)). fold toks.
      unfold parseParams_round.
      cbn [res_i res_requiredParamsLeft res_parsedParams].
      assert (Hleft : Z.of_nat (S (nonOptionalEntries more))
                      <= Z.of_nat (length (before ++ tokens_of_entry vals (n, e) ++ toks))
                         - Z.of_nat (length before)).
      { rewrite !length_app. pose proof (tokens_of_entry_not_nil (n, e)). lia. }
      destruct (count_guard_passes e more _ Hleft) as [Hg1 Hg2].
      set (required := Z.of_nat (if spec_optional e then nonOptionalEntries more
                                 else S (nonOptionalEntries more))) in *.
      rewrite Hg1, Hg2.
      rewrite lookup_app_r by lia. rewrite Nat.sub_diag.
      rewrite drop_app_length.
      assert (Hafter : (if spec_optional e then required else required - 1)
                       = Z.of_nat (nonOptionalEntries more))
        by (subst required; destruct (spec_optional e); lia).
      destruct (spec_rest e) eqn:Er.
      * destruct (well_laid_rest_stops vals _ _ _ Hwl Er) as [Et Hstop]. fold toks in Hstop.
        unfold tokens_of_entry. cbn [fst snd]. rewrite Et, Er, Hval.
        pose proof (split_not_nil " " v) as Hne.
        pose proof (join_split " " v) as Hjoin.
        destruct (JS.split " " v) as [|piece pieces] eqn:Es; [contradiction|].
        rewrite restParams_plain, Hstop, app_nil_r.
        cbn [map app lookup list_lookup]. unfold accept_or_skip.
        cbn [value res_i res_requiredParamsLeft res_parsedParams].
        rewrite Hjoin, Hn, Er, Hafter. unfold end_of_round. rewrite Et.
        cbn [mbind result_bind].
        destruct (IH (before ++ map plain_token (piece :: pieces))%list
                    (<[n := {| value := v; trailing := false |}]> parsedParams)
                    Hwl' Hmore Hund') as (st & Hloop & Hst).
        exists st. split; [|exact Hst].
        rewrite <- Hloop. fold toks. rewrite <- app_assoc, length_app, length_map. reflexivity.
      * assert (Htok : tokens_of_entry vals (n, e)
                       = [{| value := v; trailing := spec_trailing e |}]).
        { unfold tokens_of_entry. cbn [fst snd]. rewrite Er, Hval.
          destruct (spec_trailing e); reflexivity. }
        rewrite Htok. cbn [app lookup list_lookup]. unfold accept_or_skip.
        cbn [value res_i res_requiredParamsLeft res_parsedParams].
        rewrite Hn, Er, Hafter. unfold end_of_round.
        destruct (spec_trailing e) eqn:Et; cbn [mbind result_bind].
        -- destruct (well_laid_trailing_last _ _ _ Hwl Et) as [-> _].
           eexists. split; reflexivity.
        -- destruct (IH (before ++ [{| value := v; trailing := false |}])%list
                      (<[n := {| value := v; trailing := false |}]> parsedParams)
                      Hwl' Hmore Hund') as (st & Hloop & Hst).
           exists st. split; [|exact Hst].
           rewrite <- Hloop. fold toks. rewrite <- app_assoc, length_app. cbn [length app].
           rewrite Nat.add_1_r. reflexivity.
    + (* the entry was given none: it is passed over and takes nothing *)
      cbn [is_unset negb orb] in Hhere.
      destruct (IH before parsedParams Hwl' Hmore Hund') as (st & Hloop & Hst).
      fold toks in Hloop. exists st. split; [|exact Hst]. rewrite <- Hloop.
      unfold parseParams_round. cbn [res_i res_requiredParamsLeft res_parsedParams].
      fold toks. rewrite Hn.
      assert (Hlen : Z.of_nat (length (before ++ toks)) - Z.of_nat (length before)
                     = Z.of_nat (length toks)) by (rewrite length_app; lia).
      rewrite Hlen, andb_true_r.
      destruct (Nat.leb (length toks) (nonOptionalEntries more)) eqn:Eleb.
      * apply Nat.leb_le in Eleb.
        replace (Z.of_nat (length toks) <=? Z.of_nat (nonOptionalEntries more)) with true
          by (symmetry; apply Z.leb_le; lia).
        reflexivity.
      * apply Nat.leb_gt in Eleb. cbn [orb] in Hhere. apply negb_true_iff in Hhere.
        replace (Z.of_nat (length toks) <=? Z.of_nat (nonOptionalEntries more)) with false
          by (symmetry; apply Z.leb_gt; lia).
        cbn [andb]. rewrite lookup_app_r by lia. rewrite Nat.sub_diag, drop_app_length.
        destruct toks as [|p tl] eqn:Etoks; [cbn [length] in Eleb; lia|].
        cbn [lookup list_lookup]. unfold takes in Hhere.
        destruct (spec_rest e) eqn:Er.
        -- apply negb_false_iff in Hhere. cbn [restParams]. rewrite Hhere. reflexivity.
        -- unfold accept_or_skip. rewrite Hhere, Hn. cbn [negb]. unfold end_of_round.
           destruct (spec_trailing e) eqn:Et; [|reflexivity].
           destruct (well_laid_trailing_last _ _ _ Hwl Et) as [-> _].
           subst toks. discriminate Etoks.
Qed.

End Resolving.

Lemma toUpperCase_falsy (s : string) : JS.falsy (JS.toUpperCase s) = JS.falsy s.
Proof. destruct s; reflexivity. Qed.

(** C1, as the code has it.  Take a descriptor whose command reads back as
    a command token, whose entries have distinct names, none of them that
    of a member of [Object.prototype], whose only [trailing] entry, if
    any, is the last, and whose [rest] entry, if any, is last or followed
    by the [trailing] entry alone.  Take a valid set of values: every
    value given passes its entry's validator and every entry that is not
    optional is given one; let the values be free of spaces and of a
    leading colon where the entry is neither [trailing] nor [rest], and
    without a piece that starts with a colon where it is [rest]; and let
    no entry that is given no value take, on the way back, a token
    written for a later entry.  Then [create] succeeds, [toString] gives
    a line, [parse] resolves that line against the same descriptor, and
    the resolved parameters are those of the created message: each entry
    that was given a value holds it, with the entry's [trailing] flag,
    and the others hold nothing. *)
Theorem create_toString_parse (cls : MessageConstructor) (client : Client)
    (vals : gmap string string) :
  serializable cls = true ->
  ordinary_names (PARAM_SPEC cls) = true ->
  valid_set client (PARAM_SPEC cls) vals = true ->
  fitting (PARAM_SPEC cls) vals = true ->
  undisturbed client vals (PARAM_SPEC cls) = true ->
  getCommandClass client (JS.toUpperCase (COMMAND cls)) = Some cls ->
  exists (m : Message) (line : string) (m' : Message)
         (parsedParams : gmap string MessageParam),
    create cls client vals = Ok m
    /\ toString m = Ok line
    /\ parse line client = Ok m'
    /\ constructor m' = cls
    /\ _parsedParams m = Some parsedParams
    /\ _parsedParams m' = Some parsedParams
    /\ forall paramName paramSpec,
         In (paramName, paramSpec) (PARAM_SPEC cls) ->
         parsedParams !! paramName
         = match vals !! paramName with
           | Some v => Some {| value := v; trailing := spec_trailing paramSpec |}
           | None => None
           end.
Proof.
  intros Hser Hord Hvalid Hfit Hund Hcls.
  pose proof (valid_and_fitting_supplied _ _ _ Hvalid Hfit) as Hboth.
  unfold serializable in Hser. rewrite !andb_true_iff in Hser.
  destruct Hser as [[Hcmd Hnd] Hwl]. apply bool_decide_eq_true in Hnd.
  pose proof (well_laid_filter (fun entry => negb (is_unset (vals !! entry.1))) _ Hwl)
    as Hwl_supplied. fold (supplied vals (PARAM_SPEC cls)) in Hwl_supplied.
  unfold command_token in Hcmd. rewrite !andb_true_iff, !negb_true_iff in Hcmd.
  destruct Hcmd as [[[Hne Hsp] Hat] Hcolon].
  set (created := given vals (PARAM_SPEC cls) ∅).
  assert (Hlookup : forall paramName paramSpec,
            In (paramName, paramSpec) (PARAM_SPEC cls) ->
            created !! paramName
            = match vals !! paramName with
              | Some v => Some {| value := v; trailing := spec_trailing paramSpec |}
              | None => None
              end).
  { intros paramName paramSpec Hin. unfold created.
    rewrite (given_lookup vals _ ∅ _ _ Hnd Hin). rewrite lookup_empty. reflexivity. }
  assert (Hproto : created !! "__proto__" = None).
  { unfold created. rewrite given_elsewhere; [apply lookup_empty|].
    intros Hin. apply list_elem_of_fmap in Hin as ([n e] & Hn & Hin).
    cbn [fst] in Hn. subst n. apply list_elem_of_In in Hin.
    pose proof (ordinary_names_In _ _ _ Hord Hin) as H. discriminate H. }
  set (sent := supplied vals (PARAM_SPEC cls)) in *.
  exists {| constructor := cls; _tags := None; _prefix := None; _command := COMMAND cls;
            _params := None; _parsedParams := Some created; _raw := None |}.
  exists (JS.join " " (COMMAND cls :: written vals sent)).
  destruct (parseParams_loop_given client vals (PARAM_SPEC cls) [] ∅ Hwl Hvalid Hund)
    as (st & Hloop & Hst).
  exists {| constructor := cls; _tags := None; _prefix := None;
            _command := JS.toUpperCase (COMMAND cls);
            _params := Some (tokens_of vals sent);
            _parsedParams := Some created;
            _raw := Some (JS.join " " (COMMAND cls :: written vals sent)) |}.
  exists created.
  split; [|split; [|split; [|split; [reflexivity|split; [reflexivity|split; [reflexivity|]]]]]].
  - unfold create, new. cbn [parseParams mbind result_bind].
    rewrite (create_loop_given client vals cls _ ∅ Hvalid Hord (lookup_empty _)).
    reflexivity.
  - unfold toString. cbn [constructor _parsedParams _command].
    rewrite (omap_render_created vals created _ Hproto Hord Hlookup). reflexivity.
  - unfold parse. rewrite split_join. cbn [flat_map].
    rewrite (split_without_sep _ _ Hsp). cbn [app tokenize no_tokens tok_tags tok_command
                                                tok_prefix tok_params is_unset no_command].
    rewrite Hat, Hcolon. cbn [andb].
    rewrite (tokenize_written vals _ client); [|exact Hwl_supplied|exact Hboth|].
    + cbn [mbind result_bind pushed tok_command tok_params tok_tags tok_prefix app].
      rewrite toUpperCase_falsy, Hne, Hcls. unfold new, parseParams.
      assert (Hcount : (minParamCount cls >? Z.of_nat (length (tokens_of vals sent))) = false).
      { rewrite Z.gtb_ltb. apply Z.ltb_ge. rewrite minParamCount_counts.
        pose proof (required_written client vals (PARAM_SPEC cls) Hvalid). fold sent in H.
        lia. }
      rewrite Hcount. cbn [app length] in Hloop. fold sent in Hloop.
      rewrite <- minParamCount_counts in Hloop. rewrite Hloop.
      cbn [mbind result_bind]. rewrite Hst. reflexivity.
    + cbn [tok_command no_command]. rewrite toUpperCase_falsy. exact Hne.
  - exact Hlookup.
Qed.

Lemma create_toString_parse_witness :
  let vals : gmap string string :=
    <["target" := "*"]> (<["command" := "LS"]> {[ "capabilities" := "multi-prefix sasl" ]}) in
  exists (m : Message) (line : string) (m' : Message)
         (parsedParams : gmap string MessageParam),
    create CapabilityNegotiation.cls sample_client vals = Ok m
    /\ toString m = Ok line
    /\ parse line sample_client = Ok m'
    /\ constructor m' = CapabilityNegotiation.cls
    /\ _parsedParams m = Some parsedParams
    /\ _parsedParams m' = Some parsedParams
    /\ forall paramName paramSpec,
         In (paramName, paramSpec) (PARAM_SPEC CapabilityNegotiation.cls) ->
         parsedParams !! paramName
         = match vals !! paramName with
           | Some v => Some {| value := v; trailing := spec_trailing paramSpec |}
           | None => None
           end.
Proof.
  intros vals.
  exact (create_toString_parse CapabilityNegotiation.cls sample_client vals
           eq_refl eq_refl eq_refl eq_refl eq_refl eq_refl).
Defined.

(** C1 as stated fails: the values below are all valid for [436], one
    for every entry, yet the space in [me] splits it in two on the way
    back, and every parameter comes back changed. *)
Lemma space_in_value_breaks_round_trip :
  let vals := nick_collision_values in
  fully_valid sample_client (PARAM_SPEC Error436NickCollision) vals = true
  /\ valid_set sample_client (PARAM_SPEC Error436NickCollision) vals = true
  /\ fitting (PARAM_SPEC Error436NickCollision) vals = false
  /\ exists m m',
       create Error436NickCollision sample_client vals = Ok m
       /\ toString m = Ok "436 a b n :s t"
       /\ parse "436 a b n :s t" sample_client = Ok m'
       /\ constructor m' = Error436NickCollision
       /\ param m "me" = Some "a b" /\ param m' "me" = Some "a"
       /\ param m "nick" = Some "n" /\ param m' "nick" = Some "b"
       /\ param m "suffix" = Some "s t" /\ param m' "suffix" = Some "n"
       /\ _parsedParams m' <> _parsedParams m.
Proof.
  cbv zeta. split; [reflexivity|]. split; [reflexivity|]. split; [reflexivity|].
  eexists. eexists. split; [reflexivity|]. split; [reflexivity|].
  split; [vm_compute; reflexivity|]. repeat split.
  intros H. apply (f_equal (fun o => o ≫= (fun parsedParams : gmap string MessageParam =>
                                             parsedParams !! "me"))) in H.
  vm_compute in H. discriminate H.
Qed.

(** Why the layout matters: with a [rest] entry ahead of a plain one, the
    [rest] entry takes the plain entry's token on the way back and the
    resolution fails. *)
Example rest_before_plain_does_not_read_back :
  well_laid (PARAM_SPEC RestThenPlain) = false
  /\ exists m,
       create RestThenPlain rest_then_plain_client (<["list" := "a"]> {[ "last" := "b" ]})
       = Ok m
       /\ toString m = Ok "X a b"
       /\ parse "X a b" rest_then_plain_client = Throw NotEnoughParamsLeft.
Proof. split; [reflexivity|]. eexists. repeat split. Qed.

(** Why a leading colon matters: a plain value that starts with a colon
    comes back as the trailing parameter, swallowing what follows. *)
Example leading_colon_does_not_read_back :
  exists m,
    create Error436NickCollision sample_client
      (<["me" := ":a"]> (<["nick" := "n"]> {[ "suffix" := "s" ]})) = Ok m
    /\ toString m = Ok "436 :a n :s"
    /\ parse "436 :a n :s" sample_client = Throw (ExpectedMoreParams "436" 3 1).
Proof. eexists. repeat split. Qed.

(** Why an entry left without a value matters: with [REQ] and a
    capability list but no target, the optional [target] entry takes [REQ]
    on the way back, the capability list is left for [command], and the
    resolution fails. *)
Example absent_optional_takes_next_token :
  let vals : gmap string string :=
    <["command" := "REQ"]> {[ "capabilities" := "multi-prefix" ]} in
  valid_set sample_client (PARAM_SPEC CapabilityNegotiation.cls) vals = true
  /\ fitting (PARAM_SPEC CapabilityNegotiation.cls) vals = true
  /\ undisturbed sample_client vals (PARAM_SPEC CapabilityNegotiation.cls) = false
  /\ exists m,
       create CapabilityNegotiation.cls sample_client vals = Ok m
       /\ toString m = Ok "CAP REQ :multi-prefix"
       /\ parse "CAP REQ :multi-prefix" sample_client
          = Throw (ParamDidNotSuit "command" 1 "multi-prefix").
Proof.
  cbv zeta. split; [reflexivity|]. split; [reflexivity|]. split; [reflexivity|].
  eexists. split; [reflexivity|]. split; reflexivity.
Qed.

(** Values for some of the entries only: [QUIT] without a message and
    [CAP END] meet the conditions and read back, the entries left without
    a value resolving to nothing. *)
Example subsets_read_back :
  (valid_set sample_client (PARAM_SPEC ClientQuit) ∅ = true
   /\ fitting (PARAM_SPEC ClientQuit) ∅ = true
   /\ undisturbed sample_client ∅ (PARAM_SPEC ClientQuit) = true
   /\ exists m m',
        create ClientQuit sample_client ∅ = Ok m
        /\ toString m = Ok "QUIT"
        /\ parse "QUIT" sample_client = Ok m'
        /\ constructor m' = ClientQuit
        /\ _parsedParams m = Some ∅ /\ _parsedParams m' = Some ∅)
  /\ (let vals : gmap string string := {[ "command" := "END" ]} in
      valid_set sample_client (PARAM_SPEC CapabilityNegotiation.cls) vals = true
      /\ fitting (PARAM_SPEC CapabilityNegotiation.cls) vals = true
      /\ undisturbed sample_client vals (PARAM_SPEC CapabilityNegotiation.cls) = true
      /\ exists m m',
           create CapabilityNegotiation.cls sample_client vals = Ok m
           /\ toString m = Ok "CAP END"
           /\ parse "CAP END" sample_client = Ok m'
           /\ constructor m' = CapabilityNegotiation.cls
           /\ _parsedParams m = Some {[ "command" := {| value := "END"; trailing := false |} ]}
           /\ _parsedParams m' = _parsedParams m).
Proof.
  split.
  - split; [reflexivity|]. split; [reflexivity|]. split; [reflexivity|].
    eexists. eexists. split; [reflexivity|]. split; [reflexivity|].
    split; [reflexivity|]. split; [reflexivity|]. split; reflexivity.
  - cbv zeta. split; [reflexivity|]. split; [reflexivity|]. split; [reflexivity|].
    eexists. eexists. split; [reflexivity|]. split; [reflexivity|].
    split; [reflexivity|]. split; [reflexivity|]. split; reflexivity.
Qed.

(** Why the names matter: an entry named like a member of
    [Object.prototype] is given that member by [create] when the values
    hold nothing under its name, [toString] writes the member's text, and
    what comes back is the first word of that text. *)
Example inherited_name_is_resolved :
  ordinary_names (PARAM_SPEC Inheriting) = false
  /\ valid_set inheriting_client (PARAM_SPEC Inheriting) ∅ = true
  /\ exists m m',
       create Inheriting inheriting_client ∅ = Ok m
       /\ param m "toString" = Some (JS.native "toString")
       /\ toString m = Ok ("X " ++ JS.native "toString")
       /\ parse ("X " ++ JS.native "toString") inheriting_client = Ok m'
       /\ param m' "toString" = Some "function".
Proof.
  split; [reflexivity|]. split; [reflexivity|].
  eexists. eexists. split; [reflexivity|]. split; [reflexivity|].
  split; [reflexivity|]. split; reflexivity.
Qed.

(** * Further properties *)

(** ** More on strings *)

Lemma append_cons (c : ascii) (a b : string) : String c a ++ b = String c (a ++ b).
Proof. reflexivity. Qed.

Lemma append_nil_l (b : string) : EmptyString ++ b = b.
Proof. reflexivity. Qed.

Lemma append_nil_r (s : string) : s ++ EmptyString = s.
Proof.
  induction s as [|c s IH]; [reflexivity|]. rewrite append_cons, IH. reflexivity.
Qed.

Lemma append_assoc (a b c : string) : (a ++ b) ++ c = a ++ (b ++ c).
Proof.
  induction a as [|x a IH]; [reflexivity|]. rewrite !append_cons, IH. reflexivity.
Qed.

Lemma length_append (a b : string) :
  String.length (a ++ b) = (String.length a + String.length b)%nat.
Proof.
  induction a as [|x a IH]; [reflexivity|]. rewrite append_cons. cbn. rewrite IH.
  reflexivity.
Qed.

Lemma has_char_append (c : ascii) (a b : string) :
  JS.has_char c (a ++ b) = JS.has_char c a || JS.has_char c b.
Proof.
  induction a as [|x a IH]; [reflexivity|]. rewrite append_cons. cbn.
  rewrite IH. apply orb_assoc.
Qed.

(** ** [sanitizeParameter] *)

Lemma has_char_remove_class (class : list ascii) (c : ascii) (s : string) :
  JS.has_char c (remove_class class s)
  = JS.has_char c s && negb (StringTools.in_class class c).
Proof.
  induction s as [|d s IH]; cbn; [reflexivity|].
  destruct (StringTools.in_class class d) eqn:Ed; cbn; rewrite IH.
  - destruct (Ascii.eqb d c) eqn:E; [|reflexivity].
    apply Ascii.eqb_eq in E. subst d. rewrite Ed. cbn. apply andb_false_r.
  - destruct (Ascii.eqb d c) eqn:E; [|reflexivity].
    apply Ascii.eqb_eq in E. subst d. rewrite Ed. reflexivity.
Qed.

Lemma remove_class_clean (class : list ascii) (s : string) :
  remove_class class s = s
  <-> forall c, In c class -> JS.has_char c s = false.
Proof.
  induction s as [|d s IH]; cbn.
  - split; [reflexivity|reflexivity].
  - destruct (StringTools.in_class class d) eqn:Ed.
    + split.
      * intros H. exfalso.
        assert (Hlen : (String.length (remove_class class s) <= String.length s)%nat).
        { clear. induction s as [|x s IH]; cbn; [lia|].
          destruct (StringTools.in_class class x); cbn; lia. }
        rewrite H in Hlen. cbn in Hlen. lia.
      * intros H. apply in_class_In in Ed. specialize (H d Ed).
        rewrite Ascii.eqb_refl in H. discriminate.
    + split.
      * intros [= H] c Hc. apply orb_false_iff. split.
        -- destruct (Ascii.eqb d c) eqn:E; [|reflexivity].
           apply Ascii.eqb_eq in E. subst d. apply in_class_In in Hc. congruence.
        -- apply IH; assumption.
      * intros H. f_equal. apply IH. intros c Hc.
        specialize (H c Hc). apply orb_false_iff in H. tauto.
Qed.

(** X1: a character occurs in what [sanitizeParameter] returns exactly
    when it occurs in the argument and is none of NUL, CR, LF and, unless
    spaces are allowed, the space.  The result is thus free of them. *)
Theorem sanitizeParameter_chars (param : string) (spaceAllowed : bool) (c : ascii) :
  JS.has_char c (sanitizeParameter param spaceAllowed)
  = JS.has_char c param && negb (StringTools.in_class (unsafe_chars spaceAllowed) c)
  /\ JS.has_char NUL (sanitizeParameter param spaceAllowed) = false
  /\ JS.has_char CR (sanitizeParameter param spaceAllowed) = false
  /\ JS.has_char LF (sanitizeParameter param spaceAllowed) = false
  /\ JS.has_char " " (sanitizeParameter param false) = false.
Proof.
  unfold sanitizeParameter, unsafe_chars.
  repeat split; destruct spaceAllowed; rewrite ?has_char_remove_class;
    try reflexivity; apply andb_false_r.
Qed.

(** X2: [sanitizeParameter] returns its argument unchanged exactly when
    the argument holds none of the characters it removes, and sanitizing
    twice is sanitizing once. *)
Theorem sanitizeParameter_fixpoint (param : string) (spaceAllowed : bool) :
  (sanitizeParameter param spaceAllowed = param
   <-> forall c, In c (unsafe_chars spaceAllowed) -> JS.has_char c param = false)
  /\ sanitizeParameter (sanitizeParameter param spaceAllowed) spaceAllowed
     = sanitizeParameter param spaceAllowed.
Proof.
  assert (Hfix : forall p,
            sanitizeParameter p spaceAllowed = p
            <-> forall c, In c (unsafe_chars spaceAllowed) -> JS.has_char c p = false).
  { intros p. unfold sanitizeParameter, unsafe_chars.
    destruct spaceAllowed; apply remove_class_clean. }
  split; [apply Hfix|].
  apply Hfix. intros c Hc.
  assert (Hchar : JS.has_char c (sanitizeParameter param spaceAllowed)
                  = JS.has_char c param
                    && negb (StringTools.in_class (unsafe_chars spaceAllowed) c))
    by (unfold sanitizeParameter, unsafe_chars; destruct spaceAllowed;
        apply has_char_remove_class).
  rewrite Hchar. apply in_class_In in Hc. rewrite Hc. apply andb_false_r.
Qed.

(** ** [padLeft] *)

Lemma toInt32_small (z : Z) : 0 <= z < 2 ^ 31 -> toInt32 z = z.
Proof. intros H. unfold toInt32. rewrite Z.mod_small; lia. Qed.

Lemma repeat_string_add (s : string) (a b : nat) :
  repeat_string s (a + b) = repeat_string s a ++ repeat_string s b.
Proof.
  induction a as [|a IH]; [reflexivity|].
  cbn [Nat.add repeat_string]. rewrite IH, append_assoc. reflexivity.
Qed.

Lemma repeat_string_double (s : string) (n : nat) :
  repeat_string (s ++ s) n = repeat_string s (2 * n).
Proof.
  induction n as [|n IH]; [reflexivity|].
  replace (2 * S n)%nat with (S (S (2 * n))) by lia.
  cbn [repeat_string]. rewrite IH, append_assoc. reflexivity.
Qed.

Lemma length_repeat_string (s : string) (n : nat) :
  String.length (repeat_string s n) = (n * String.length s)%nat.
Proof.
  induction n as [|n IH]; [reflexivity|].
  cbn [repeat_string]. rewrite length_append, IH. reflexivity.
Qed.

Lemma padLeft_loop_repeats (fuel : nat) :
  forall (length : Z) (padding paddingStr : string),
    0 < length < 2 ^ 31 ->
    length < 2 ^ Z.of_nat fuel ->
    padLeft_loop fuel length padding paddingStr
    = Some (paddingStr ++ repeat_string padding (Z.to_nat length)).
Proof.
  induction fuel as [|fuel IH]; intros n padding acc Hn Hfuel.
  - cbn in Hfuel. lia.
  - cbn [padLeft_loop]. rewrite toInt32_small by lia.
    assert (Hland : Z.land n 1 = n mod 2)
      by (change 1 with (Z.ones 1); rewrite Z.land_ones by lia; reflexivity).
    assert (Hshift : Z.shiftr n 1 = n / 2)
      by (rewrite Z.shiftr_div_pow2 by lia; reflexivity).
    rewrite Hland, Hshift.
    pose proof (Z.div_mod n 2 ltac:(lia)) as Hdiv.
    pose proof (Z.mod_pos_bound n 2 ltac:(lia)) as Hmod.
    destruct (n / 2 =? 0) eqn:Eq.
    + apply Z.eqb_eq in Eq. assert (Hone : n mod 2 = 1) by lia.
      rewrite Hone. cbn [Z.eqb Pos.eqb].
      replace n with 1 by lia. change (Z.to_nat 1) with 1%nat.
      cbn [repeat_string]. rewrite append_nil_r. reflexivity.
    + apply Z.eqb_neq in Eq.
      rewrite IH; [| lia |].
      * f_equal. rewrite repeat_string_double.
        destruct (n mod 2 =? 1) eqn:Eb.
        -- apply Z.eqb_eq in Eb.
           replace (Z.to_nat n) with (1 + 2 * Z.to_nat (n / 2))%nat by lia.
           rewrite repeat_string_add. cbn [repeat_string].
           rewrite append_nil_r, append_assoc. reflexivity.
        -- apply Z.eqb_neq in Eb.
           replace (Z.to_nat n) with (2 * Z.to_nat (n / 2))%nat by lia.
           reflexivity.
      * rewrite Nat2Z.inj_succ, Z.pow_succ_r in Hfuel by lia. lia.
Qed.

(** X3: [padLeft] returns [str] itself when it is already [length] long
    or longer; otherwise, the loop halving the missing length ends and the
    result is [str] preceded by as many copies of [padding] (a space when
    left out) as characters were missing, so that a one-character padding
    gives a result of exactly [length] characters. *)
Theorem padLeft_pads (fuel : nat) (str : string) (length : Z) (padding : option string) :
  (length <= Z.of_nat (String.length str) -> padLeft fuel str length padding = Some str)
  /\ (Z.of_nat (String.length str) < length ->
      length - Z.of_nat (String.length str) < 2 ^ 31 ->
      (31 <= fuel)%nat ->
      let pad := match padding with Some p => p | None => " " end in
      let result :=
        repeat_string pad (Z.to_nat (length - Z.of_nat (String.length str))) ++ str in
      padLeft fuel str length padding = Some result
      /\ (String.length pad = 1%nat -> Z.of_nat (String.length result) = length)).
Proof.
  cbv zeta. unfold padLeft. split.
  - intros H. destruct (_ <=? 0) eqn:E; [reflexivity|]. apply Z.leb_gt in E. lia.
  - intros Hlt Hmax Hfuel.
    destruct (_ <=? 0) eqn:E; [apply Z.leb_le in E; lia|]. split.
    + rewrite padLeft_loop_repeats; [reflexivity|lia|].
      assert (2 ^ 31 <= 2 ^ Z.of_nat fuel) by (apply Z.pow_le_mono_r; lia). lia.
    + intros Hone. rewrite length_append, length_repeat_string, Hone. lia.
Qed.

Lemma padLeft_pads_witness :
  padLeft 40 "7" 1 (Some "0") = Some "7"
  /\ padLeft 40 "42" 7 (Some "0") = Some "0000042"
  /\ Z.of_nat (String.length "0000042") = 7.
Proof.
  destruct (padLeft_pads 40 "7" 1 (Some "0")) as [Hkeep _].
  destruct (padLeft_pads 40 "42" 7 (Some "0")) as [_ Hpad].
  split; [apply Hkeep; cbn; lia|].
  destruct (Hpad ltac:(cbn; lia) ltac:(cbn; lia) ltac:(lia)) as [Hres Hlen].
  split; [exact Hres | exact (Hlen eq_refl)].
Defined.

(** ** [decodeCtcp] *)

Lemma drop_last_if_snoc (c : ascii) (s : string) :
  drop_last_if c (s ++ String c EmptyString) = s.
Proof.
  induction s as [|d s IH];
    [rewrite append_nil_l; cbn [drop_last_if]; rewrite Ascii.eqb_refl; reflexivity|].
  rewrite append_cons. cbn [drop_last_if]. rewrite IH.
  destruct (s ++ String c EmptyString) eqn:E; [|reflexivity].
  destruct s; discriminate E.
Qed.

Lemma unquote_first_plain (s : string) :
  JS.has_char DLE s = false -> unquote_first s = s.
Proof.
  induction s as [|c s IH]; [reflexivity|].
  cbn [JS.has_char]. intros H. apply orb_false_iff in H as [Hc Hs].
  cbn [unquote_first]. destruct s as [|d s']; [reflexivity|].
  rewrite Hc. cbn [andb]. rewrite (IH Hs). reflexivity.
Qed.

Lemma unquote_first_pair (a b : string) (d : ascii) :
  JS.has_char DLE a = false ->
  line_terminator d = false ->
  unquote_first (a ++ String DLE (String d b)) = a ++ ctcp_unquoted d ++ b.
Proof.
  intros Ha Hd. induction a as [|c a IH].
  - rewrite !append_nil_l. cbn [unquote_first]. rewrite Ascii.eqb_refl, Hd. reflexivity.
  - cbn [JS.has_char] in Ha. apply orb_false_iff in Ha as [Hc Ha].
    rewrite !append_cons. cbn [unquote_first]. rewrite Hc. cbn [andb].
    rewrite (IH Ha).
    destruct (a ++ String DLE (String d b)) eqn:E; [destruct a; discriminate E|].
    reflexivity.
Qed.

Lemma decodeCtcp_body (body : string) :
  decodeCtcp (String SOH (body ++ String SOH EmptyString))
  = match JS.split " " (unquote_first body) with
    | [] => Some {| ctcp_command := EmptyString; ctcp_message := EmptyString |}
    | command :: splitMessage =>
        Some {| ctcp_command := JS.toUpperCase command;
                ctcp_message := JS.join " " splitMessage |}
    end.
Proof.
  unfold decodeCtcp. cbn [JS.first_is JS.substr1]. rewrite Ascii.eqb_refl. cbn [negb].
  rewrite drop_last_if_snoc. reflexivity.
Qed.

(** X4: a CTCP message whose body holds no quote character decodes to
    its first word, upper-cased, as the command, and to the text after the
    first space, as it is, as the message; a body of one word gives an
    empty message. *)
Theorem decodeCtcp_plain (command text : string) :
  JS.has_char " " command = false ->
  JS.has_char DLE command = false ->
  JS.has_char DLE text = false ->
  decodeCtcp (String SOH ((command ++ String " " text) ++ String SOH EmptyString))
  = Some {| ctcp_command := JS.toUpperCase command; ctcp_message := text |}
  /\ decodeCtcp (String SOH (command ++ String SOH EmptyString))
     = Some {| ctcp_command := JS.toUpperCase command; ctcp_message := EmptyString |}.
Proof.
  intros Hsp Hcmd Htext. split.
  - rewrite decodeCtcp_body, unquote_first_plain.
    + rewrite split_app_sep, (split_without_sep _ _ Hsp). cbn [app].
      rewrite join_split. reflexivity.
    + rewrite has_char_append. cbn [JS.has_char]. rewrite Hcmd, Htext. reflexivity.
  - rewrite decodeCtcp_body, (unquote_first_plain _ Hcmd), (split_without_sep _ _ Hsp).
    reflexivity.
Qed.

Lemma decodeCtcp_plain_witness :
  decodeCtcp (String SOH ("action waves hello" ++ String SOH EmptyString))
  = Some {| ctcp_command := "ACTION"; ctcp_message := "waves hello" |}
  /\ decodeCtcp (String SOH ("version" ++ String SOH EmptyString))
     = Some {| ctcp_command := "VERSION"; ctcp_message := EmptyString |}.
Proof.
  destruct (decodeCtcp_plain "action" "waves hello" eq_refl eq_refl eq_refl) as [H1 _].
  destruct (decodeCtcp_plain "version" EmptyString eq_refl eq_refl eq_refl) as [_ H2].
  split; [exact H1 | exact H2].
Defined.

(** X5: of the quoted pairs of a CTCP body, only the first is decoded:
    the quote character and the character after it are replaced by what
    the pair stands for (nothing, for an unknown pair), and the text after
    the pair is kept as it is, further pairs included. *)
Theorem decodeCtcp_first_quote (command before after : string) (d : ascii) :
  JS.has_char " " command = false ->
  JS.has_char DLE command = false ->
  JS.has_char DLE before = false ->
  line_terminator d = false ->
  decodeCtcp
    (String SOH ((command ++ String " " (before ++ String DLE (String d after)))
                 ++ String SOH EmptyString))
  = Some {| ctcp_command := JS.toUpperCase command;
            ctcp_message := before ++ ctcp_unquoted d ++ after |}.
Proof.
  intros Hsp Hcmd Hbefore Hd. rewrite decodeCtcp_body.
  assert (Hbody : command ++ String " " (before ++ String DLE (String d after))
                  = (command ++ String " " before) ++ String DLE (String d after)).
  { rewrite append_assoc, append_cons. reflexivity. }
  rewrite Hbody, unquote_first_pair; [| |exact Hd].
  - rewrite append_assoc, append_cons, split_app_sep, (split_without_sep _ _ Hsp).
    cbn [app]. rewrite join_split. reflexivity.
  - rewrite has_char_append. cbn [JS.has_char]. rewrite Hcmd, Hbefore. reflexivity.
Qed.

Lemma decodeCtcp_first_quote_witness :
  decodeCtcp
    (String SOH (("ping" ++ String " " ("a" ++ String DLE (String "n"
                    ("b" ++ String DLE (String "n" "c")))))
                 ++ String SOH EmptyString))
  = Some {| ctcp_command := "PING";
            ctcp_message := "a" ++ String LF ("b" ++ String DLE (String "n" "c")) |}.
Proof.
  exact (decodeCtcp_first_quote "ping" "a" ("b" ++ String DLE (String "n" "c")) "n"
           eq_refl eq_refl eq_refl eq_refl).
Defined.

(** ** The tokenizer *)

Lemma split_pieces_free (sep : ascii) (s piece : string) :
  In piece (JS.split sep s) -> JS.has_char sep piece = false.
Proof.
  revert piece. induction s as [|c s IH]; intros piece; cbn [JS.split].
  - intros [<-|[]]. reflexivity.
  - destruct (Ascii.eqb c sep) eqn:E.
    + intros [<-|H]; [reflexivity|]. apply IH. exact H.
    + pose proof (split_not_nil sep s) as Hne.
      destruct (JS.split sep s) as [|p ps]; [contradiction|].
      intros [<-|H].
      * cbn [JS.has_char]. rewrite E. apply IH. left. reflexivity.
      * apply IH. right. exact H.
Qed.

Lemma upper_char_idempotent (c : ascii) : JS.upper_char (JS.upper_char c) = JS.upper_char c.
Proof. destruct c as [[] [] [] [] [] [] [] []]; reflexivity. Qed.

Lemma upper_char_space (c : ascii) : Ascii.eqb (JS.upper_char c) " " = Ascii.eqb c " ".
Proof. destruct c as [[] [] [] [] [] [] [] []]; reflexivity. Qed.

Lemma toUpperCase_idempotent (s : string) :
  JS.toUpperCase (JS.toUpperCase s) = JS.toUpperCase s.
Proof.
  induction s as [|c s IH]; [reflexivity|].
  cbn [JS.toUpperCase]. rewrite upper_char_idempotent, IH. reflexivity.
Qed.

Lemma toUpperCase_space (s : string) :
  JS.has_char " " (JS.toUpperCase s) = JS.has_char " " s.
Proof.
  induction s as [|c s IH]; [reflexivity|].
  cbn [JS.toUpperCase JS.has_char]. rewrite upper_char_space, IH. reflexivity.
Qed.

Lemma raw_stream_positional (ps : list MessageParam) :
  forallb positional ps = true -> raw_stream ps = true.
Proof.
  induction ps as [|p ps IH]; [reflexivity|].
  cbn [forallb raw_stream]. intros H. apply andb_true_iff in H as [Hp Hps].
  destruct ps; [rewrite Hp; reflexivity|]. rewrite Hp, (IH Hps). reflexivity.
Qed.

Lemma raw_stream_trailing (ps : list MessageParam) (text : string) :
  forallb positional ps = true ->
  raw_stream (ps ++ [{| value := text; trailing := true |}])%list = true.
Proof.
  induction ps as [|p ps IH]; [intros _; cbn; rewrite ?orb_true_r; reflexivity|].
  cbn [forallb]. intros H. apply andb_true_iff in H as [Hp Hps].
  pose proof (IH Hps) as Hr.
  cbn [app raw_stream]. destruct (ps ++ _)%list eqn:E; [destruct ps; discriminate E|].
  rewrite Hp. exact Hr.
Qed.

Lemma tokenize_keeps (splitLine : list string) :
  forall st st',
    (forall token, In token splitLine -> JS.has_char " " token = false) ->
    forallb positional (tok_params st) = true ->
    command_kept (tok_command st) ->
    tokenize splitLine st = Ok st' ->
    raw_stream (tok_params st') = true /\ command_kept (tok_command st').
Proof.
  induction splitLine as [|token shifted IH]; intros st st' Hfree Hps Hcmd.
  - intros [= <-]. split; [apply raw_stream_positional; exact Hps | exact Hcmd].
  - assert (Hshifted : forall t, In t shifted -> JS.has_char " " t = false)
      by (intros t Ht; apply Hfree; right; exact Ht).
    assert (Htoken : JS.has_char " " token = false) by (apply Hfree; left; reflexivity).
    cbn [tokenize].
    destruct (JS.first_is "@" token && is_unset (tok_tags st) && no_command (tok_command st)).
    + destruct (parseTags (JS.substr1 token)) as [tags|e]; [|discriminate].
      cbn [mbind result_bind]. apply IH; assumption.
    + destruct (JS.first_is ":" token) eqn:Ecolon.
      * destruct (is_unset (tok_prefix st) && no_command (tok_command st)).
        -- apply IH; assumption.
        -- intros [= <-]. cbn [tok_params tok_command].
           split; [apply raw_stream_trailing; exact Hps | exact Hcmd].
      * destruct (no_command (tok_command st)).
        -- apply IH; [exact Hshifted | exact Hps |].
           cbn [tok_command command_kept]. split.
           ++ apply toUpperCase_idempotent.
           ++ rewrite toUpperCase_space. exact Htoken.
        -- apply IH; [exact Hshifted | | exact Hcmd].
           cbn [tok_params]. rewrite forallb_app, Hps. cbn [forallb andb].
           unfold positional. cbn [trailing value]. rewrite Htoken, Ecolon. reflexivity.
Qed.

(** X6: whatever the line, a message that [parse] returns keeps the line
    as its raw line, has a non-empty command without space that
    upper-casing leaves alone, is built from the class the registry gives
    for that command (the generic one when there is none), and holds a
    raw token stream in which only the last token may be trailing and the
    others contain no space and start with no colon. *)
Theorem parse_invariants (line : string) (client : Client) (m : Message) :
  parse line client = Ok m ->
  _raw m = Some line
  /\ JS.falsy (_command m) = false
  /\ JS.toUpperCase (_command m) = _command m
  /\ JS.has_char " " (_command m) = false
  /\ constructor m = match getCommandClass client (_command m) with
                     | Some cls => cls
                     | None => MessageClass
                     end
  /\ exists ps, _params m = Some ps /\ raw_stream ps = true.
Proof.
  unfold parse. destruct (tokenize (JS.split " " line) no_tokens) as [toks|e] eqn:Etok;
    [|discriminate].
  cbn [mbind result_bind].
  destruct (tokenize_keeps _ no_tokens toks (split_pieces_free " " line) eq_refl I Etok)
    as [Hps Hcmd].
  destruct (tok_command toks) as [command|]; [|discriminate].
  destruct (JS.falsy command) eqn:Ef; [discriminate|].
  unfold new.
  destruct (parseParams _ client command (Some (tok_params toks))) as [parsed|e];
    [|discriminate].
  cbn [mbind result_bind]. intros [= <-].
  cbn [_raw _command constructor _params]. destruct Hcmd as [Hup Hsp].
  repeat split; try assumption. exists (tok_params toks). split; [reflexivity|exact Hps].
Qed.

Lemma parse_invariants_witness :
  exists ps,
    _params {| constructor := MessageClass; _tags := None; _prefix := None;
               _command := "PRIVMSG";
               _params := Some [{| value := "#rocq"; trailing := false |};
                                {| value := "hello there"; trailing := true |}];
               _parsedParams := Some ∅;
               _raw := Some "privmsg #rocq :hello there" |} = Some ps
    /\ raw_stream ps = true.
Proof.
  exact (proj2 (proj2 (proj2 (proj2 (proj2
           (parse_invariants "privmsg #rocq :hello there" bare_client _ eq_refl)))))).
Defined.

Lemma split_blank (line : string) :
  forallb (Ascii.eqb " ") (list_ascii_of_string line) = true ->
  forall token, In token (JS.split " " line) -> token = EmptyString.
Proof.
  induction line as [|c line IH]; cbn [list_ascii_of_string forallb JS.split].
  - intros _ token [<-|[]]. reflexivity.
  - intros H. apply andb_true_iff in H as [Hc Hline].
    rewrite Ascii.eqb_sym in Hc. rewrite Hc.
    intros token [<-|Hin]; [reflexivity|]. apply IH; assumption.
Qed.

Lemma tokenize_blank (splitLine : list string) :
  forall st,
    (forall token, In token splitLine -> token = EmptyString) ->
    no_command (tok_command st) = true ->
    exists st', tokenize splitLine st = Ok st' /\ no_command (tok_command st') = true.
Proof.
  induction splitLine as [|token shifted IH]; intros st Hblank Hcmd.
  - exists st. split; [reflexivity|exact Hcmd].
  - rewrite (Hblank token (or_introl eq_refl)). cbn [tokenize JS.first_is andb].
    rewrite Hcmd. apply IH; [|reflexivity].
    intros t Ht. apply Hblank. right. exact Ht.
Qed.

(** X7: a line made of spaces only, the empty line included, has no
    command: [parse] raises the line-without-command error, whatever the
    registry. *)
Theorem parse_blank_line (line : string) (client : Client) :
  forallb (Ascii.eqb " ") (list_ascii_of_string line) = true ->
  parse line client = Throw (LineWithoutCommand line).
Proof.
  intros Hblank. unfold parse.
  destruct (tokenize_blank (JS.split " " line) no_tokens (split_blank line Hblank) eq_refl)
    as (st' & -> & Hcmd).
  cbn [mbind result_bind]. destruct (tok_command st') as [command|]; [|reflexivity].
  cbn [no_command] in Hcmd. rewrite Hcmd. reflexivity.
Qed.

Lemma parse_blank_line_witness :
  parse EmptyString sample_client = Throw (LineWithoutCommand EmptyString)
  /\ parse "   " sample_client = Throw (LineWithoutCommand "   ").
Proof.
  split.
  - exact (parse_blank_line EmptyString sample_client eq_refl).
  - exact (parse_blank_line "   " sample_client eq_refl).
Defined.

Lemma tokenize_after_command (splitLine : list string) :
  forall st,
    no_command (tok_command st) = false ->
    tokenize splitLine st = Ok (pushed st (params_after_command splitLine)).
Proof.
  induction splitLine as [|token shifted IH]; intros st Hcmd.
  - unfold pushed. cbn. rewrite app_nil_r. destruct st; reflexivity.
  - cbn [tokenize params_after_command]. rewrite Hcmd, !andb_false_r.
    destruct (JS.first_is ":" token); [reflexivity|].
    change {| tok_tags := tok_tags st; tok_prefix := tok_prefix st;
              tok_command := tok_command st;
              tok_params := (tok_params st ++ [{| value := token; trailing := false |}])%list |}
      with (pushed st [{| value := token; trailing := false |}]).
    rewrite IH by exact Hcmd. rewrite pushed_pushed. reflexivity.
Qed.

(** [parse], on a line whose tokens start with a command once the tag
    block and the prefix, if any, are set. *)
Lemma parse_from_command (line : string) (client : Client)
    (token : string) (shifted : list string)
    (tags : option (gmap string string)) (prefix : option MessagePrefix) :
  command_like token = true ->
  (toks ← tokenize (token :: shifted)
            {| tok_tags := tags; tok_prefix := prefix; tok_command := None;
               tok_params := [] |};
   match tok_command toks with
   | None => Throw (LineWithoutCommand line)
   | Some command =>
       if JS.falsy command then Throw (LineWithoutCommand line)
       else
         message ← new (class_for client command) client command
                     (Some (tok_params toks)) (tok_tags toks) (tok_prefix toks);
         Ok (framed message (_tags message) (_prefix message) line)
   end)
  = (parsed ← parseParams (class_for client (JS.toUpperCase token)) client
                (JS.toUpperCase token) (Some (params_after_command shifted));
     Ok {| constructor := class_for client (JS.toUpperCase token);
           _tags := tags; _prefix := prefix; _command := JS.toUpperCase token;
           _params := Some (params_after_command shifted);
           _parsedParams := parsed; _raw := Some line |}).
Proof.
  unfold command_like. rewrite !andb_true_iff, !negb_true_iff.
  intros [[Hne Hat] Hcolon].
  cbn [tokenize tok_tags tok_command tok_prefix tok_params no_command].
  rewrite Hat, Hcolon. cbn [andb].
  rewrite tokenize_after_command
    by (cbn [tok_command no_command]; rewrite toUpperCase_falsy; exact Hne).
  cbn [mbind result_bind pushed tok_command tok_params tok_tags tok_prefix app].
  rewrite toUpperCase_falsy, Hne. unfold new.
  destruct (parseParams _ client _ _); reflexivity.
Qed.

Lemma parse_unfold (line : string) (client : Client) :
  parse line client
  = (toks ← tokenize (JS.split " " line) no_tokens;
     match tok_command toks with
     | None => Throw (LineWithoutCommand line)
     | Some command =>
         if JS.falsy command then Throw (LineWithoutCommand line)
         else
           message ← new (class_for client command) client command
                       (Some (tok_params toks)) (tok_tags toks) (tok_prefix toks);
           Ok (framed message (_tags message) (_prefix message) line)
     end).
Proof. reflexivity. Qed.

Lemma flat_map_split_plain (pieces : list string) :
  forallb (fun piece => negb (JS.has_char " " piece) && negb (JS.first_is ":" piece)) pieces
  = true ->
  flat_map (JS.split " ") pieces = pieces
  /\ params_after_command pieces = map plain_token pieces.
Proof.
  induction pieces as [|piece pieces IH]; [split; reflexivity|].
  cbn [forallb]. rewrite !andb_true_iff, !negb_true_iff. intros [[Hsp Hcolon] Hrest].
  destruct (IH Hrest) as [IH1 IH2]. split.
  - cbn [flat_map]. rewrite (split_without_sep _ _ Hsp), IH1. reflexivity.
  - cbn [params_after_command map]. rewrite Hcolon, IH2. reflexivity.
Qed.

Lemma params_after_command_trailing (pieces : list string) (text : string) :
  forallb (fun piece => negb (JS.has_char " " piece) && negb (JS.first_is ":" piece)) pieces
  = true ->
  params_after_command (pieces ++ JS.split " " (String ":" text))%list
  = (map plain_token pieces ++ [{| value := text; trailing := true |}])%list.
Proof.
  induction pieces as [|piece pieces IH].
  - intros _. cbn [app map]. pose proof (join_split " " (String ":" text)) as Hjoin.
    destruct (split_colon_head text) as (p & ps & Hsplit).
    rewrite Hsplit in Hjoin |- *. cbn [params_after_command JS.first_is].
    change (Ascii.eqb ":" ":") with true. cbv iota. rewrite Hjoin. reflexivity.
  - cbn [forallb]. rewrite !andb_true_iff, !negb_true_iff. intros [[Hsp Hcolon] Hrest].
    cbn [app params_after_command map]. rewrite Hcolon, (IH Hrest). reflexivity.
Qed.

(** The read-back of a line put together from a command, pieces and a
    trailing text, in the form the later proofs use. *)
Lemma parse_joined (client : Client) (command : string)
    (pieces : list string) (text : string) :
  command_like command = true ->
  JS.has_char " " command = false ->
  forallb (fun piece => negb (JS.has_char " " piece) && negb (JS.first_is ":" piece)) pieces
  = true ->
  let cls := class_for client (JS.toUpperCase command) in
  let line := JS.join " " (command :: pieces ++ [String ":" text]) in
  let bare := JS.join " " (command :: pieces) in
  parse line client
  = (parsed ← parseParams cls client (JS.toUpperCase command)
                (Some (map plain_token pieces ++ [{| value := text; trailing := true |}])%list);
     Ok {| constructor := cls; _tags := None; _prefix := None;
           _command := JS.toUpperCase command;
           _params := Some (map plain_token pieces
                            ++ [{| value := text; trailing := true |}])%list;
           _parsedParams := parsed; _raw := Some line |})
  /\ parse bare client
     = (parsed ← parseParams cls client (JS.toUpperCase command)
                   (Some (map plain_token pieces));
        Ok {| constructor := cls; _tags := None; _prefix := None;
              _command := JS.toUpperCase command;
              _params := Some (map plain_token pieces);
              _parsedParams := parsed; _raw := Some bare |}).
Proof.
  intros Hcmd Hsp Hpieces. cbv zeta.
  destruct (flat_map_split_plain pieces Hpieces) as [Hflat Hafter].
  split; rewrite parse_unfold, split_join; cbn [flat_map];
    rewrite (split_without_sep _ _ Hsp); cbn [app]; unfold no_tokens;
    rewrite (parse_from_command _ client command _ None None Hcmd).
  - rewrite flat_map_app, Hflat. cbn [flat_map]. rewrite app_nil_r.
    rewrite (params_after_command_trailing pieces text Hpieces). reflexivity.
  - rewrite Hflat, Hafter. reflexivity.
Qed.

(** X8: the tokenizer reads a line back as it was put together.  A line
    made of a command token, then pieces without space that start with no
    colon, then possibly a colon and any text, all joined by single
    spaces, is parsed into the upper-cased command, one positional token
    per piece (empty pieces included) and, if there is one, the text as
    the single trailing token, spaces and colons inside it kept; the class
    is the one registered for the command. *)
Theorem parse_reads_back (client : Client) (command : string)
    (pieces : list string) (text : string) :
  command_like command = true ->
  JS.has_char " " command = false ->
  forallb (fun piece => negb (JS.has_char " " piece) && negb (JS.first_is ":" piece)) pieces
  = true ->
  let cls := class_for client (JS.toUpperCase command) in
  let line := JS.join " " (command :: pieces ++ [String ":" text]) in
  let bare := JS.join " " (command :: pieces) in
  parse line client
  = (parsed ← parseParams cls client (JS.toUpperCase command)
                (Some (map plain_token pieces ++ [{| value := text; trailing := true |}])%list);
     Ok {| constructor := cls; _tags := None; _prefix := None;
           _command := JS.toUpperCase command;
           _params := Some (map plain_token pieces
                            ++ [{| value := text; trailing := true |}])%list;
           _parsedParams := parsed; _raw := Some line |})
  /\ parse bare client
     = (parsed ← parseParams cls client (JS.toUpperCase command)
                   (Some (map plain_token pieces));
        Ok {| constructor := cls; _tags := None; _prefix := None;
              _command := JS.toUpperCase command;
              _params := Some (map plain_token pieces);
              _parsedParams := parsed; _raw := Some bare |}).
Proof.
  intros Hcmd Hsp Hpieces. cbv zeta.
  destruct (flat_map_split_plain pieces Hpieces) as [Hflat Hafter].
  split; rewrite parse_unfold, split_join; cbn [flat_map];
    rewrite (split_without_sep _ _ Hsp); cbn [app]; unfold no_tokens;
    rewrite (parse_from_command _ client command _ None None Hcmd).
  - rewrite flat_map_app, Hflat. cbn [flat_map]. rewrite app_nil_r.
    rewrite (params_after_command_trailing pieces text Hpieces). reflexivity.
  - rewrite Hflat, Hafter. reflexivity.
Qed.

Lemma parse_reads_back_witness :
  parse "privmsg #rocq  :hello :there" bare_client
  = Ok {| constructor := MessageClass; _tags := None; _prefix := None;
          _command := "PRIVMSG";
          _params := Some [{| value := "#rocq"; trailing := false |};
                           {| value := EmptyString; trailing := false |};
                           {| value := "hello :there"; trailing := true |}];
          _parsedParams := Some ∅; _raw := Some "privmsg #rocq  :hello :there" |}.
Proof.
  exact (proj1 (parse_reads_back bare_client "privmsg" ["#rocq"; EmptyString] "hello :there"
                  eq_refl eq_refl eq_refl)).
Defined.

(** X9: a tag block and a prefix in front of a line that starts with a
    command change nothing to how the rest is read: the result, message
    or error, is that of the line alone, with the decoded tags and the
    parsed prefix set. *)
Theorem parse_tags_and_prefix (client : Client) (line tagBlock prefixText : string)
    (tags : gmap string string) :
  starts_with_command line = true ->
  JS.has_char " " prefixText = false ->
  JS.has_char " " tagBlock = false ->
  parseTags tagBlock = Ok tags ->
  let with_prefix := String ":" prefixText ++ String " " line in
  let with_tags := String "@" tagBlock ++ String " " line in
  let with_both := String "@" tagBlock ++ String " " with_prefix in
  parse with_prefix client
  = (m ← parse line client;
     Ok (framed m None (Some (parsePrefix prefixText)) with_prefix))
  /\ parse with_tags client
     = (m ← parse line client; Ok (framed m (Some tags) None with_tags))
  /\ parse with_both client
     = (m ← parse line client;
        Ok (framed m (Some tags) (Some (parsePrefix prefixText)) with_both)).
Proof.
  intros Hstart Hp Ht Htags. cbv zeta. unfold starts_with_command in Hstart.
  assert (Hline : forall tgs pfx (text : string),
            (toks ← tokenize (JS.split " " line)
                      {| tok_tags := tgs; tok_prefix := pfx; tok_command := None;
                         tok_params := [] |};
             match tok_command toks with
             | None => Throw (LineWithoutCommand text)
             | Some command =>
                 if JS.falsy command then Throw (LineWithoutCommand text)
                 else
                   message ← new (class_for client command) client command
                               (Some (tok_params toks)) (tok_tags toks) (tok_prefix toks);
                   Ok (framed message (_tags message) (_prefix message) text)
             end)
            = (m ← parse line client; Ok (framed m tgs pfx text))).
  { intros tgs pfx text. rewrite parse_unfold. unfold no_tokens.
    destruct (JS.split " " line) as [|token shifted]; [discriminate|].
    rewrite !(parse_from_command _ client token shifted _ _ Hstart).
    destruct (parseParams _ client _ _); reflexivity. }
  assert (Hsplit_p : JS.split " " (String ":" prefixText) = [String ":" prefixText])
    by (apply split_without_sep; exact Hp).
  assert (Hsplit_t : JS.split " " (String "@" tagBlock) = [String "@" tagBlock])
    by (apply split_without_sep; exact Ht).
  split; [|split].
  - rewrite parse_unfold, split_app_sep, Hsplit_p.
    cbn [app tokenize no_tokens JS.first_is JS.substr1 tok_tags tok_prefix tok_command
             tok_params is_unset no_command andb].
    change (Ascii.eqb ":" "@") with false. change (Ascii.eqb ":" ":") with true.
    cbn [andb]. apply Hline.
  - rewrite parse_unfold, split_app_sep, Hsplit_t.
    cbn [app tokenize no_tokens JS.first_is JS.substr1 tok_tags tok_prefix tok_command
             tok_params is_unset no_command andb].
    rewrite Ascii.eqb_refl. cbn [andb]. rewrite Htags. cbn [mbind result_bind].
    apply Hline.
  - rewrite parse_unfold, split_app_sep, Hsplit_t, split_app_sep, Hsplit_p.
    cbn [app tokenize no_tokens JS.first_is JS.substr1 tok_tags tok_prefix tok_command
             tok_params is_unset no_command andb].
    rewrite Ascii.eqb_refl. cbn [andb]. rewrite Htags. cbn [mbind result_bind].
    cbn [tokenize JS.first_is JS.substr1 tok_tags tok_prefix tok_command
             tok_params is_unset no_command andb].
    change (Ascii.eqb ":" "@") with false. change (Ascii.eqb ":" ":") with true.
    cbn [andb]. apply Hline.
Qed.

Lemma parse_tags_and_prefix_witness :
  parse "@account=bob :nick!user@host PING :irc.example.org" bare_client
  = Ok {| constructor := MessageClass;
          _tags := Some (<["account" := "bob"]> ∅);
          _prefix := Some {| raw := "nick!user@host"; nick := "nick";
                             user := Some "user"; host := Some "host" |};
          _command := "PING";
          _params := Some [{| value := "irc.example.org"; trailing := true |}];
          _parsedParams := Some ∅;
          _raw := Some "@account=bob :nick!user@host PING :irc.example.org" |}.
Proof.
  exact (proj2 (proj2 (parse_tags_and_prefix bare_client "PING :irc.example.org"
                         "account=bob" "nick!user@host" (<["account" := "bob"]> ∅)
                         eq_refl eq_refl eq_refl eq_refl))).
Defined.

(** ** Tags *)

Lemma flat_map_split_free (sep : ascii) (pieces : list string) :
  forallb (fun piece => negb (JS.has_char sep piece)) pieces = true ->
  flat_map (JS.split sep) pieces = pieces.
Proof.
  induction pieces as [|piece pieces IH]; [reflexivity|].
  cbn [forallb flat_map]. rewrite andb_true_iff, negb_true_iff. intros [Hp Hrest].
  rewrite (split_without_sep _ _ Hp), (IH Hrest). reflexivity.
Qed.

Lemma parseTag_pair (tags : gmap string string) (k v : string) :
  JS.has_char "=" k = false ->
  parseTag tags (k ++ String "=" v) = Ok (<[k := unescapeTagValue (kept_value v)]> tags).
Proof.
  intros Hk. unfold parseTag, JS.split_limit, kept_value.
  rewrite split_app_sep, (split_without_sep _ _ Hk).
  pose proof (split_not_nil "=" v) as Hne.
  destruct (JS.split "=" v) as [|piece pieces]; [contradiction|]. reflexivity.
Qed.

Lemma parseTags_loop_pairs (kvs : list (string * string)) :
  forall tags,
    forallb (fun kv => negb (JS.has_char "=" kv.1)) kvs = true ->
    parseTags_loop (map tag_text kvs) tags
    = Ok (foldl (fun tags kv => <[kv.1 := unescapeTagValue (kept_value kv.2)]> tags) tags kvs).
Proof.
  induction kvs as [|[k v] kvs IH]; intros tags; [reflexivity|].
  cbn [forallb fst]. rewrite andb_true_iff, negb_true_iff. intros [Hk Hrest].
  cbn [map parseTags_loop]. change (tag_text (k, v)) with (k ++ String "=" v).
  rewrite (parseTag_pair _ _ _ Hk). cbn [mbind result_bind foldl fst snd].
  apply IH. exact Hrest.
Qed.

Lemma foldl_insert_elsewhere (kvs : list (string * string)) (k : string) :
  forall tags : gmap string string,
    k ∉ map fst kvs ->
    foldl (fun tags kv => <[kv.1 := unescapeTagValue (kept_value kv.2)]> tags) tags kvs !! k
    = tags !! k.
Proof.
  induction kvs as [|[k' v'] kvs IH]; intros tags Hk; [reflexivity|].
  cbn [map fst] in Hk. apply not_elem_of_cons in Hk as [Hne Hk].
  cbn [foldl fst snd]. rewrite (IH _ Hk). apply lookup_insert_ne. congruence.
Qed.

(** X10: a tag block of [key=value] tags joined by semicolons, with keys
    free of [;] and [=] and values free of [;], decodes: each tag sets its
    key, in order, to its unescaped value, so that the last tag of a key
    decides; of a value holding a [=], what stands before that [=] is
    kept. *)
Theorem parseTags_pairs (kvs : list (string * string)) :
  kvs <> [] ->
  forallb (fun kv => negb (JS.has_char ";" kv.1) && negb (JS.has_char "=" kv.1)
                     && negb (JS.has_char ";" kv.2)) kvs = true ->
  parseTags (JS.join ";" (map tag_text kvs)) = Ok (tags_of kvs)
  /\ (forall before after k v,
        kvs = (before ++ (k, v) :: after)%list ->
        k ∉ map fst after ->
        tags_of kvs !! k = Some (unescapeTagValue (kept_value v)))
  /\ (forall v, JS.has_char "=" v = false -> kept_value v = v).
Proof.
  intros Hne Hall. split; [|split].
  - unfold parseTags.
    assert (Hfree : forallb (fun piece => negb (JS.has_char ";" piece)) (map tag_text kvs)
                    = true).
    { clear Hne. induction kvs as [|[k v] kvs IH]; [reflexivity|].
      cbn [forallb fst snd map] in *. rewrite !andb_true_iff, !negb_true_iff in Hall.
      destruct Hall as [[[Hk _] Hv] Hrest]. rewrite (IH Hrest), andb_true_r.
      unfold tag_text. cbn [fst snd]. rewrite has_char_append. cbn [JS.has_char].
      rewrite Hk, Hv. reflexivity. }
    destruct kvs as [|kv kvs]; [contradiction|].
    change (map tag_text (kv :: kvs)) with (tag_text kv :: map tag_text kvs) in *.
    rewrite split_join, (flat_map_split_free _ _ Hfree).
    change (tag_text kv :: map tag_text kvs) with (map tag_text (kv :: kvs)).
    apply parseTags_loop_pairs.
    clear - Hall. induction (kv :: kvs) as [|[k v] l IH]; [reflexivity|].
    cbn [forallb fst snd] in *. rewrite !andb_true_iff, !negb_true_iff in Hall.
    destruct Hall as [[[_ Hk] _] Hrest]. rewrite Hk, (IH Hrest). reflexivity.
  - intros before after k v -> Hk. unfold tags_of.
    rewrite foldl_app. cbn [foldl fst snd].
    rewrite (foldl_insert_elsewhere _ _ _ Hk). apply lookup_insert_eq.
  - intros v Hv. unfold kept_value. rewrite (split_without_sep _ _ Hv). reflexivity.
Qed.

Lemma parseTags_pairs_witness :
  parseTags "account=bob;time=12\:30;account=al=ice"
  = Ok (tags_of [("account", "bob"); ("time", "12\:30"); ("account", "al=ice")])
  /\ tags_of [("account", "bob"); ("time", "12\:30"); ("account", "al=ice")] !! "account"
     = Some "al"
  /\ tags_of [("account", "bob"); ("time", "12\:30"); ("account", "al=ice")] !! "time"
     = Some "12;30".
Proof.
  destruct (parseTags_pairs [("account", "bob"); ("time", "12\:30"); ("account", "al=ice")]
              ltac:(discriminate) eq_refl) as (Hparse & Hlast & _).
  split; [exact Hparse|]. split.
  - refine (Hlast [("account", "bob"); ("time", "12\:30")] [] "account" "al=ice" eq_refl _).
    apply not_elem_of_nil.
  - refine (Hlast [("account", "bob")] [("account", "al=ice")] "time" "12\:30" eq_refl _).
    cbn. intros H. apply list_elem_of_singleton in H. discriminate H.
Defined.

Lemma replace_pairs_shrinks (match_at : ascii -> ascii -> option ascii) (s : string) :
  (String.length (JS.replace_pairs match_at s) <= String.length s)%nat
  /\ forall c, (String.length (JS.replace_pairs match_at (String c s))
                <= S (String.length s))%nat.
Proof.
  induction s as [|d s [IH1 IH2]].
  - split; [cbn; lia | intros c; cbn; lia].
  - split; [apply IH2|]. intros c.
    change (JS.replace_pairs match_at (String c (String d s)))
      with (match match_at c d with
            | Some r => String r (JS.replace_pairs match_at s)
            | None => String c (JS.replace_pairs match_at (String d s))
            end).
    pose proof (IH2 d) as Hd.
    destruct (match_at c d); cbn [String.length]; lia.
Qed.

Lemma unescapeTagValue_plain (s : string) :
  JS.has_char "\" s = false -> unescapeTagValue s = s.
Proof.
  unfold unescapeTagValue. induction s as [|c s IH]; [reflexivity|].
  cbn [JS.has_char]. intros H. apply orb_false_iff in H as [Hc Hs].
  cbn [JS.replace_pairs]. destruct s as [|d s']; [reflexivity|].
  unfold tag_escape_at at 1. rewrite Hc. rewrite (IH Hs). reflexivity.
Qed.

(** X11: unescaping a tag value never makes it longer, and leaves a value
    without backslash as it is. *)
Theorem unescapeTagValue_shrinks (tagValue : string) :
  (String.length (unescapeTagValue tagValue) <= String.length tagValue)%nat
  /\ (JS.has_char "\" tagValue = false -> unescapeTagValue tagValue = tagValue).
Proof.
  split.
  - apply replace_pairs_shrinks.
  - apply unescapeTagValue_plain.
Qed.

Lemma unescapeTagValue_shrinks_witness : unescapeTagValue "2026-11-02" = "2026-11-02".
Proof. exact (proj2 (unescapeTagValue_shrinks "2026-11-02") eq_refl). Defined.

(** ** Prefixes, whatever the text *)

Lemma split_pieces_keep_free (sep c : ascii) (s piece : string) :
  JS.has_char c s = false ->
  In piece (JS.split sep s) -> JS.has_char c piece = false.
Proof.
  revert piece. induction s as [|d s IH]; intros piece Hs; cbn [JS.split].
  - intros [<-|[]]. reflexivity.
  - cbn [JS.has_char] in Hs. apply orb_false_iff in Hs as [Hd Hs].
    destruct (Ascii.eqb d sep).
    + intros [<-|H]; [reflexivity|]. apply IH; assumption.
    + pose proof (split_not_nil sep s) as Hne.
      destruct (JS.split sep s) as [|p ps]; [contradiction|].
      intros [<-|H].
      * cbn [JS.has_char]. rewrite Hd. apply IH; [exact Hs|left; reflexivity].
      * apply IH; [exact Hs|right; exact H].
Qed.

Lemma split_head_prefix (sep : ascii) (s : string) :
  exists piece pieces rest, JS.split sep s = piece :: pieces /\ s = piece ++ rest.
Proof.
  induction s as [|d s (piece & pieces & rest & Hsplit & Hs)].
  - exists EmptyString, [], EmptyString. split; reflexivity.
  - cbn [JS.split]. destruct (Ascii.eqb d sep).
    + exists EmptyString, (JS.split sep s), (String d s). split; reflexivity.
    + rewrite Hsplit. exists (String d piece), pieces, rest.
      split; [reflexivity|]. rewrite append_cons, <- Hs. reflexivity.
Qed.

Ltac prefix_case :=
  cbn [raw nick user host];
  repeat match goal with
         | |- _ /\ _ => split
         | |- forall _, Some _ = Some _ -> _ => intros ? [= <-]
         | |- forall _, None = Some _ -> _ => intros ? [=]
         | |- exists _, Some _ = Some _ /\ _ => eexists; split; [reflexivity|]
         end;
  try reflexivity; try assumption.

(** X12: for every text, the prefix [parsePrefix] returns keeps the text
    as [raw]; its nick is a leading part of the text and holds no [!];
    user and host hold neither [!] nor [@]; and a user never comes without
    a non-empty host. *)
Theorem parsePrefix_invariants (text : string) :
  raw (parsePrefix text) = text
  /\ JS.has_char "!" (nick (parsePrefix text)) = false
  /\ (exists rest, text = nick (parsePrefix text) ++ rest)
  /\ (forall u, user (parsePrefix text) = Some u ->
        JS.has_char "!" u = false /\ JS.has_char "@" u = false
        /\ exists h, host (parsePrefix text) = Some h /\ JS.falsy h = false)
  /\ (forall h, host (parsePrefix text) = Some h ->
        JS.has_char "!" h = false /\ JS.has_char "@" h = false).
Proof.
  pose proof (split_pieces_free "!" text) as Hbang.
  destruct (split_head_prefix "!" text) as (n & pieces & rest & Hsplit & Htext).
  unfold parsePrefix, JS.split_limit. rewrite Hsplit in *.
  assert (Hn : JS.has_char "!" n = false) by (apply Hbang; left; reflexivity).
  assert (Hrest : exists rest', text = n ++ rest') by eauto.
  destruct pieces as [|hostName pieces]; cbn [take]; [prefix_case|].
  assert (Hh : JS.has_char "!" hostName = false)
    by (apply Hbang; right; left; reflexivity).
  pose proof (split_pieces_free "@" hostName) as Hat.
  pose proof (fun piece => split_pieces_keep_free "@" "!" hostName piece Hh) as Hkeep.
  destruct (JS.falsy hostName) eqn:Ef; [prefix_case|].
  destruct (JS.split "@" hostName) as [|u [|h more]] eqn:Esplit; cbn [take];
    [prefix_case| |].
  - pose proof (Hkeep u (or_introl eq_refl)). pose proof (Hat u (or_introl eq_refl)).
    prefix_case.
  - pose proof (Hkeep u (or_introl eq_refl)). pose proof (Hat u (or_introl eq_refl)).
    pose proof (Hkeep h (or_intror (or_introl eq_refl))).
    pose proof (Hat h (or_intror (or_introl eq_refl))).
    destruct (JS.falsy h) eqn:Efh; prefix_case.
Qed.

(** ** [create] *)

Lemma create_entry_cases (cls : MessageConstructor) (client : Client)
    (vals : gmap string string) (acc : gmap string MessageParam)
    (n : string) (e : MessageParamSpecEntry) :
  JS.inherited n = None ->
  acc !! "__proto__" = None ->
  create_entry cls client vals acc n e
  = match vals !! n with
    | Some v =>
        if checkParam client v e
        then Ok (<[n := {| value := v; trailing := spec_trailing e |}]> acc)
        else if spec_optional e then Ok acc
             else Throw (CreateParamDidNotSuit n v)
    | None =>
        if spec_optional e then Ok acc
        else match acc !! n with
             | Some _ => Ok acc
             | None => Throw (CreateParamNotFound n (COMMAND cls))
             end
    end.
Proof.
  intros Hname Hproto.
  rewrite (proj1 (create_entry_ordinary cls client vals acc n e Hname Hproto)).
  destruct (vals !! n) as [v|].
  - destruct (checkParam client v e).
    + cbn [mbind result_bind]. rewrite lookup_insert_eq. reflexivity.
    + destruct (spec_optional e); [|reflexivity].
      cbn [negb mbind result_bind]. rewrite andb_false_r. reflexivity.
  - cbn [mbind result_bind]. destruct (spec_optional e); cbn [negb].
    + rewrite andb_false_r. reflexivity.
    + destruct (acc !! n); reflexivity.
Qed.

Lemma create_loop_succeeds (cls : MessageConstructor) (client : Client)
    (vals : gmap string string) (entries : list (string * MessageParamSpecEntry)) :
  forall parsedParams : gmap string MessageParam,
    ordinary_names entries = true ->
    parsedParams !! "__proto__" = None ->
    (forall k, is_Some (parsedParams !! k) -> is_Some (vals !! k)) ->
    threw (create_loop cls client vals entries parsedParams) = false
    <-> forall paramName paramSpec,
          In (paramName, paramSpec) entries ->
          spec_optional paramSpec = false ->
          exists v, vals !! paramName = Some v /\ checkParam client v paramSpec = true.
Proof.
  induction entries as [|[n e] more IH]; intros acc Hord Hproto Hacc.
  - split; [intros _ ? ? []|reflexivity].
  - destruct (ordinary_names_cons _ _ _ Hord) as [Hname Hord'].
    cbn [create_loop]. rewrite (create_entry_cases _ _ _ _ _ _ Hname Hproto).
    destruct (vals !! n) as [v|] eqn:Ev.
    + destruct (checkParam client v e) eqn:Ec.
      * assert (Hproto' : (<[n := {| value := v; trailing := spec_trailing e |}]> acc)
                          !! "__proto__" = None)
          by (rewrite lookup_insert_ne by exact (ordinary_not_proto _ Hname); exact Hproto).
        assert (Hacc' : forall k,
                  is_Some ((<[n := {| value := v; trailing := spec_trailing e |}]> acc) !! k)
                  -> is_Some (vals !! k)).
        { intros k Hk. destruct (decide (n = k)) as [<-|Hne].
          - rewrite Ev. eauto.
          - rewrite lookup_insert_ne in Hk by exact Hne. apply Hacc. exact Hk. }
        cbn [mbind result_bind]. rewrite (IH _ Hord' Hproto' Hacc'). split.
        -- intros H paramName paramSpec [[= <- <-]|Hin] Hopt; [eauto|].
           apply H; assumption.
        -- intros H paramName paramSpec Hin. apply H. right. exact Hin.
      * destruct (spec_optional e) eqn:Eo; cbn [mbind result_bind].
        -- rewrite (IH _ Hord' Hproto Hacc). split.
           ++ intros H paramName paramSpec [[= <- <-]|Hin] Hopt; [congruence|].
              apply H; assumption.
           ++ intros H paramName paramSpec Hin. apply H. right. exact Hin.
        -- split; [discriminate|]. intros H.
           destruct (H n e (or_introl eq_refl) Eo) as (v' & Hv' & Hc). congruence.
    + assert (Hfree : acc !! n = None).
      { destruct (acc !! n) eqn:E; [|reflexivity].
        destruct (Hacc n ltac:(rewrite E; eauto)) as [v Hv]. congruence. }
      rewrite Hfree.
      destruct (spec_optional e) eqn:Eo; cbn [mbind result_bind].
      * rewrite (IH _ Hord' Hproto Hacc). split.
        -- intros H paramName paramSpec [[= <- <-]|Hin] Hopt; [congruence|].
           apply H; assumption.
        -- intros H paramName paramSpec Hin. apply H. right. exact Hin.
      * split; [discriminate|]. intros H.
        destruct (H n e (or_introl eq_refl) Eo) as (v' & Hv' & Hc). congruence.
Qed.

(** X13: for a parameter spec none of whose entries is named like a
    member of [Object.prototype], [create] succeeds exactly when every
    non-optional entry is given a value that passes the entry's
    validator; values for optional entries, and names outside the spec,
    never make it fail. *)
Theorem create_succeeds_iff (cls : MessageConstructor) (client : Client)
    (vals : gmap string string) :
  ordinary_names (PARAM_SPEC cls) = true ->
  (threw (create cls client vals) = false
   <-> forall paramName paramSpec,
         In (paramName, paramSpec) (PARAM_SPEC cls) ->
         spec_optional paramSpec = false ->
         exists v, vals !! paramName = Some v /\ checkParam client v paramSpec = true).
Proof.
  intros Hord.
  rewrite <- (create_loop_succeeds cls client vals (PARAM_SPEC cls) ∅ Hord (lookup_empty _)).
  - unfold create, new. cbn [parseParams mbind result_bind].
    destruct (create_loop cls client vals (PARAM_SPEC cls) ∅); reflexivity.
  - intros k [p Hp]. rewrite lookup_empty in Hp. discriminate.
Qed.

Lemma create_succeeds_iff_witness :
  threw (create CapabilityNegotiation.cls sample_client {[ "command" := "END" ]}) = false
  /\ threw (create CapabilityNegotiation.cls sample_client {[ "target" := "*" ]}) = true.
Proof.
  destruct (create_succeeds_iff CapabilityNegotiation.cls sample_client
              {[ "command" := "END" ]} eq_refl) as [_ Hgiven].
  destruct (create_succeeds_iff CapabilityNegotiation.cls sample_client
              {[ "target" := "*" ]} eq_refl) as [Hmissing _].
  split.
  - apply Hgiven. intros paramName paramSpec Hin Hopt.
    cbn [PARAM_SPEC CapabilityNegotiation.cls In] in Hin.
    destruct Hin as [Hin|[Hin|[Hin|[Hin|[Hin|[]]]]]]; injection Hin as <- <-;
      try discriminate Hopt.
    exists "END". split; reflexivity.
  - destruct (threw (create CapabilityNegotiation.cls sample_client {[ "target" := "*" ]}))
      eqn:E; [reflexivity|].
    destruct (Hmissing eq_refl "command"
                {| spec_trailing := false; spec_rest := false; spec_optional := false;
                   spec_type := None;
                   spec_match := Some CapabilityNegotiation.command_match |}
                ltac:(right; left; reflexivity) eq_refl) as (v & Hv & _).
    discriminate Hv.
Defined.

(** What the code does outside that condition: an entry named like a
    member of [Object.prototype] counts as given even when the values
    hold nothing under its name. *)
Example create_reads_inherited_member :
  let required :=
    {| name := "Inheriting"; COMMAND := "X";
       PARAM_SPEC := [ ("toString", plain_entry) ]; SUPPORTS_CAPTURE := false |} in
  ordinary_names (PARAM_SPEC required) = false
  /\ exists m,
       create required bare_client ∅ = Ok m
       /\ param m "toString" = Some (JS.native "toString").
Proof. cbv zeta. split; [reflexivity|]. eexists. split; reflexivity. Qed.

Lemma create_loop_result (cls : MessageConstructor) (client : Client)
    (vals : gmap string string) (entries : list (string * MessageParamSpecEntry)) :
  forall parsedParams result : gmap string MessageParam,
    ordinary_names entries = true ->
    parsedParams !! "__proto__" = None ->
    create_loop cls client vals entries parsedParams = Ok result ->
    (forall k, k ∉ map fst entries -> result !! k = parsedParams !! k)
    /\ (forall k p,
          result !! k = Some p ->
          parsedParams !! k = Some p
          \/ exists paramSpec v,
               In (k, paramSpec) entries /\ vals !! k = Some v
               /\ checkParam client v paramSpec = true
               /\ p = {| value := v; trailing := spec_trailing paramSpec |})
    /\ (NoDup (map fst entries) ->
        forall paramName paramSpec,
          In (paramName, paramSpec) entries ->
          result !! paramName
          = match vals !! paramName with
            | Some v =>
                if checkParam client v paramSpec
                then Some {| value := v; trailing := spec_trailing paramSpec |}
                else parsedParams !! paramName
            | None => parsedParams !! paramName
            end).
Proof.
  induction entries as [|[n e] more IH]; intros acc result Hord Hproto.
  - intros [= <-]. split; [reflexivity|]. split; [auto|]. intros _ ? ? [].
  - destruct (ordinary_names_cons _ _ _ Hord) as [Hname Hord'].
    cbn [create_loop]. intros Hrun.
    destruct (create_entry cls client vals acc n e) as [acc'|err] eqn:Eentry;
      [|discriminate].
    cbn [mbind result_bind] in Hrun.
    pose proof (proj2 (create_entry_ordinary cls client vals acc n e Hname Hproto)
                  acc' Eentry) as Hproto'.
    destruct (IH acc' result Hord' Hproto' Hrun) as (Hout & Hin & Hnd).
    assert (Hacc' : acc' = match vals !! n with
                           | Some v =>
                               if checkParam client v e
                               then <[n := {| value := v; trailing := spec_trailing e |}]> acc
                               else acc
                           | None => acc
                           end).
    { rewrite (create_entry_cases _ _ _ _ _ _ Hname Hproto) in Eentry.
      destruct (vals !! n) as [v|].
      - destruct (checkParam client v e); [congruence|].
        destruct (spec_optional e); [congruence|discriminate].
      - destruct (spec_optional e); [congruence|].
        destruct (acc !! n); [congruence|discriminate]. }
    split; [|split].
    + intros k Hk. cbn [map fst] in Hk. apply not_elem_of_cons in Hk as [Hne Hk].
      rewrite (Hout k Hk), Hacc'.
      destruct (vals !! n) as [v|]; [|reflexivity].
      destruct (checkParam client v e); [|reflexivity].
      apply lookup_insert_ne. congruence.
    + intros k p Hp. destruct (Hin k p Hp) as [Hp'|(ps & v & Hi & Hv & Hc & ->)].
      * rewrite Hacc' in Hp'. destruct (vals !! n) as [v|] eqn:Ev; [|auto].
        destruct (checkParam client v e) eqn:Ec; [|auto].
        destruct (decide (n = k)) as [<-|Hne].
        -- rewrite lookup_insert_eq in Hp'. injection Hp' as <-.
           right. exists e, v. repeat split; auto. left. reflexivity.
        -- rewrite lookup_insert_ne in Hp' by exact Hne. auto.
      * right. exists ps, v. repeat split; auto. right. exact Hi.
    + intros Hnodup paramName paramSpec Hentry.
      cbn [map fst] in Hnodup. apply NoDup_cons in Hnodup as [Hfresh Hnodup].
      destruct Hentry as [[= -> ->]|Hentry].
      * rewrite (Hout _ Hfresh), Hacc'.
        destruct (vals !! paramName) as [v|]; [|reflexivity].
        destruct (checkParam client v paramSpec); [|reflexivity].
        apply lookup_insert_eq.
      * rewrite (Hnd Hnodup _ _ Hentry).
        assert (Hne : n <> paramName).
        { intros ->. apply Hfresh. apply list_elem_of_In.
          change paramName with (fst (paramName, paramSpec)). apply in_map. exact Hentry. }
        assert (Hsame : acc' !! paramName = acc !! paramName).
        { rewrite Hacc'. destruct (vals !! n) as [v|]; [|reflexivity].
          destruct (checkParam client v e); [|reflexivity].
          apply lookup_insert_ne. exact Hne. }
        rewrite Hsame. reflexivity.
Qed.

(** X14: for a parameter spec whose entries have distinct names, none of
    them that of a member of [Object.prototype]: in the message [create]
    returns, whose command is the class's and which has neither tags,
    prefix nor raw line, an entry is resolved exactly when it is given a
    value that passes its validator; it then holds that value with the
    entry's [trailing] flag.  A value that fails the validator of an
    optional entry is left out without error, and so is every name
    outside the spec. *)
Theorem create_result (cls : MessageConstructor) (client : Client)
    (vals : gmap string string) (m : Message) :
  NoDup (map fst (PARAM_SPEC cls)) ->
  ordinary_names (PARAM_SPEC cls) = true ->
  create cls client vals = Ok m ->
  constructor m = cls /\ _command m = COMMAND cls
  /\ _tags m = None /\ _prefix m = None /\ _raw m = None
  /\ exists parsedParams,
       _parsedParams m = Some parsedParams
       /\ (forall paramName paramSpec,
             In (paramName, paramSpec) (PARAM_SPEC cls) ->
             parsedParams !! paramName
             = match vals !! paramName with
               | Some v =>
                   if checkParam client v paramSpec
                   then Some {| value := v; trailing := spec_trailing paramSpec |}
                   else None
               | None => None
               end)
       /\ (forall k, k ∉ map fst (PARAM_SPEC cls) -> parsedParams !! k = None).
Proof.
  intros Hnodup Hord. unfold create, new. cbn [parseParams mbind result_bind].
  destruct (create_loop cls client vals (PARAM_SPEC cls) ∅) as [result|e] eqn:Eloop;
    [|discriminate].
  cbn [mbind result_bind]. intros [= <-].
  cbn [constructor _command _tags _prefix _raw _parsedParams].
  repeat split. exists result. split; [reflexivity|].
  destruct (create_loop_result _ _ _ _ _ _ Hord (lookup_empty _) Eloop) as (Hout & _ & Hnd).
  split.
  - intros paramName paramSpec Hin. rewrite (Hnd Hnodup _ _ Hin), lookup_empty.
    destruct (vals !! paramName); [|reflexivity].
    destruct (checkParam client _ paramSpec); reflexivity.
  - intros k Hk. rewrite (Hout k Hk). apply lookup_empty.
Qed.

Ltac not_among :=
  let H := fresh in
  intros H; repeat (apply elem_of_cons in H as [H|H]; [discriminate H|]);
  apply elem_of_nil in H; exact H.

Ltac distinct_names :=
  cbn; repeat (apply NoDup_cons_2; [not_among|]); apply NoDup_nil_2.

Lemma create_result_witness :
  exists parsedParams,
    _parsedParams
      {| constructor := ChannelInvite; _tags := None; _prefix := None;
         _command := "INVITE"; _params := None;
         _parsedParams :=
           Some (<["target" := {| value := "bob"; trailing := false |}]>
                   {[ "channel" := {| value := "#rocq"; trailing := false |} ]});
         _raw := None |} = Some parsedParams
    /\ parsedParams !! "channel" = Some {| value := "#rocq"; trailing := false |}
    /\ parsedParams !! "reason" = None.
Proof.
  assert (Hnodup : NoDup (map fst (PARAM_SPEC ChannelInvite))) by distinct_names.
  pose (vals := (<["target" := "bob"]> (<["channel" := "#rocq"]> {[ "reason" := "hi" ]}))
                : gmap string string).
  assert (Hcreate : create ChannelInvite sample_client vals
                    = Ok {| constructor := ChannelInvite; _tags := None; _prefix := None;
                            _command := "INVITE"; _params := None;
                            _parsedParams :=
                              Some (<["target" := {| value := "bob"; trailing := false |}]>
                                      {[ "channel" := {| value := "#rocq";
                                                         trailing := false |} ]});
                            _raw := None |})
    by (vm_compute; reflexivity).
  destruct (create_result ChannelInvite sample_client vals _ Hnodup eq_refl Hcreate)
    as (_ & _ & _ & _ & _ & parsedParams & Hsome & Hin & Hout).
  exists parsedParams. split; [exact Hsome|]. split.
  - exact (Hin "channel" _ (or_intror (or_introl eq_refl))).
  - apply Hout. cbn. not_among.
Defined.

(** ** Invariants of [parseParams] *)

Lemma restParams_length (ps : list MessageParam) :
  (length (restParams ps) <= length ps)%nat.
Proof.
  induction ps as [|p ps IH]; cbn; [lia|]. destruct (trailing p); cbn; lia.
Qed.

Lemma restParams_plain_tokens (ps : list MessageParam) :
  Forall (fun piece => exists p, In p ps /\ trailing p = false /\ value p = piece)
         (restParams ps).
Proof.
  induction ps as [|p ps IH]; cbn; [constructor|].
  destruct (trailing p) eqn:Et; [constructor|]. constructor.
  - exists p. auto.
  - eapply Forall_impl; [exact IH|]. intros piece (q & Hq & Ht & Hv). exists q. auto.
Qed.

(** What a round that does not raise has done: either it left the object
    and the countdown alone, which only an optional entry allows, or it
    assigned the entry a value that passes its validator. *)
Lemma parseParams_round_ok (client : Client) (ps : list MessageParam)
    (n : string) (e : MessageParamSpecEntry) (st : Resolution) (flow : Flow) :
  parseParams_round client ps n e st = Ok flow ->
  let st' := flow_state flow in
  let left := Z.of_nat (length ps) - Z.of_nat (res_i st) in
  (res_i st <= res_i st')%nat
  /\ ((res_i st <= length ps)%nat -> (res_i st' <= length ps)%nat)
  /\ ((res_parsedParams st' = res_parsedParams st
       /\ res_requiredParamsLeft st' = res_requiredParamsLeft st
       /\ spec_optional e = true
       /\ (spec_rest e = false -> res_i st' = res_i st))
      \/ (exists p,
            checkParam client (value p) e = true
            /\ res_parsedParams st' = <[n := p]> (res_parsedParams st)
            /\ res_requiredParamsLeft st'
               = res_requiredParamsLeft st - (if spec_optional e then 0 else 1)
            /\ (spec_optional e = true -> res_requiredParamsLeft st < left)
            /\ res_requiredParamsLeft st <= left
            /\ (spec_rest e = false -> ps !! res_i st = Some p /\ res_i st' = S (res_i st))
            /\ (spec_rest e = true -> trailing p = false)))
  /\ ((exists s, flow = Break s) ->
      spec_trailing e = true
      \/ (ps !! res_i st = None /\ res_requiredParamsLeft st < left)).
Proof.
  cbv zeta. unfold parseParams_round.
  set (left := Z.of_nat (length ps) - Z.of_nat (res_i st)).
  destruct ((left <=? res_requiredParamsLeft st) && spec_optional e) eqn:G1.
  { intros [= <-]. cbn [flow_state]. apply andb_true_iff in G1 as [_ Hopt].
    split; [lia|]. split; [auto|]. split; [left; auto|]. intros [s [=]]. }
  destruct ((left <=? res_requiredParamsLeft st)
            && negb (left =? res_requiredParamsLeft st)) eqn:G2; [discriminate|].
  assert (Hreq : res_requiredParamsLeft st <= left).
  { destruct (left <=? res_requiredParamsLeft st) eqn:E; [|apply Z.leb_gt in E; lia].
    cbn [andb] in G2. apply negb_false_iff, Z.eqb_eq in G2. lia. }
  assert (Hopt_lt : spec_optional e = true -> res_requiredParamsLeft st < left).
  { intros Hopt. rewrite Hopt, andb_true_r in G1. apply Z.leb_gt in G1. exact G1. }
  assert (Haccept : forall p st0 flow0,
            accept_or_skip client n e p st0 = Ok flow0 ->
            (res_parsedParams (flow_state flow0) = res_parsedParams st0
             /\ res_requiredParamsLeft (flow_state flow0) = res_requiredParamsLeft st0
             /\ spec_optional e = true /\ res_i (flow_state flow0) = res_i st0)
            \/ (checkParam client (value p) e = true
                /\ res_parsedParams (flow_state flow0) = <[n := p]> (res_parsedParams st0)
                /\ res_requiredParamsLeft (flow_state flow0)
                   = res_requiredParamsLeft st0 - (if spec_optional e then 0 else 1)
                /\ res_i (flow_state flow0)
                   = if spec_rest e then res_i st0 else S (res_i st0))).
  { intros p st0 flow0. unfold accept_or_skip, end_of_round.
    destruct (checkParam client (value p) e).
    - intros [= <-]. right.
      destruct (spec_trailing e), (spec_optional e); cbn [flow_state res_parsedParams
        res_requiredParamsLeft res_i]; repeat split; lia.
    - destruct (spec_optional e); [|discriminate]. cbn [negb]. intros [= <-]. left.
      destruct (spec_trailing e); cbn [flow_state]; auto. }
  assert (Hbreak : forall p st0 flow0,
            accept_or_skip client n e p st0 = Ok flow0 ->
            (exists s, flow0 = Break s) -> spec_trailing e = true).
  { intros p st0 flow0. unfold accept_or_skip, end_of_round.
    destruct (checkParam client (value p) e); [|destruct (negb (spec_optional e))];
      try discriminate; destruct (spec_trailing e); intros [= <-] [s Hs];
      try reflexivity; discriminate Hs. }
  destruct (ps !! res_i st) as [param|] eqn:Eparam.
  - destruct (spec_rest e) eqn:Er.
    + pose proof (restParams_length (drop (res_i st) ps)) as Hlen.
      rewrite length_drop in Hlen.
      pose proof (lookup_lt_Some _ _ _ Eparam) as Hi.
      destruct (restParams (drop (res_i st) ps)) as [|piece pieces] eqn:Ecol.
      * destruct (spec_optional e) eqn:Eo; [|discriminate]. intros [= <-].
        cbn [flow_state]. split; [lia|]. split; [auto|]. split; [left; auto|].
        intros [s [=]].
      * intros Hflow. destruct (Haccept _ _ _ Hflow) as [(Hp & Hq & Ho & Hidx)|(Hc & Hp & Hq & Hidx)];
          cbn [res_i res_parsedParams res_requiredParamsLeft value] in *;
          rewrite ?Er in *.
        -- split; [lia|]. split; [lia|].
           split; [left; repeat split; auto; discriminate|].
           intros Hb. left. exact (Hbreak _ _ _ Hflow Hb).
        -- split; [lia|]. split; [lia|]. split.
           ++ right.
              exists {| value := JS.join " " (piece :: pieces); trailing := false |}.
              split; [exact Hc|]. split; [exact Hp|]. split; [exact Hq|].
              split; [exact Hopt_lt|]. split; [exact Hreq|]. split; [discriminate|].
              reflexivity.
           ++ intros Hb. left. exact (Hbreak _ _ _ Hflow Hb).
    + pose proof (lookup_lt_Some _ _ _ Eparam) as Hi.
      intros Hflow. destruct (Haccept _ _ _ Hflow) as [(Hp & Hq & Ho & Hidx)|(Hc & Hp & Hq & Hidx)];
        rewrite ?Er in *.
      * split; [lia|]. split; [lia|]. split; [left; auto|].
        intros Hb. left. exact (Hbreak _ _ _ Hflow Hb).
      * split; [lia|]. split; [lia|]. split.
        -- right. exists param. repeat split; auto. discriminate.
        -- intros Hb. left. exact (Hbreak _ _ _ Hflow Hb).
  - destruct (spec_optional e) eqn:Eo; [|discriminate]. intros [= <-]. cbn [flow_state].
    split; [lia|]. split; [auto|]. split; [left; auto|].
    intros _. right. split; [reflexivity|]. apply Hopt_lt. reflexivity.
Qed.

Section ResolutionInvariants.

Variable client : Client.
Variable ps : list MessageParam.

Lemma parseParams_loop_validated (entries : list (string * MessageParamSpecEntry)) :
  forall st st',
    parseParams_loop client ps entries st = Ok st' ->
    forall k p,
      res_parsedParams st' !! k = Some p ->
      res_parsedParams st !! k = Some p
      \/ exists e,
           In (k, e) entries /\ checkParam client (value p) e = true
           /\ (spec_rest e = false -> In p ps)
           /\ (spec_rest e = true -> trailing p = false).
Proof.
  induction entries as [|[n e] more IH]; intros st st'.
  - intros [= <-]. auto.
  - cbn [parseParams_loop].
    destruct (parseParams_round client ps n e st) as [flow|err] eqn:Eround; [|discriminate].
    cbn [mbind result_bind]. intros Hloop k p Hk.
    destruct (parseParams_round_ok _ _ _ _ _ _ Eround) as (_ & _ & Hstep & _).
    assert (Hflow : res_parsedParams (flow_state flow) !! k = Some p
                    \/ exists e', In (k, e') more /\ checkParam client (value p) e' = true
                                  /\ (spec_rest e' = false -> In p ps)
                                  /\ (spec_rest e' = true -> trailing p = false)).
    { destruct flow as [st1|st1]; cbn [flow_state].
      - apply (IH st1 st' Hloop). exact Hk.
      - injection Hloop as <-. auto. }
    destruct Hflow as [Hflow|(e' & Hin & Hrest)].
    + destruct Hstep as [(Hsame & _)|(q & Hc & Hins & _ & _ & _ & Hplain & Hrest)].
      * rewrite Hsame in Hflow. auto.
      * rewrite Hins in Hflow. destruct (decide (n = k)) as [<-|Hne].
        -- rewrite lookup_insert_eq in Hflow. injection Hflow as <-.
           right. exists e. split; [left; reflexivity|]. split; [exact Hc|]. split.
           ++ intros Hr. destruct (Hplain Hr) as [Hq _].
              apply list_elem_of_In. eapply list_elem_of_lookup_2. exact Hq.
           ++ exact Hrest.
        -- rewrite lookup_insert_ne in Hflow by exact Hne. auto.
    + right. exists e'. split; [right; exact Hin|exact Hrest].
Qed.

Lemma parseParams_round_throws_how (n : string) (e : MessageParamSpecEntry)
    (st : Resolution) (err : JsError) :
  parseParams_round client ps n e st = Throw err ->
  let left := Z.of_nat (length ps) - Z.of_nat (res_i st) in
  (err = NotEnoughParamsLeft /\ left < res_requiredParamsLeft st)
  \/ (err = UnexpectedParamUnderflow /\ ps !! res_i st = None
      /\ spec_optional e = false /\ res_requiredParamsLeft st <= left)
  \/ (err = NoParamsLeftForRest n /\ spec_rest e = true)
  \/ exists i v, err = ParamDidNotSuit n i v.
Proof.
  cbv zeta. unfold parseParams_round.
  set (left := Z.of_nat (length ps) - Z.of_nat (res_i st)).
  destruct ((left <=? res_requiredParamsLeft st) && spec_optional e) eqn:G1; [discriminate|].
  destruct ((left <=? res_requiredParamsLeft st)
            && negb (left =? res_requiredParamsLeft st)) eqn:G2.
  { intros [= <-]. left. split; [reflexivity|].
    apply andb_true_iff in G2 as [Hle Hne].
    apply Z.leb_le in Hle. apply negb_true_iff, Z.eqb_neq in Hne. lia. }
  assert (Hreq : res_requiredParamsLeft st <= left).
  { destruct (left <=? res_requiredParamsLeft st) eqn:E; [|apply Z.leb_gt in E; lia].
    cbn [andb] in G2. apply negb_false_iff, Z.eqb_eq in G2. lia. }
  assert (Haccept : forall p st0,
            accept_or_skip client n e p st0 = Throw err ->
            exists i v, err = ParamDidNotSuit n i v).
  { intros p st0. unfold accept_or_skip.
    destruct (checkParam client (value p) e); [discriminate|].
    destruct (negb (spec_optional e)); [|discriminate]. intros [= <-]. eauto. }
  destruct (ps !! res_i st) as [param|] eqn:Eparam.
  - destruct (spec_rest e) eqn:Er.
    + destruct (restParams (drop (res_i st) ps)).
      * destruct (spec_optional e); [discriminate|]. intros [= <-]. auto.
      * intros H. right. right. right. exact (Haccept _ _ H).
    + intros H. right. right. right. exact (Haccept _ _ H).
  - destruct (spec_optional e) eqn:Eo; [discriminate|]. intros [= <-].
    right. left. auto.
Qed.

Lemma counting_step (n : string) (e : MessageParamSpecEntry)
    (more : list (string * MessageParamSpecEntry)) (st : Resolution) (flow : Flow) :
  counting ps ((n, e) :: more) st ->
  parseParams_round client ps n e st = Ok flow ->
  counting ps more (flow_state flow).
Proof.
  intros [Hreq Hi] Hround.
  destruct (parseParams_round_ok _ _ _ _ _ _ Hround) as (_ & Hidx & Hstep & _).
  split; [|auto]. cbn [nonOptionalEntries] in Hreq.
  destruct Hstep as [(_ & Hsame & Hopt & _)|(q & _ & _ & Hdec & _)].
  - rewrite Hsame, Hreq, Hopt. reflexivity.
  - rewrite Hdec, Hreq. destruct (spec_optional e); lia.
Qed.

Lemma counting_break (n : string) (e : MessageParamSpecEntry)
    (more : list (string * MessageParamSpecEntry)) (st s : Resolution) :
  counting ps ((n, e) :: more) st ->
  parseParams_round client ps n e st = Ok (Break s) ->
  spec_trailing e = true.
Proof.
  intros [Hreq Hi] Hround.
  destruct (parseParams_round_ok _ _ _ _ _ _ Hround) as (_ & _ & _ & Hbreak).
  destruct (Hbreak ltac:(eauto)) as [Ht|[Hnone Hlt]]; [exact Ht|].
  apply lookup_ge_None in Hnone. lia.
Qed.

Lemma parseParams_loop_errors (entries : list (string * MessageParamSpecEntry)) :
  forall st,
    counting ps entries st ->
    parseParams_loop client ps entries st <> Throw UnexpectedParamUnderflow
    /\ (forallb (fun entry => negb (spec_rest entry.2)) entries = true ->
        res_requiredParamsLeft st <= Z.of_nat (length ps) - Z.of_nat (res_i st) ->
        forall err,
          parseParams_loop client ps entries st = Throw err ->
          exists paramName i v, err = ParamDidNotSuit paramName i v).
Proof.
  induction entries as [|[n e] more IH]; intros st Hcount.
  - split; [discriminate|]. intros _ _ err. discriminate.
  - cbn [parseParams_loop].
    destruct (parseParams_round client ps n e st) as [flow|err] eqn:Eround.
    + pose proof (counting_step _ _ _ _ _ Hcount Eround) as Hcount'.
      destruct (parseParams_round_ok _ _ _ _ _ _ Eround) as (_ & _ & Hstep & _).
      cbn [mbind result_bind]. destruct flow as [st1|st1]; cbn [flow_state] in *;
        [|split; [discriminate|intros ? ? ?; discriminate]].
      destruct (IH st1 Hcount') as [IH1 IH2]. split; [exact IH1|].
      cbn [forallb snd]. intros Hplain Hleft.
      apply andb_true_iff in Hplain as [Hr Hmore]. apply negb_true_iff in Hr.
      apply IH2; [exact Hmore|].
      destruct Hstep as [(_ & Hsame & _ & Hidx)|(q & _ & _ & Hdec & Hlt & _ & Hidx & _)].
      * rewrite Hsame, (Hidx Hr). exact Hleft.
      * destruct (Hidx Hr) as [_ ->]. rewrite Hdec.
        destruct (spec_optional e); [specialize (Hlt eq_refl)|]; lia.
    + cbn [mbind result_bind]. destruct Hcount as [Hreq Hi].
      destruct (parseParams_round_throws_how _ _ _ _ Eround)
        as [[-> Hlt]|[(-> & Hnone & Hopt & Hle)|[[-> Hrest]|(i & v & ->)]]].
      * split; [discriminate|]. intros _ Hleft. lia.
      * exfalso. apply lookup_ge_None in Hnone.
        cbn [nonOptionalEntries] in Hreq. rewrite Hopt in Hreq. lia.
      * split; [discriminate|]. cbn [forallb snd]. rewrite Hrest. discriminate.
      * split; [discriminate|]. intros _ _ err [= <-]. eauto.
Qed.

Lemma trailing_last_cons (n : string) (e : MessageParamSpecEntry)
    (more : list (string * MessageParamSpecEntry)) :
  trailing_last ((n, e) :: more) = true ->
  trailing_last more = true /\ (spec_trailing e = true -> more = []).
Proof.
  cbn [trailing_last]. destruct more as [|entry more']; [auto|].
  rewrite andb_true_iff, negb_true_iff. intros [Ht Hmore].
  split; [exact Hmore|]. congruence.
Qed.

Lemma parseParams_loop_required (entries : list (string * MessageParamSpecEntry)) :
  forall st st',
    counting ps entries st ->
    trailing_last entries = true ->
    parseParams_loop client ps entries st = Ok st' ->
    (forall k, is_Some (res_parsedParams st !! k) -> is_Some (res_parsedParams st' !! k))
    /\ forall n e, In (n, e) entries -> spec_optional e = false ->
                   is_Some (res_parsedParams st' !! n).
Proof.
  induction entries as [|[n e] more IH]; intros st st' Hcount Hlast.
  - intros [= <-]. split; [auto|]. intros ? ? [].
  - cbn [parseParams_loop].
    destruct (parseParams_round client ps n e st) as [flow|err] eqn:Eround; [|discriminate].
    cbn [mbind result_bind]. intros Hloop.
    pose proof (counting_step _ _ _ _ _ Hcount Eround) as Hcount'.
    destruct (trailing_last_cons _ _ _ Hlast) as [Hlast' Honly].
    destruct (parseParams_round_ok _ _ _ _ _ _ Eround) as (_ & _ & Hstep & _).
    assert (Hmono1 : forall k, is_Some (res_parsedParams st !! k) ->
                               is_Some (res_parsedParams (flow_state flow) !! k)).
    { intros k Hk. destruct Hstep as [(-> & _)|(q & _ & -> & _)]; [exact Hk|].
      destruct (decide (n = k)) as [<-|Hne];
        [rewrite lookup_insert_eq; eauto | rewrite lookup_insert_ne by exact Hne; exact Hk]. }
    assert (Hhere : spec_optional e = false ->
                    is_Some (res_parsedParams (flow_state flow) !! n)).
    { intros Hopt. destruct Hstep as [(_ & _ & Ho & _)|(q & _ & -> & _)]; [congruence|].
      rewrite lookup_insert_eq. eauto. }
    destruct flow as [st1|st1]; cbn [flow_state] in *.
    + destruct (IH st1 st' Hcount' Hlast' Hloop) as [Hmono Hreq]. split; [auto|].
      intros n' e' [[= <- <-]|Hin] Hopt; [auto|]. apply (Hreq n' e'); assumption.
    + injection Hloop as <-.
      pose proof (Honly (counting_break _ _ _ _ _ Hcount Eround)) as ->.
      split; [exact Hmono1|]. intros n' e' [[= <- <-]|[]] Hopt. auto.
Qed.

Lemma drop_head (i : nat) (p : MessageParam) (tl : list MessageParam) :
  drop i ps = p :: tl -> ps !! i = Some p /\ drop (S i) ps = tl.
Proof.
  intros Hdrop.
  assert (Hp : ps !! i = Some p).
  { pose proof (lookup_drop ps i 0) as H. rewrite Hdrop, Nat.add_0_r in H.
    symmetry. exact H. }
  split; [exact Hp|]. rewrite (drop_S _ _ _ Hp) in Hdrop. congruence.
Qed.

Lemma parseParams_loop_by_position (entries : list (string * MessageParamSpecEntry)) :
  forall (i : nat) (acc : gmap string MessageParam),
    plain_required entries = true ->
    trailing_last entries = true ->
    (length entries <= length (drop i ps))%nat ->
    let st := {| res_i := i; res_requiredParamsLeft := Z.of_nat (length entries);
                 res_parsedParams := acc |} in
    (tokens_pass client entries (drop i ps) = true ->
     exists st', parseParams_loop client ps entries st = Ok st'
                 /\ res_parsedParams st' = by_position entries (drop i ps) acc)
    /\ (tokens_pass client entries (drop i ps) = false ->
        threw (parseParams_loop client ps entries st) = true).
Proof.
  induction entries as [|[n e] more IH]; intros i acc Hplain Hlast Hlen; cbv zeta.
  - split; [|discriminate]. intros _. eexists. split; reflexivity.
  - cbn [plain_required forallb snd] in Hplain.
    apply andb_true_iff in Hplain as [Hpe Hplain].
    apply andb_true_iff in Hpe as [Hopt Hrest].
    apply negb_true_iff in Hopt. apply negb_true_iff in Hrest.
    destruct (trailing_last_cons _ _ _ Hlast) as [Hlast' Honly].
    destruct (drop i ps) as [|p tl] eqn:Edrop; [cbn in Hlen; lia|].
    destruct (drop_head _ _ _ Edrop) as [Hp Htl].
    assert (Hleft : Z.of_nat (length ps) - Z.of_nat i = Z.of_nat (length (p :: tl))).
    { rewrite <- Edrop, length_drop. pose proof (lookup_lt_Some _ _ _ Hp). lia. }
    cbn [length] in Hlen, Hleft.
    cbn [parseParams_loop tokens_pass by_position]. unfold parseParams_round.
    cbn [res_i res_requiredParamsLeft res_parsedParams length].
    rewrite Hopt, Hrest, Hp, andb_false_r.
    assert (G2 : (Z.of_nat (Datatypes.length ps) - Z.of_nat i <=? Z.of_nat (S (length more)))
                 && negb (Z.of_nat (Datatypes.length ps) - Z.of_nat i
                          =? Z.of_nat (S (length more))) = false).
    { destruct (_ <=? _) eqn:E; [|reflexivity]. apply Z.leb_le in E.
      cbn [andb]. apply negb_false_iff, Z.eqb_eq. lia. }
    rewrite G2. unfold accept_or_skip. rewrite Hopt, Hrest.
    cbn [res_i res_requiredParamsLeft res_parsedParams negb].
    destruct (checkParam client (value p) e); cbn [andb]; [|split; [discriminate|reflexivity]].
    unfold end_of_round. cbn [mbind result_bind].
    replace (Z.of_nat (S (length more)) - 1) with (Z.of_nat (length more)) by lia.
    destruct (spec_trailing e) eqn:Et.
    + rewrite (Honly eq_refl). cbn [tokens_pass by_position].
      split; [|discriminate]. intros _. eexists. split; reflexivity.
    + rewrite <- Htl. apply IH; [exact Hplain|exact Hlast'|]. rewrite Htl. lia.
Qed.

End ResolutionInvariants.

(** X15: whatever [parseParams] resolves was validated: every property of
    the resolved object is named by an entry of the class's spec and its
    value passes that entry's check ([type] and [match]); for an entry
    that is not [rest] the property is one of the raw tokens itself, for
    a [rest] entry a joined value that is never [trailing]. *)
Theorem parseParams_validates (cls : MessageConstructor) (client : Client)
    (command : string) (ps : list MessageParam)
    (parsedParams : gmap string MessageParam) :
  parseParams cls client command (Some ps) = Ok (Some parsedParams) ->
  forall k p,
    parsedParams !! k = Some p ->
    exists paramSpec,
      In (k, paramSpec) (PARAM_SPEC cls)
      /\ checkParam client (value p) paramSpec = true
      /\ (spec_rest paramSpec = false -> In p ps)
      /\ (spec_rest paramSpec = true -> trailing p = false).
Proof.
  unfold parseParams. destruct (minParamCount cls >? Z.of_nat (length ps)); [discriminate|].
  destruct (parseParams_loop client ps (PARAM_SPEC cls) _) as [st|err] eqn:Eloop;
    [|discriminate].
  cbn [mbind result_bind]. intros [= <-] k p Hk.
  destruct (parseParams_loop_validated _ _ _ _ _ Eloop k p Hk) as [Hempty|Hdone];
    [|exact Hdone].
  cbn [res_parsedParams] in Hempty. rewrite lookup_empty in Hempty. discriminate.
Qed.

Lemma parseParams_validates_witness :
  exists paramSpec,
    In ("continued", paramSpec) (PARAM_SPEC CapabilityNegotiation.cls)
    /\ checkParam sample_client "*" paramSpec = true.
Proof.
  pose (ps := [ {| value := "*"; trailing := false |};
                {| value := "LS"; trailing := false |};
                {| value := "*"; trailing := false |};
                {| value := "sasl multi-prefix"; trailing := true |} ]).
  pose (parsedParams :=
          <["capabilities" := {| value := "sasl multi-prefix"; trailing := true |}]>
            (<["continued" := {| value := "*"; trailing := false |}]>
               (<["command" := {| value := "LS"; trailing := false |}]>
                  (<["target" := {| value := "*"; trailing := false |}]>
                     (∅ : gmap string MessageParam))))).
  assert (Hparsed : parseParams CapabilityNegotiation.cls sample_client "CAP" (Some ps)
                    = Ok (Some parsedParams)) by (vm_compute; reflexivity).
  assert (Hk : parsedParams !! "continued" = Some {| value := "*"; trailing := false |})
    by (vm_compute; reflexivity).
  destruct (parseParams_validates _ _ _ _ _ Hparsed _ _ Hk) as (paramSpec & Hin & Hc & _).
  exists paramSpec. split; [exact Hin | exact Hc].
Defined.

(** X16: the resolution loop never fails with the "unexpected parameter
    underflow" error: by the time a required entry is reached there is a
    token left for it.  When no entry of the spec is [rest], it never
    fails with "not enough parameters left" either: the only failures are
    then too few tokens at the outset and a token that does not suit a
    required entry. *)
Theorem parseParams_unreachable_errors (cls : MessageConstructor) (client : Client)
    (command : string) (ps : list MessageParam) :
  parseParams cls client command (Some ps) <> Throw UnexpectedParamUnderflow
  /\ (forallb (fun entry => negb (spec_rest entry.2)) (PARAM_SPEC cls) = true ->
      forall e,
        parseParams cls client command (Some ps) = Throw e ->
        (e = ExpectedMoreParams command (minParamCount cls) (length ps)
         /\ Z.of_nat (length ps) < minParamCount cls)
        \/ exists paramName i v, e = ParamDidNotSuit paramName i v).
Proof.
  unfold parseParams.
  destruct (minParamCount cls >? Z.of_nat (length ps)) eqn:Emin.
  { split; [discriminate|]. intros _ e [= <-]. left. split; [reflexivity|].
    apply Z.gtb_lt in Emin. exact Emin. }
  assert (Hmin : minParamCount cls <= Z.of_nat (length ps)).
  { destruct (Z.gtb_spec (minParamCount cls) (Z.of_nat (length ps))); [discriminate|lia]. }
  set (st := {| res_i := 0%nat; res_requiredParamsLeft := minParamCount cls;
                res_parsedParams := ∅ |}).
  assert (Hcount : counting ps (PARAM_SPEC cls) st).
  { split; [apply minParamCount_counts | cbn; lia]. }
  destruct (parseParams_loop_errors client ps _ _ Hcount) as [Hunder Hleft].
  destruct (parseParams_loop client ps (PARAM_SPEC cls) st) as [st'|err] eqn:Eloop;
    cbn [mbind result_bind].
  { split; [discriminate|]. intros _ e. discriminate. }
  split; [congruence|]. intros Hplain e [= <-]. right.
  apply (Hleft Hplain); [cbn [st res_i res_requiredParamsLeft]; lia | reflexivity].
Qed.

Lemma parseParams_unreachable_errors_witness :
  parseParams ChannelInvite sample_client "INVITE"
    (Some [ {| value := "alice"; trailing := false |};
            {| value := "lobby"; trailing := false |} ])
  <> Throw UnexpectedParamUnderflow
  /\ exists paramName i v,
       parseParams ChannelInvite sample_client "INVITE"
         (Some [ {| value := "alice"; trailing := false |};
                 {| value := "lobby"; trailing := false |} ])
       = Throw (ParamDidNotSuit paramName i v).
Proof.
  destruct (parseParams_unreachable_errors ChannelInvite sample_client "INVITE"
              [ {| value := "alice"; trailing := false |};
                {| value := "lobby"; trailing := false |} ]) as [Hunder Hplain].
  split; [exact Hunder|].
  destruct (Hplain eq_refl (ParamDidNotSuit "channel" 1 "lobby") eq_refl)
    as [[Hmore _]|(paramName & i & v & He)]; [discriminate Hmore|].
  exists paramName, i, v. rewrite <- He. reflexivity.
Defined.

(** X17: when only the last entry of the spec may be [trailing], a
    successful resolution leaves no required entry out: every entry that
    is not [optional] has a property in the resolved object. *)
Theorem parseParams_resolves_required (cls : MessageConstructor) (client : Client)
    (command : string) (ps : list MessageParam)
    (parsedParams : gmap string MessageParam) :
  trailing_last (PARAM_SPEC cls) = true ->
  parseParams cls client command (Some ps) = Ok (Some parsedParams) ->
  forall paramName paramSpec,
    In (paramName, paramSpec) (PARAM_SPEC cls) ->
    spec_optional paramSpec = false ->
    is_Some (parsedParams !! paramName).
Proof.
  intros Hlast. unfold parseParams.
  destruct (minParamCount cls >? Z.of_nat (length ps)) eqn:Emin; [discriminate|].
  destruct (parseParams_loop client ps (PARAM_SPEC cls) _) as [st|err] eqn:Eloop;
    [|discriminate].
  cbn [mbind result_bind]. intros [= <-].
  refine (proj2 (parseParams_loop_required client ps _ _ _ _ Hlast Eloop)).
  split; [apply minParamCount_counts | cbn; lia].
Qed.

Lemma parseParams_resolves_required_witness :
  is_Some
    ((<["command" := {| value := "END"; trailing := false |}]>
        (∅ : gmap string MessageParam)) !! "command").
Proof.
  pose (ps := [ {| value := "END"; trailing := false |} ]).
  assert (Hparsed : parseParams CapabilityNegotiation.cls sample_client "CAP" (Some ps)
                    = Ok (Some (<["command" := {| value := "END"; trailing := false |}]>
                                  (∅ : gmap string MessageParam))))
    by (vm_compute; reflexivity).
  refine (parseParams_resolves_required CapabilityNegotiation.cls sample_client "CAP" ps _
            eq_refl Hparsed "command"
            {| spec_trailing := false; spec_rest := false; spec_optional := false;
               spec_type := None;
               spec_match := Some CapabilityNegotiation.command_match |} _ eq_refl).
  right. left. reflexivity.
Defined.

Lemma plain_required_count (entries : list (string * MessageParamSpecEntry)) :
  plain_required entries = true -> nonOptionalEntries entries = length entries.
Proof.
  induction entries as [|[n e] more IH]; [reflexivity|].
  cbn [plain_required forallb snd nonOptionalEntries length].
  rewrite !andb_true_iff, negb_true_iff. intros [[-> _] Hmore].
  f_equal. exact (IH Hmore).
Qed.

(** X18: for a spec whose entries are all required single-token entries,
    with [trailing] on the last at most, and at least as many tokens as
    entries, resolution is positional: it succeeds exactly when every
    entry's check accepts the token at the entry's position, the n-th
    entry then holds the n-th token, and tokens beyond the entries are
    dropped without error. *)
Theorem parseParams_by_position (cls : MessageConstructor) (client : Client)
    (command : string) (ps : list MessageParam) :
  plain_required (PARAM_SPEC cls) = true ->
  trailing_last (PARAM_SPEC cls) = true ->
  (length (PARAM_SPEC cls) <= length ps)%nat ->
  (tokens_pass client (PARAM_SPEC cls) ps = true ->
   parseParams cls client command (Some ps)
   = Ok (Some (by_position (PARAM_SPEC cls) ps ∅)))
  /\ (tokens_pass client (PARAM_SPEC cls) ps = false ->
      threw (parseParams cls client command (Some ps)) = true).
Proof.
  intros Hplain Hlast Hlen. unfold parseParams.
  rewrite minParamCount_counts, (plain_required_count _ Hplain).
  assert (Emin : (Z.of_nat (length (PARAM_SPEC cls)) >? Z.of_nat (length ps)) = false).
  { destruct (Z.gtb_spec (Z.of_nat (length (PARAM_SPEC cls))) (Z.of_nat (length ps)));
      [lia|reflexivity]. }
  rewrite Emin.
  destruct (parseParams_loop_by_position client ps (PARAM_SPEC cls) 0 ∅ Hplain Hlast Hlen)
    as [Hpass Hfail].
  cbn [drop] in Hpass, Hfail. split.
  - intros Ht. destruct (Hpass Ht) as (st' & -> & Hres).
    cbn [mbind result_bind]. rewrite Hres. reflexivity.
  - intros Ht. specialize (Hfail Ht).
    destruct (parseParams_loop client ps (PARAM_SPEC cls) _); [discriminate Hfail|].
    reflexivity.
Qed.

Lemma parseParams_by_position_witness :
  parseParams Error436NickCollision sample_client "436"
    (Some [ {| value := "me"; trailing := false |};
            {| value := "nick"; trailing := false |};
            {| value := "taken"; trailing := false |};
            {| value := "left over"; trailing := true |} ])
  = Ok (Some (<["suffix" := {| value := "taken"; trailing := false |}]>
                (<["nick" := {| value := "nick"; trailing := false |}]>
                   (<["me" := {| value := "me"; trailing := false |}]> ∅))))
  /\ threw (parseParams ChannelInvite sample_client "INVITE"
              (Some [ {| value := "alice"; trailing := false |};
                      {| value := "lobby"; trailing := false |} ])) = true.
Proof.
  split.
  - apply (parseParams_by_position Error436NickCollision sample_client "436"
             [ {| value := "me"; trailing := false |};
               {| value := "nick"; trailing := false |};
               {| value := "taken"; trailing := false |};
               {| value := "left over"; trailing := true |} ]
             eq_refl eq_refl ltac:(cbn; lia)).
    reflexivity.
  - apply (parseParams_by_position ChannelInvite sample_client "INVITE"
             [ {| value := "alice"; trailing := false |};
               {| value := "lobby"; trailing := false |} ]
             eq_refl eq_refl ltac:(cbn; lia)).
    reflexivity.
Defined.

(** ** Parsed messages and their resolved parameters *)

Lemma parseParams_checked (cls : MessageConstructor) (client : Client)
    (command : string) (ps : list MessageParam)
    (parsed : option (gmap string MessageParam)) :
  parseParams cls client command (Some ps) = Ok parsed ->
  exists parsedParams,
    parsed = Some parsedParams
    /\ forall k p,
         parsedParams !! k = Some p ->
         exists paramSpec,
           In (k, paramSpec) (PARAM_SPEC cls)
           /\ checkParam client (value p) paramSpec = true.
Proof.
  unfold parseParams. destruct (_ >? _); [discriminate|].
  destruct (parseParams_loop client ps _ _) as [st|e] eqn:Eloop; [|discriminate].
  cbn [mbind result_bind]. intros [= <-].
  exists (res_parsedParams st). split; [reflexivity|]. intros k p Hk.
  destruct (parseParams_loop_validated _ _ _ _ _ Eloop k p Hk)
    as [Hempty|(paramSpec & Hin & Hc & _)]; [|eauto].
  cbn [res_parsedParams] in Hempty. rewrite lookup_empty in Hempty. discriminate.
Qed.

Lemma parse_checked (line : string) (client : Client) (m : Message) :
  parse line client = Ok m ->
  exists ps parsedParams,
    _params m = Some ps /\ _parsedParams m = Some parsedParams
    /\ parseParams (constructor m) client (_command m) (Some ps) = Ok (Some parsedParams)
    /\ forall k p,
         parsedParams !! k = Some p ->
         exists paramSpec,
           In (k, paramSpec) (PARAM_SPEC (constructor m))
           /\ checkParam client (value p) paramSpec = true.
Proof.
  rewrite parse_unfold.
  destruct (tokenize (JS.split " " line) no_tokens) as [toks|e]; [|discriminate].
  cbn [mbind result_bind].
  destruct (tok_command toks) as [command|]; [|discriminate].
  destruct (JS.falsy command); [discriminate|].
  unfold new.
  destruct (parseParams (class_for client command) client command (Some (tok_params toks)))
    as [parsed|e] eqn:Eparsed; [|discriminate].
  cbn [mbind result_bind]. intros [= <-].
  cbn [framed constructor _params _parsedParams _command].
  destruct (parseParams_checked _ _ _ _ _ Eparsed) as (parsedParams & -> & Hchecked).
  exists (tok_params toks), parsedParams.
  split; [reflexivity|]. split; [reflexivity|]. split; [exact Eparsed|exact Hchecked].
Qed.

(** X19: the [params] getter of a message that [parse] returned never
    throws, and each value it gives belongs to an entry of the spec of
    the message's class and passes that entry's check. *)
Theorem parse_params_checked (line : string) (client : Client) (m : Message) :
  parse line client = Ok m ->
  exists vals,
    params m = Ok vals
    /\ forall k v,
         vals !! k = Some v ->
         exists paramSpec,
           In (k, paramSpec) (PARAM_SPEC (constructor m))
           /\ checkParam client v paramSpec = true.
Proof.
  intros Hparse.
  destruct (parse_checked _ _ _ Hparse) as (ps & parsedParams & _ & Hpp & _ & Hchecked).
  unfold params. rewrite Hpp. eexists. split; [reflexivity|].
  intros k v. rewrite lookup_fmap.
  destruct (delete "__proto__" parsedParams !! k) as [p|] eqn:Ek; [|discriminate].
  apply lookup_delete_Some in Ek as [_ Ek].
  intros [= <-]. exact (Hchecked k p Ek).
Qed.

Lemma parse_params_checked_witness :
  exists vals,
    params {| constructor := ChannelInvite; _tags := None; _prefix := None;
              _command := "INVITE";
              _params := Some [ {| value := "alice"; trailing := false |};
                                {| value := "#lobby"; trailing := false |} ];
              _parsedParams :=
                Some (<["channel" := {| value := "#lobby"; trailing := false |}]>
                        (<["target" := {| value := "alice"; trailing := false |}]> ∅));
              _raw := Some "INVITE alice #lobby" |} = Ok vals
    /\ forall k v,
         vals !! k = Some v ->
         exists paramSpec,
           In (k, paramSpec) (PARAM_SPEC ChannelInvite)
           /\ checkParam sample_client v paramSpec = true.
Proof.
  exact (parse_params_checked "INVITE alice #lobby" sample_client _ eq_refl).
Defined.

(** ** [CAP] replies read off the wire *)

Lemma cap_continued_star (client : Client) (parsedParams : gmap string MessageParam)
    (p : MessageParam) :
  (forall k q,
     parsedParams !! k = Some q ->
     exists paramSpec,
       In (k, paramSpec) (PARAM_SPEC CapabilityNegotiation.cls)
       /\ checkParam client (value q) paramSpec = true) ->
  parsedParams !! "continued" = Some p ->
  value p = "*".
Proof.
  intros Hchecked Hp. destruct (Hchecked _ _ Hp) as (paramSpec & Hin & Hc).
  cbn [PARAM_SPEC CapabilityNegotiation.cls In] in Hin.
  destruct Hin as [Hin|[Hin|[Hin|[Hin|[Hin|[]]]]]]; try discriminate Hin.
  injection Hin as <-. unfold checkParam in Hc. cbn [spec_type spec_match] in Hc.
  apply String.eqb_eq in Hc. exact Hc.
Qed.

(** X20: for a [CAP] message that [parse] returned, offered as a reply
    to a [CAP] message with resolved parameters: matching it throws
    exactly when the reply is an [ACK] or a [NAK] without capability
    list and the original a [REQ]; a continuation marker, if it has one,
    is the star; and it ends the exchange unless it is an [LS] or a
    [LIST] that carries the marker. *)
Theorem cap_parsed_reply (line : string) (client : Client) (reply orig : Message)
    (theirs : gmap string MessageParam) :
  parse line client = Ok reply ->
  constructor reply = CapabilityNegotiation.cls ->
  instanceof orig CapabilityNegotiation.cls = true ->
  _parsedParams orig = Some theirs ->
  (threw (isResponseTo reply orig) = true
   <-> (param reply "command" = Some "ACK" \/ param reply "command" = Some "NAK")
       /\ param orig "command" = Some "REQ"
       /\ param reply "capabilities" = None)
  /\ (forall continued, param reply "continued" = Some continued -> continued = "*")
  /\ endsResponseTo reply orig
     = Ok (negb (CapabilityNegotiation.is_ls_or_list (param reply "command"))
           || bool_decide (param reply "continued" = None)).
Proof.
  intros Hparse Hcls Horig Htheirs.
  destruct (parse_checked _ _ _ Hparse) as (ps & mine & _ & Hmine & _ & Hchecked).
  rewrite Hcls in Hchecked.
  assert (Hreply : instanceof reply CapabilityNegotiation.cls = true)
    by (unfold instanceof; rewrite Hcls; reflexivity).
  assert (Hstar : forall continued, param reply "continued" = Some continued ->
                                    continued = "*").
  { intros continued. unfold param. rewrite Hmine.
    destruct (mine !! "continued") as [p|] eqn:Ep; [|discriminate].
    intros [= <-]. exact (cap_continued_star _ _ _ Hchecked Ep). }
  split; [|split; [exact Hstar|]].
  - unfold isResponseTo. rewrite Hreply.
    rewrite (cap_isResponseTo_params _ _ _ _ Hmine Htheirs Horig).
    destruct (CapabilityNegotiation.is_ack_or_nak (param reply "command")) eqn:Eack.
    + apply is_ack_or_nak_iff in Eack.
      destruct (CapabilityNegotiation.strict_eq (param orig "command") (Some "REQ")) eqn:Ereq.
      * apply strict_eq_iff in Ereq.
        destruct (param reply "capabilities") as [capabilities|]; cbn [threw].
        -- split; [discriminate|]. intros (_ & _ & H). discriminate H.
        -- split; [auto|reflexivity].
      * cbn [threw]. split; [discriminate|]. intros (_ & Hreq & _).
        apply strict_eq_iff in Hreq. congruence.
    + assert (Hno : ~ (param reply "command" = Some "ACK"
                       \/ param reply "command" = Some "NAK")).
      { intros H. apply is_ack_or_nak_iff in H. congruence. }
      destruct (CapabilityNegotiation.is_ls_or_list (param reply "command")); cbn [threw];
        (split; [discriminate|]); intros (H & _); destruct (Hno H).
  - unfold endsResponseTo. rewrite Hreply.
    unfold CapabilityNegotiation.endsResponseTo. rewrite Horig. cbn [negb].
    destruct (params_lookup reply mine "command" Hmine ltac:(discriminate)) as [-> Hcommand].
    destruct (params_lookup reply mine "continued" Hmine ltac:(discriminate)) as [_ Hcontinued].
    cbn [mbind result_bind]. rewrite Hcommand, Hcontinued.
    destruct (CapabilityNegotiation.is_ls_or_list (param reply "command")); [|reflexivity].
    cbn [negb orb]. destruct (param reply "continued") as [continued|] eqn:Econt.
    + rewrite (Hstar continued eq_refl). reflexivity.
    + reflexivity.
Qed.

Lemma cap_parsed_reply_witness :
  let request :=
    {| constructor := CapabilityNegotiation.cls; _tags := None; _prefix := None;
       _command := "CAP"; _params := None;
       _parsedParams := Some {[ "command" := {| value := "LS"; trailing := false |} ]};
       _raw := None |} in
  let more :=
    {| constructor := CapabilityNegotiation.cls; _tags := None; _prefix := None;
       _command := "CAP";
       _params := Some [{| value := "*"; trailing := false |};
                        {| value := "LS"; trailing := false |};
                        {| value := "*"; trailing := false |};
                        {| value := "sasl"; trailing := true |}];
       _parsedParams :=
         Some (<["target" := {| value := "*"; trailing := false |}]>
                 (<["command" := {| value := "LS"; trailing := false |}]>
                    (<["continued" := {| value := "*"; trailing := false |}]>
                       {[ "capabilities" := {| value := "sasl"; trailing := true |} ]})));
       _raw := Some "CAP * LS * :sasl" |} in
  parse "CAP * LS * :sasl" sample_client = Ok more
  /\ endsResponseTo more request = Ok false.
Proof.
  intros request more.
  assert (Hparse : parse "CAP * LS * :sasl" sample_client = Ok more) by reflexivity.
  split; [exact Hparse|].
  destruct (cap_parsed_reply _ _ more request _ Hparse eq_refl eq_refl eq_refl)
    as (_ & _ & Hends).
  exact Hends.
Defined.

(** ** [ObjectTools] *)

(** Assigning a single-property source: nothing for the name
    [__proto__], the property otherwise. *)
Lemma assign_property {O : Type} (k : string) (v : O) (acc : gmap string O) :
  delete "__proto__" ({[ k := v ]} : gmap string O) ∪ acc
  = if String.eqb k "__proto__" then acc else <[k := v]> acc.
Proof.
  destruct (String.eqb_spec k "__proto__") as [->|Hne].
  - apply map_eq. intros j. apply lookup_union_r. apply lookup_delete_None.
    destruct (decide ("__proto__" = j)) as [Hj|Hj]; [left; exact Hj|right].
    apply lookup_singleton_ne. exact Hj.
  - rewrite insert_union_singleton_l. f_equal. apply map_eq. intros j.
    destruct (decide ("__proto__" = j)) as [<-|Hj].
    + rewrite lookup_delete_eq, lookup_singleton_ne by exact Hne. reflexivity.
    + apply lookup_delete_ne. exact Hj.
Qed.

(** What is kept of the element [x] after the elements of [arr] have
    been assigned one by one, each as a single property. *)
Definition recorded {T O : Type} (key : T -> string) (val : T -> O)
    (acc : gmap string O) (x : T) : gmap string O :=
  if String.eqb (key x) "__proto__" then acc else <[key x := val x]> acc.

Lemma assign_singletons {T O : Type} (key : T -> string) (val : T -> O) (arr : list T) :
  forall target : gmap string O,
    ObjectTools.assign target (List.map (fun x => {[ key x := val x ]}) arr)
    = foldl (recorded key val) target arr.
Proof.
  induction arr as [|x arr IH]; intros target; [reflexivity|].
  cbn [List.map foldl]. unfold ObjectTools.assign in *. cbn [foldl].
  rewrite assign_property. apply IH.
Qed.

Lemma foldl_recorded_lookup {T O : Type} (key : T -> string) (val : T -> O) (arr : list T)
    (k : string) :
  forall target : gmap string O,
    (Forall (fun x => key x <> k) arr ->
     foldl (recorded key val) target arr !! k = target !! k)
    /\ (k = "__proto__" -> foldl (recorded key val) target arr !! k = target !! k)
    /\ (k <> "__proto__" ->
        forall before x after,
          arr = (before ++ x :: after)%list ->
          key x = k ->
          Forall (fun y => key y <> k) after ->
          foldl (recorded key val) target arr !! k = Some (val x)).
Proof.
  induction arr as [|a arr IH]; intros target.
  - split; [reflexivity|]. split; [reflexivity|].
    intros _ [|? ?] ? ? H; discriminate H.
  - destruct (IH (recorded key val target a)) as (IH1 & IH2 & IH3).
    assert (Hstep : key a <> k \/ k = "__proto__" ->
                    recorded key val target a !! k = target !! k).
    { unfold recorded. destruct (String.eqb_spec (key a) "__proto__") as [Ha|Ha];
        [reflexivity|].
      intros [Hne| ->]; apply lookup_insert_ne; [exact Hne|exact Ha]. }
    split; [|split].
    + intros Hall. apply Forall_cons in Hall as [Ha Hall]. cbn [foldl].
      rewrite (IH1 Hall). apply Hstep. left. exact Ha.
    + intros Hk. cbn [foldl]. rewrite (IH2 Hk). apply Hstep. right. exact Hk.
    + intros Hk before x after Harr Hx Hafter. cbn [foldl].
      destruct before as [|b before]; cbn [app] in Harr; injection Harr as <- ->.
      * rewrite (IH1 Hafter). unfold recorded.
        destruct (String.eqb_spec (key a) "__proto__") as [Ha|Ha]; [congruence|].
        rewrite Hx. apply lookup_insert_eq.
      * apply (IH3 Hk before x after eq_refl Hx Hafter).
Qed.

Lemma foldl_recorded_origin {T O : Type} (key : T -> string) (val : T -> O) (arr : list T)
    (k : string) (o : O) :
  forall target : gmap string O,
    foldl (recorded key val) target arr !! k = Some o ->
    target !! k = Some o \/ exists x, In x arr /\ key x = k /\ val x = o.
Proof.
  induction arr as [|a arr IH]; intros target; [auto|].
  cbn [foldl]. intros H. destruct (IH _ H) as [Ht|(x & Hin & Hk & Hv)].
  - unfold recorded in Ht.
    destruct (String.eqb (key a) "__proto__"); [auto|].
    destruct (decide (key a = k)) as [Ha|Ha].
    + rewrite Ha, lookup_insert_eq in Ht. injection Ht as <-.
      right. exists a. split; [left; reflexivity|]. split; [exact Ha|reflexivity].
    + rewrite lookup_insert_ne in Ht by exact Ha. auto.
  - right. exists x. split; [right; exact Hin|]. split; assumption.
Qed.

(** X21: as to the own properties of its result, [ObjectTools.map]
    keeps the keys of the object, but for [__proto__], and gives each the
    callback's result on its value and the key; under [__proto__] the
    result has no property.  The [params] getter is this map of the
    resolved parameters to their values: it gives the [value] of every
    resolved parameter under the parameter's name, and nothing under
    [__proto__]. *)
Theorem ObjectTools_map_lookup {T O : Type} (obj : gmap string T) (fn : T -> string -> O) :
  (forall k, ObjectTools.map obj fn !! k
             = if String.eqb k "__proto__" then None else (fun v => fn v k) <$> obj !! k)
  /\ forall (m : Message) (parsedParams : gmap string MessageParam),
       _parsedParams m = Some parsedParams ->
       params m = Ok (ObjectTools.map parsedParams (fun param _ => value param))
       /\ forall k, k <> "__proto__" ->
                    ObjectTools.map parsedParams (fun param _ => value param) !! k
                    = value <$> parsedParams !! k.
Proof.
  assert (Hlookup : forall {A B : Type} (o : gmap string A) (f : A -> string -> B) k,
             ObjectTools.map o f !! k
             = if String.eqb k "__proto__" then None else (fun v => f v k) <$> o !! k).
  { intros A B o f k. unfold ObjectTools.map.
    rewrite (assign_singletons (fun entry => entry.1) (fun entry => f entry.2 entry.1)).
    destruct (foldl_recorded_lookup (fun entry : string * A => entry.1)
                (fun entry => f entry.2 entry.1) (map_to_list o) k ∅)
      as (Hout & Hproto & Hin).
    destruct (String.eqb_spec k "__proto__") as [Hk|Hk];
      [rewrite (Hproto Hk); apply lookup_empty|].
    destruct (o !! k) as [v|] eqn:Ek.
    - apply elem_of_map_to_list in Ek.
      apply list_elem_of_split in Ek as (before & after & Hsplit).
      rewrite (Hin Hk before (k, v) after Hsplit eq_refl); [reflexivity|].
      pose proof (NoDup_fst_map_to_list o) as Hnd. rewrite Hsplit in Hnd.
      rewrite fmap_app, fmap_cons in Hnd. apply NoDup_app in Hnd as (_ & _ & Hnd).
      apply NoDup_cons in Hnd as [Hfresh _]. apply Forall_forall. intros [k' v'] Hy Hk'.
      cbn [fst] in Hk'. subst k'. apply Hfresh. apply list_elem_of_fmap.
      exists (k, v'). split; [reflexivity|exact Hy].
    - rewrite Hout; [apply lookup_empty|].
      apply Forall_forall. intros [k' v'] Hy Hk'. cbn [fst] in Hk'. subst k'.
      apply elem_of_map_to_list in Hy. congruence. }
  split; [apply Hlookup|].
  intros m parsedParams Hm. unfold params. rewrite Hm. split.
  - f_equal. apply map_eq. intros k. rewrite Hlookup, lookup_fmap.
    destruct (String.eqb_spec k "__proto__") as [->|Hk].
    + rewrite lookup_delete_eq. reflexivity.
    + rewrite lookup_delete_ne by congruence. reflexivity.
  - intros k Hk. rewrite Hlookup. destruct (String.eqb_spec k "__proto__"); [contradiction|].
    reflexivity.
Qed.

Lemma ObjectTools_map_lookup_witness :
  params {| constructor := ClientQuit; _tags := None; _prefix := None;
            _command := "QUIT"; _params := None;
            _parsedParams := Some {[ "message" := {| value := "bye"; trailing := true |} ]};
            _raw := None |}
  = Ok (ObjectTools.map
          ({[ "message" := {| value := "bye"; trailing := true |} ]}
             : gmap string MessageParam)
          (fun param _ => value param))
  /\ forall k, k <> "__proto__" ->
               ObjectTools.map
                 ({[ "message" := {| value := "bye"; trailing := true |} ]}
                    : gmap string MessageParam)
                 (fun param _ => value param) !! k
               = value <$> ({[ "message" := {| value := "bye"; trailing := true |} ]}
                              : gmap string MessageParam) !! k.
Proof.
  exact (proj2 (ObjectTools_map_lookup (∅ : gmap string MessageParam)
                  (fun param _ => value param))
           {| constructor := ClientQuit; _tags := None; _prefix := None;
              _command := "QUIT"; _params := None;
              _parsedParams := Some {[ "message" := {| value := "bye"; trailing := true |} ]};
              _raw := None |}
           {[ "message" := {| value := "bye"; trailing := true |} ]} eq_refl).
Defined.

Lemma fromArray_indexBy {T : Type} (arr : list T) (keyFn : T -> string) :
  ObjectTools.indexBy arr keyFn = foldl (recorded keyFn (fun x => x)) ∅ arr.
Proof.
  unfold ObjectTools.indexBy, ObjectTools.fromArray.
  apply (assign_singletons keyFn (fun x => x)).
Qed.

Lemma last_with_key {T : Type} (key : T -> string) (k : string) (arr : list T) :
  Forall (fun x => key x <> k) arr
  \/ exists before x after,
       arr = (before ++ x :: after)%list /\ key x = k
       /\ Forall (fun y => key y <> k) after.
Proof.
  induction arr as [|a arr [IH|(before & x & after & -> & Hx & Hafter)]].
  - left. constructor.
  - destruct (decide (key a = k)) as [Ha|Ha].
    + right. exists [], a, arr. split; [reflexivity|]. split; assumption.
    + left. constructor; assumption.
  - right. exists (a :: before), x, after. split; [reflexivity|]. split; assumption.
Qed.

(** X22: as to the own properties of its result, [ObjectTools.indexBy]
    files the elements of the array under their keys: what is found under
    a key is an element of the array with that key; the key of every
    element is present unless it is [__proto__]; of several elements with
    one such key the last is the one kept; and nothing is filed under
    [__proto__]. *)
Theorem indexBy_lookup {T : Type} (arr : list T) (keyFn : T -> string) :
  (forall k val, ObjectTools.indexBy arr keyFn !! k = Some val ->
                 In val arr /\ keyFn val = k)
  /\ (forall val, In val arr -> keyFn val <> "__proto__" ->
                  exists kept, ObjectTools.indexBy arr keyFn !! keyFn val = Some kept
                               /\ In kept arr /\ keyFn kept = keyFn val)
  /\ (forall before val after,
        arr = (before ++ val :: after)%list ->
        keyFn val <> "__proto__" ->
        Forall (fun other => keyFn other <> keyFn val) after ->
        ObjectTools.indexBy arr keyFn !! keyFn val = Some val)
  /\ ObjectTools.indexBy arr keyFn !! "__proto__" = None.
Proof.
  rewrite fromArray_indexBy.
  assert (Hlast : forall before val after,
             arr = (before ++ val :: after)%list ->
             keyFn val <> "__proto__" ->
             Forall (fun other => keyFn other <> keyFn val) after ->
             foldl (recorded keyFn (fun x => x)) (∅ : gmap string T) arr !! keyFn val
             = Some val).
  { intros before val after Harr Hkey Hafter.
    exact (proj2 (proj2 (foldl_recorded_lookup keyFn (fun x => x) arr (keyFn val) ∅))
             Hkey before val after Harr eq_refl Hafter). }
  split; [|split; [|split; [exact Hlast|]]].
  - intros k val H.
    destruct (foldl_recorded_origin keyFn (fun x => x) arr k val ∅ H)
      as [Hempty|(x & Hin & Hk & <-)];
      [rewrite lookup_empty in Hempty; discriminate | split; assumption].
  - intros val Hin Hkey.
    destruct (last_with_key keyFn (keyFn val) arr)
      as [Hnone|(before & x & after & Harr & Hx & Hafter)].
    + rewrite Forall_forall in Hnone.
      destruct (Hnone val (proj2 (list_elem_of_In _ _) Hin) eq_refl).
    + exists x. rewrite <- Hx in Hafter, Hkey |- *.
      split; [exact (Hlast _ _ _ Harr Hkey Hafter)|].
      split; [rewrite Harr; apply in_elt | reflexivity].
  - rewrite (proj1 (proj2 (foldl_recorded_lookup keyFn (fun x => x) arr "__proto__" ∅))
               eq_refl).
    apply lookup_empty.
Qed.

Lemma indexBy_lookup_witness :
  ObjectTools.indexBy [ChannelInvite; ClientQuit; Error436NickCollision] COMMAND !! "QUIT"
  = Some ClientQuit.
Proof.
  destruct (indexBy_lookup [ChannelInvite; ClientQuit; Error436NickCollision] COMMAND)
    as (_ & _ & Hlast & _).
  apply (Hlast [ChannelInvite] ClientQuit [Error436NickCollision] eq_refl);
    [discriminate|].
  constructor; [discriminate|constructor].
Defined.

(** ** The [ISUPPORT] handler of [Client] *)

Lemma isupport_part_single (part : string) :
  isupport_part part = {[ support_of part := feature_of part ]}.
Proof.
  unfold isupport_part, support_of, feature_of, JS.split_limit.
  pose proof (split_not_nil "=" part) as Hne.
  destruct (JS.split "=" part) as [|support [|param rest]]; [contradiction| |]; reflexivity.
Qed.

Lemma on_isupport_lookup (features : gmap string Feature) (supports : string)
    (k : string) :
  on_isupport features supports !! k
  = match foldl (recorded support_of feature_of) ∅ (JS.split " " supports) !! k with
    | Some feature => Some feature
    | None => features !! k
    end.
Proof.
  unfold on_isupport, ObjectTools.fromArray. cbn [ObjectTools.assign foldl].
  assert (Hparts : List.map isupport_part (JS.split " " supports)
                   = List.map (fun part => {[ support_of part := feature_of part ]})
                       (JS.split " " supports))
    by (apply map_ext; intros part; apply isupport_part_single).
  rewrite Hparts.
  change (foldl (fun acc source : gmap string Feature => delete "__proto__" source ∪ acc) ∅
            (List.map (fun part => {[ support_of part := feature_of part ]})
               (JS.split " " supports)))
    with (ObjectTools.assign (∅ : gmap string Feature)
            (List.map (fun part => {[ support_of part := feature_of part ]})
               (JS.split " " supports))).
  rewrite (assign_singletons support_of feature_of).
  set (announced := foldl (recorded support_of feature_of) ∅ (JS.split " " supports)).
  assert (Hnone : announced !! "__proto__" = None).
  { unfold announced.
    rewrite (proj1 (proj2 (foldl_recorded_lookup support_of feature_of _ "__proto__" ∅))
               eq_refl).
    apply lookup_empty. }
  rewrite lookup_union. destruct (decide ("__proto__" = k)) as [<-|Hk].
  - rewrite lookup_delete_eq, Hnone. destruct (features !! "__proto__"); reflexivity.
  - rewrite (lookup_delete_ne _ _ _ Hk).
    destruct (announced !! k), (features !! k); reflexivity.
Qed.

Lemma announces_support_of (support part : string) :
  announces support part = false <-> support_of part <> support.
Proof.
  unfold announces, support_of. pose proof (split_not_nil "=" part) as Hne.
  destruct (JS.split "=" part) as [|piece pieces]; [contradiction|].
  apply String.eqb_neq.
Qed.

Lemma Forall_announces (support : string) (parts : list string) :
  Forall (fun part => announces support part = false) parts ->
  Forall (fun part => support_of part <> support) parts.
Proof.
  intros H. eapply Forall_impl; [exact H|].
  intros part. apply announces_support_of.
Qed.

(** X23: what the [ISUPPORT] handler records, as own properties of the
    feature object.  A feature that no part of the text announces keeps
    what was known of it, and so does the name [__proto__] whatever the
    text.  For any other name the last part announcing it decides:
    [NAME=VALUE] records the text of [VALUE] up to its first [=] (the rest
    is cut off), or [true] when that text is empty; [NAME] alone records
    [true]. *)
Theorem on_isupport_records (features : gmap string Feature) (supports : string) :
  (forall support,
     Forall (fun part => announces support part = false) (JS.split " " supports) ->
     on_isupport features supports !! support = features !! support)
  /\ on_isupport features supports !! "__proto__" = features !! "__proto__"
  /\ (forall before after support param,
        JS.split " " supports = (before ++ (support ++ String "=" param)%string :: after)%list ->
        support <> "__proto__" ->
        JS.has_char "=" support = false ->
        Forall (fun part => announces support part = false) after ->
        on_isupport features supports !! support
        = Some (if JS.falsy (kept_value param) then Flag else Text (kept_value param)))
  /\ (forall before after support,
        JS.split " " supports = (before ++ support :: after)%list ->
        support <> "__proto__" ->
        JS.has_char "=" support = false ->
        Forall (fun part => announces support part = false) after ->
        on_isupport features supports !! support = Some Flag).
Proof.
  split; [|split; [|split]].
  - intros support Hnone. apply Forall_announces in Hnone.
    rewrite on_isupport_lookup.
    rewrite (proj1 (foldl_recorded_lookup support_of feature_of _ support ∅) Hnone).
    rewrite lookup_empty. reflexivity.
  - rewrite on_isupport_lookup.
    rewrite (proj1 (proj2 (foldl_recorded_lookup support_of feature_of _ "__proto__" ∅))
               eq_refl).
    rewrite lookup_empty. reflexivity.
  - intros before after support param Hparts Hproto Hname Hafter.
    apply Forall_announces in Hafter.
    assert (Hsplit : JS.split "=" (support ++ String "=" param)
                     = support :: JS.split "=" param).
    { rewrite split_app_sep, (split_without_sep _ _ Hname). reflexivity. }
    rewrite on_isupport_lookup.
    rewrite (proj2 (proj2 (foldl_recorded_lookup support_of feature_of _ support ∅))
               Hproto before _ after Hparts).
    + unfold feature_of, kept_value. rewrite Hsplit.
      pose proof (split_not_nil "=" param) as Hne.
      destruct (JS.split "=" param) as [|piece pieces]; [contradiction|reflexivity].
    + unfold support_of. rewrite Hsplit. reflexivity.
    + exact Hafter.
  - intros before after support Hparts Hproto Hname Hafter.
    apply Forall_announces in Hafter.
    rewrite on_isupport_lookup.
    rewrite (proj2 (proj2 (foldl_recorded_lookup support_of feature_of _ support ∅))
               Hproto before _ after Hparts).
    + unfold feature_of. rewrite (split_without_sep _ _ Hname). reflexivity.
    + unfold support_of. rewrite (split_without_sep _ _ Hname). reflexivity.
    + exact Hafter.
Qed.

Lemma on_isupport_records_witness :
  on_isupport {[ "NETWORK" := Text "example" ]} "CHANTYPES=#& EXCEPTS MODES= CHANTYPES=#=&"
  !! "CHANTYPES" = Some (Text "#")
  /\ on_isupport {[ "NETWORK" := Text "example" ]} "CHANTYPES=#& EXCEPTS MODES= CHANTYPES=#=&"
     !! "MODES" = Some Flag
  /\ on_isupport {[ "NETWORK" := Text "example" ]} "CHANTYPES=#& EXCEPTS MODES= CHANTYPES=#=&"
     !! "EXCEPTS" = Some Flag
  /\ on_isupport {[ "NETWORK" := Text "example" ]} "CHANTYPES=#& EXCEPTS MODES= CHANTYPES=#=&"
     !! "NETWORK" = Some (Text "example").
Proof.
  destruct (on_isupport_records {[ "NETWORK" := Text "example" ]}
              "CHANTYPES=#& EXCEPTS MODES= CHANTYPES=#=&")
    as (Hkept & _ & Hvalue & Hflag).
  split; [|split; [|split]].
  - apply (Hvalue ["CHANTYPES=#&"; "EXCEPTS"; "MODES="] [] "CHANTYPES" "#=&" eq_refl);
      [discriminate|reflexivity|].
    constructor.
  - apply (Hvalue ["CHANTYPES=#&"; "EXCEPTS"] ["CHANTYPES=#=&"] "MODES" EmptyString
             eq_refl); [discriminate|reflexivity|].
    repeat constructor.
  - apply (Hflag ["CHANTYPES=#&"] ["MODES="; "CHANTYPES=#=&"] "EXCEPTS" eq_refl);
      [discriminate|reflexivity|].
    repeat constructor.
  - rewrite (Hkept "NETWORK"); [reflexivity|].
    change (JS.split " " "CHANTYPES=#& EXCEPTS MODES= CHANTYPES=#=&")
      with ["CHANTYPES=#&"; "EXCEPTS"; "MODES="; "CHANTYPES=#=&"].
    repeat constructor.
Defined.

(** What the handler does with the name [__proto__]: the part announcing
    it leaves no property, the others are recorded. *)
Example isupport_ignores_proto :
  on_isupport ∅ "__proto__=x A" !! "__proto__" = None
  /\ on_isupport ∅ "__proto__=x A" !! "A" = Some Flag.
Proof. split; reflexivity. Qed.

(** ** The registration lines of [Client] *)

Lemma sanitizeParameter_clean (param : string) (spaceAllowed : bool) :
  JS.has_char NUL (sanitizeParameter param spaceAllowed) = false
  /\ JS.has_char CR (sanitizeParameter param spaceAllowed) = false
  /\ JS.has_char LF (sanitizeParameter param spaceAllowed) = false
  /\ JS.has_char " " (sanitizeParameter param false) = false.
Proof.
  unfold sanitizeParameter.
  repeat split; destruct spaceAllowed; rewrite has_char_remove_class; apply andb_false_r.
Qed.

(** X24: the lines sent on connecting.  None of them contains a NUL, a
    carriage return or a line feed, whatever the password, nick, user
    name and real name are.  The [NICK] line and the [USER] line are
    always among them, and read by [parse] they carry one parameter, the
    sanitized nick, and four, the sanitized user name, [8], [*] and the
    sanitized real name as trailing text, unless the nick or the user
    name starts with a colon once sanitized. *)
Theorem connected_lines (connection : Connection.ConnectionInfo) (client : Client) :
  let n := sanitizeParameter (Connection.nick connection) false in
  let u := sanitizeParameter
             (or_else (Connection.userName connection) (Connection.nick connection)) false in
  let r := sanitizeParameter
             (or_else (Connection.realName connection) (Connection.nick connection)) true in
  let nick_line := "NICK " ++ n in
  let user_line := "USER " ++ u ++ " 8 * :" ++ r in
  (forall line, In line (connected connection) ->
                JS.has_char NUL line = false /\ JS.has_char CR line = false
                /\ JS.has_char LF line = false)
  /\ (exists pass_lines,
        connected connection = (pass_lines ++ [nick_line; user_line])%list
        /\ (length pass_lines <= 1)%nat)
  /\ (JS.first_is ":" n = false ->
      parse nick_line client
      = (parsed ← parseParams (class_for client "NICK") client "NICK"
                    (Some [{| value := n; trailing := false |}]);
         Ok {| constructor := class_for client "NICK"; _tags := None; _prefix := None;
               _command := "NICK";
               _params := Some [{| value := n; trailing := false |}];
               _parsedParams := parsed; _raw := Some nick_line |}))
  /\ (JS.first_is ":" u = false ->
      parse user_line client
      = (parsed ← parseParams (class_for client "USER") client "USER"
                    (Some [ {| value := u; trailing := false |};
                            {| value := "8"; trailing := false |};
                            {| value := "*"; trailing := false |};
                            {| value := r; trailing := true |} ]);
         Ok {| constructor := class_for client "USER"; _tags := None; _prefix := None;
               _command := "USER";
               _params := Some [ {| value := u; trailing := false |};
                                 {| value := "8"; trailing := false |};
                                 {| value := "*"; trailing := false |};
                                 {| value := r; trailing := true |} ];
               _parsedParams := parsed; _raw := Some user_line |})).
Proof.
  cbv zeta.
  set (n := sanitizeParameter (Connection.nick connection) false).
  set (u := sanitizeParameter
              (or_else (Connection.userName connection) (Connection.nick connection)) false).
  set (r := sanitizeParameter
              (or_else (Connection.realName connection) (Connection.nick connection)) true).
  destruct (sanitizeParameter_clean (Connection.nick connection) false)
    as (Hn0 & Hnr & Hnl & Hns).
  destruct (sanitizeParameter_clean
              (or_else (Connection.userName connection) (Connection.nick connection)) false)
    as (Hu0 & Hur & Hul & Hus).
  destruct (sanitizeParameter_clean
              (or_else (Connection.realName connection) (Connection.nick connection)) true)
    as (Hr0 & Hrr & Hrl & _).
  fold n in Hn0, Hnr, Hnl, Hns. fold u in Hu0, Hur, Hul, Hus. fold r in Hr0, Hrr, Hrl.
  split; [|split; [|split]].
  - intros line. unfold connected. cbv zeta. fold n u r. rewrite in_app_iff.
    intros [Hpass|[<-|[<-|[]]]].
    + destruct (Connection.password connection) as [pass|]; [|destruct Hpass].
      destruct (JS.falsy pass); [destruct Hpass|]. destruct Hpass as [<-|[]].
      destruct (sanitizeParameter_clean pass false) as (Hp0 & Hpr & Hpl & _).
      rewrite !has_char_append, Hp0, Hpr, Hpl. repeat split; reflexivity.
    + rewrite !has_char_append, Hn0, Hnr, Hnl. repeat split; reflexivity.
    + rewrite !has_char_append, Hu0, Hur, Hul, Hr0, Hrr, Hrl. repeat split; reflexivity.
  - unfold connected. cbv zeta. fold n u r. eexists. split; [reflexivity|].
    destruct (Connection.password connection) as [pass|]; [|cbn; lia].
    destruct (JS.falsy pass); cbn; lia.
  - intros Hcolon.
    change ("NICK " ++ n) with (JS.join " " ("NICK" :: [n])).
    apply (proj2 (parse_joined client "NICK" [n] EmptyString eq_refl eq_refl
                    ltac:(cbn [forallb]; rewrite Hns, Hcolon; reflexivity))).
  - intros Hcolon.
    change ("USER " ++ u ++ " 8 * :" ++ r)
      with (JS.join " " ("USER" :: [u; "8"; "*"] ++ [String ":" r])).
    apply (proj1 (parse_joined client "USER" [u; "8"; "*"] r eq_refl eq_refl
                    ltac:(cbn [forallb]; rewrite Hus, Hcolon; reflexivity))).
Qed.

Lemma connected_lines_witness :
  parse "NICK rocq" bare_client
  = Ok {| constructor := MessageClass; _tags := None; _prefix := None;
          _command := "NICK";
          _params := Some [{| value := "rocq"; trailing := false |}];
          _parsedParams := Some ∅; _raw := Some "NICK rocq" |}
  /\ parse "USER rocq 8 * :The Rocq Prover" bare_client
     = Ok {| constructor := MessageClass; _tags := None; _prefix := None;
             _command := "USER";
             _params := Some [ {| value := "rocq"; trailing := false |};
                               {| value := "8"; trailing := false |};
                               {| value := "*"; trailing := false |};
                               {| value := "The Rocq Prover"; trailing := true |} ];
             _parsedParams := Some ∅; _raw := Some "USER rocq 8 * :The Rocq Prover" |}.
Proof.
  destruct (connected_lines
              {| Connection.password := None; Connection.nick := "ro cq";
                 Connection.userName := None;
                 Connection.realName := Some ("The Rocq" ++ String LF " Prover") |}
              bare_client) as (_ & _ & Hnick & Huser).
  split; [exact (Hnick eq_refl) | exact (Huser eq_refl)].
Defined.

(** ** Reading back what [toString] wrote of a parsed message *)

Section Cut.

Variable client : Client.
Variable ps : list MessageParam.

Lemma parseParams_round_cut (n : string) (e : MessageParamSpecEntry)
    (st : Resolution) (flow : Flow) (j : nat) :
  spec_rest e = false ->
  parseParams_round client ps n e st = Ok flow ->
  (j <= length ps)%nat ->
  0 <= res_requiredParamsLeft (flow_state flow) ->
  res_requiredParamsLeft (flow_state flow)
  <= Z.of_nat j - Z.of_nat (res_i (flow_state flow)) ->
  parseParams_round client (take j ps) n e st = Ok flow
  \/ (spec_trailing e = true
      /\ parseParams_round client (take j ps) n e st = Ok (Continue (flow_state flow))).
Proof.
  intros Hrest Hround Hj Hreq0 Hcut.
  unfold parseParams_round in Hround |- *.
  rewrite (length_take_le _ _ Hj). rewrite Hrest in *.
  set (left := Z.of_nat (length ps) - Z.of_nat (res_i st)) in *.
  set (cut := Z.of_nat j - Z.of_nat (res_i st)).
  assert (Hleft : cut <= left) by (subst cut left; lia).
  destruct ((left <=? res_requiredParamsLeft st) && spec_optional e) eqn:G1.
  { injection Hround as <-. apply andb_true_iff in G1 as [Hle Ho]. apply Z.leb_le in Hle.
    left. replace (cut <=? res_requiredParamsLeft st) with true
      by (symmetry; apply Z.leb_le; lia).
    rewrite Ho. reflexivity. }
  destruct ((left <=? res_requiredParamsLeft st)
            && negb (left =? res_requiredParamsLeft st)) eqn:G2; [discriminate|].
  destruct (ps !! res_i st) as [p|] eqn:Ep.
  - unfold accept_or_skip in Hround |- *. rewrite Hrest in *.
    destruct (checkParam client (value p) e) eqn:Ec.
    + injection Hround as <-.
      assert (Hstate : flow_state
                         (end_of_round e
                            {| res_i := S (res_i st);
                               res_requiredParamsLeft :=
                                 if spec_optional e then res_requiredParamsLeft st
                                 else res_requiredParamsLeft st - 1;
                               res_parsedParams := <[n := p]> (res_parsedParams st) |})
                       = {| res_i := S (res_i st);
                            res_requiredParamsLeft :=
                              if spec_optional e then res_requiredParamsLeft st
                              else res_requiredParamsLeft st - 1;
                            res_parsedParams := <[n := p]> (res_parsedParams st) |})
        by (unfold end_of_round; destruct (spec_trailing e); reflexivity).
      rewrite Hstate in Hreq0, Hcut. cbn [res_i res_requiredParamsLeft] in Hreq0, Hcut.
      left.
      assert (Hlt : (res_i st < j)%nat) by (destruct (spec_optional e); lia).
      rewrite (lookup_take_lt _ _ _ Hlt), Ep, Ec.
      destruct (spec_optional e).
      * replace (cut <=? res_requiredParamsLeft st) with false
          by (symmetry; apply Z.leb_gt; subst cut; lia).
        reflexivity.
      * rewrite andb_false_r.
        destruct (cut <=? res_requiredParamsLeft st) eqn:E; [|reflexivity].
        apply Z.leb_le in E.
        replace (cut =? res_requiredParamsLeft st) with true
          by (symmetry; apply Z.eqb_eq; subst cut; lia).
        reflexivity.
    + destruct (spec_optional e) eqn:Eo; cbn [negb] in Hround; [|discriminate].
      injection Hround as <-.
      assert (Hstate : flow_state (end_of_round e st) = st)
        by (unfold end_of_round; destruct (spec_trailing e); reflexivity).
      rewrite Hstate in Hreq0, Hcut.
      destruct (cut <=? res_requiredParamsLeft st) eqn:E; cbn [andb].
      * unfold end_of_round. destruct (spec_trailing e).
        -- right. split; reflexivity.
        -- left. reflexivity.
      * apply Z.leb_gt in E.
        assert (Hlt : (res_i st < j)%nat) by (subst cut; lia).
        rewrite (lookup_take_lt _ _ _ Hlt), Ep, Ec. left. reflexivity.
  - destruct (spec_optional e) eqn:Eo; [|discriminate]. injection Hround as <-.
    cbn [flow_state] in Hreq0. exfalso.
    rewrite andb_true_r in G1. apply Z.leb_gt in G1.
    apply lookup_ge_None in Ep. subst left. lia.
Qed.

Lemma parseParams_loop_cut (entries : list (string * MessageParamSpecEntry)) :
  forall st st',
    counting ps entries st ->
    trailing_last entries = true ->
    forallb (fun entry => negb (spec_rest entry.2)) entries = true ->
    parseParams_loop client ps entries st = Ok st' ->
    (res_i st + nonOptionalEntries entries <= res_i st')%nat
    /\ (res_i st' <= length ps)%nat
    /\ forall j,
         (res_i st' <= j)%nat -> (j <= length ps)%nat ->
         parseParams_loop client (take j ps) entries st = Ok st'.
Proof.
  induction entries as [|[n e] more IH]; intros st st' Hcount Hlast Hplain.
  - intros [= <-]. destruct Hcount as [_ Hi]. cbn [nonOptionalEntries].
    split; [lia|]. split; [exact Hi|]. reflexivity.
  - cbn [forallb snd] in Hplain. apply andb_true_iff in Hplain as [Hrest Hplain].
    apply negb_true_iff in Hrest.
    destruct (trailing_last_cons _ _ _ Hlast) as [Hlast' Honly].
    cbn [parseParams_loop].
    destruct (parseParams_round client ps n e st) as [flow|err] eqn:Eround; [|discriminate].
    cbn [mbind result_bind]. intros Hloop.
    pose proof (counting_step _ _ _ _ _ _ _ Hcount Eround) as Hcount'.
    destruct (parseParams_round_ok _ _ _ _ _ _ Eround) as (Hmono & _ & Hstep & _).
    cbv zeta in Hmono, Hstep.
    assert (Hhere : (res_i st + nonOptionalEntries ((n, e) :: more)
                     <= res_i (flow_state flow) + nonOptionalEntries more)%nat).
    { cbn [nonOptionalEntries].
      destruct Hstep as [(_ & _ & Ho & _)|(q & _ & _ & _ & _ & _ & Hidx & _)].
      - rewrite Ho. lia.
      - destruct (Hidx Hrest) as [_ ->]. destruct (spec_optional e); lia. }
    assert (Hends : (res_i (flow_state flow) + nonOptionalEntries more <= res_i st')%nat
                    /\ (res_i st' <= length ps)%nat
                    /\ forall j, (res_i st' <= j)%nat -> (j <= length ps)%nat ->
                         parseParams_loop client (take j ps) more (flow_state flow)
                         = Ok st').
    { destruct flow as [st1|st1]; cbn [flow_state] in *.
      - exact (IH st1 st' Hcount' Hlast' Hplain Hloop).
      - injection Hloop as <-.
        rewrite (Honly (counting_break _ _ _ _ _ _ _ Hcount Eround)) in *.
        destruct Hcount' as [_ Hi]. cbn [nonOptionalEntries parseParams_loop].
        split; [lia|]. split; [exact Hi|]. reflexivity. }
    destruct Hends as (Hlow & Hhigh & Hcut).
    split; [lia|]. split; [exact Hhigh|]. intros j Hj Hlen.
    destruct Hcount' as [Hreq' _].
    destruct (parseParams_round_cut n e st flow j Hrest Eround Hlen) as [->|[Ht ->]];
      [rewrite Hreq'; lia | rewrite Hreq'; lia | |]; cbn [mbind result_bind].
    + destruct flow as [st1|st1]; cbn [flow_state] in *; [exact (Hcut j Hj Hlen)|].
      exact Hloop.
    + exact (Hcut j Hj Hlen).
Qed.

End Cut.

Lemma ordinary_names_elem (entries : list (string * MessageParamSpecEntry)) (k : string) :
  ordinary_names entries = true -> k ∈ map fst entries -> JS.inherited k = None.
Proof.
  intros Hord Hk. apply list_elem_of_fmap in Hk as ([n e] & -> & Hin).
  apply list_elem_of_In in Hin. exact (ordinary_names_In _ _ _ Hord Hin).
Qed.

Lemma omap_render_fresh (parsedParams : gmap string MessageParam)
    (entries : list (string * MessageParamSpecEntry)) :
  ordinary_names entries = true ->
  parsedParams !! "__proto__" = None ->
  (forall k, k ∈ map fst entries -> parsedParams !! k = None) ->
  omap (render parsedParams) (map fst entries) = [].
Proof.
  intros Hord Hproto.
  induction entries as [|[k e] entries IH]; intros Hfresh; [reflexivity|].
  destruct (ordinary_names_cons _ _ _ Hord) as [Hk Hmore].
  cbn [map fst omap list_omap]. rewrite (render_ordinary _ _ Hk Hproto).
  rewrite (Hfresh k) by (left; reflexivity).
  apply (IH Hmore). intros k' Hk'. apply Hfresh. right. exact Hk'.
Qed.

Lemma parseParams_loop_rendered (client : Client) (ps : list MessageParam)
    (entries : list (string * MessageParamSpecEntry)) :
  forall st st',
    ordinary_names entries = true ->
    res_parsedParams st !! "__proto__" = None ->
    forallb (fun entry => negb (spec_rest entry.2)) entries = true ->
    NoDup (map fst entries) ->
    (forall k, k ∈ map fst entries -> res_parsedParams st !! k = None) ->
    parseParams_loop client ps entries st = Ok st' ->
    (res_i st <= res_i st')%nat
    /\ (forall k, k ∉ map fst entries -> res_parsedParams st' !! k = res_parsedParams st !! k)
    /\ omap (render (res_parsedParams st')) (map fst entries)
       = map token_text (take (res_i st' - res_i st) (drop (res_i st) ps)).
Proof.
  induction entries as [|[n e] more IH]; intros st st' Hord Hproto Hplain Hnd Hfresh.
  - intros [= <-]. split; [lia|]. split; [reflexivity|].
    rewrite Nat.sub_diag. reflexivity.
  - destruct (ordinary_names_cons _ _ _ Hord) as [Hname Hordmore].
    pose proof (ordinary_not_proto _ Hname) as Hnotproto.
    cbn [forallb snd] in Hplain. apply andb_true_iff in Hplain as [Hrest Hplain].
    apply negb_true_iff in Hrest.
    cbn [map fst] in Hnd, Hfresh. apply NoDup_cons in Hnd as [Hn Hnd].
    cbn [parseParams_loop].
    destruct (parseParams_round client ps n e st) as [flow|err] eqn:Eround; [|discriminate].
    cbn [mbind result_bind]. intros Hloop.
    destruct (parseParams_round_ok _ _ _ _ _ _ Eround) as (_ & _ & Hstep & _).
    cbv zeta in Hstep. set (st1 := flow_state flow) in *.
    assert (Hfresh1 : forall k, k ∈ map fst more -> res_parsedParams st1 !! k = None).
    { intros k Hk.
      assert (Hne : n <> k) by (intros ->; exact (Hn Hk)).
      destruct Hstep as [(-> & _)|(q & _ & -> & _)];
        [|rewrite lookup_insert_ne by exact Hne]; apply Hfresh; right; exact Hk. }
    assert (Hproto1 : res_parsedParams st1 !! "__proto__" = None).
    { destruct Hstep as [(-> & _)|(q & _ & -> & _)];
        [|rewrite lookup_insert_ne by exact Hnotproto]; exact Hproto. }
    assert (Hrec : (res_i st1 <= res_i st')%nat
                   /\ (forall k, k ∉ map fst more ->
                                 res_parsedParams st' !! k = res_parsedParams st1 !! k)
                   /\ omap (render (res_parsedParams st')) (map fst more)
                      = map token_text (take (res_i st' - res_i st1) (drop (res_i st1) ps))).
    { destruct flow as [s|s]; cbn [flow_state] in st1; subst st1.
      - exact (IH s st' Hordmore Hproto1 Hplain Hnd Hfresh1 Hloop).
      - injection Hloop as <-. split; [lia|]. split; [reflexivity|].
        rewrite Nat.sub_diag. cbn [take map].
        apply (omap_render_fresh _ _ Hordmore Hproto1 Hfresh1). }
    destruct Hrec as (Hmono & Hout & Hrendered).
    assert (Hhere : res_parsedParams st' !! n = res_parsedParams st1 !! n)
      by (apply Hout; exact Hn).
    assert (Hproto' : res_parsedParams st' !! "__proto__" = None).
    { rewrite Hout; [exact Hproto1|]. intros Hin.
      exact (ordinary_not_proto _ (ordinary_names_elem _ _ Hordmore Hin) eq_refl). }
    cbn [map fst omap list_omap]. fold (omap (render (res_parsedParams st')) (map fst more)).
    rewrite (render_ordinary _ _ Hname Hproto'). rewrite Hhere, Hrendered.
    destruct Hstep as [(Hsame & _ & _ & Hidx)|(q & _ & Hins & _ & _ & _ & Hidx & _)].
    + specialize (Hidx Hrest). rewrite Hsame, (Hfresh n) by (left; reflexivity).
      rewrite Hidx in *. split; [exact Hmono|]. split; [|reflexivity].
      intros k Hk. apply not_elem_of_cons in Hk as [_ Hk]. rewrite (Hout k Hk), Hsame.
      reflexivity.
    + destruct (Hidx Hrest) as [Hq Hnext]. rewrite Hins, lookup_insert_eq.
      rewrite Hnext in *. split; [lia|]. split.
      * intros k Hk. apply not_elem_of_cons in Hk as [Hne Hk].
        rewrite (Hout k Hk), Hins. apply lookup_insert_ne. congruence.
      * rewrite (drop_S _ _ _ Hq).
        replace (res_i st' - res_i st)%nat with (S (res_i st' - S (res_i st))) by lia.
        reflexivity.
Qed.

Lemma raw_stream_shape (toks : list MessageParam) :
  raw_stream toks = true ->
  exists pieces,
    forallb (fun piece => negb (JS.has_char " " piece) && negb (JS.first_is ":" piece)) pieces
    = true
    /\ (toks = map plain_token pieces /\ map token_text toks = pieces
        \/ exists text,
             toks = (map plain_token pieces ++ [{| value := text; trailing := true |}])%list
             /\ map token_text toks = (pieces ++ [String ":" text])%list).
Proof.
  induction toks as [|[v t] toks IH]; [exists []; split; [reflexivity|left; split; reflexivity]|].
  cbn [raw_stream]. destruct toks as [|q toks].
  - intros H. unfold positional in H. cbn [trailing value] in H. destruct t.
    + exists []. split; [reflexivity|]. right. exists v. split; reflexivity.
    + cbn [negb andb orb] in H. rewrite orb_false_r in H.
      exists [v]. split; [cbn [forallb]; rewrite H; reflexivity|]. left. split; reflexivity.
  - intros H. apply andb_true_iff in H as [Hp Hmore].
    destruct (IH Hmore) as (pieces & Hpieces & Hshape).
    unfold positional in Hp. cbn [trailing value] in Hp.
    destruct t; [discriminate Hp|]. cbn [negb andb] in Hp.
    exists (v :: pieces). split; [cbn [forallb]; rewrite Hp, Hpieces; reflexivity|].
    destruct Hshape as [[-> Htexts]|(text & -> & Htexts)].
    + left. split; [reflexivity|]. cbn [map] in *. rewrite Htexts. reflexivity.
    + right. exists text. split; [reflexivity|]. cbn [map app] in *. rewrite Htexts.
      reflexivity.
Qed.

Lemma raw_stream_take (toks : list MessageParam) (j : nat) :
  raw_stream toks = true -> raw_stream (take j toks) = true.
Proof.
  revert j. induction toks as [|p toks IH]; intros j; [destruct j; reflexivity|].
  destruct j as [|j]; [reflexivity|]. cbn [take raw_stream].
  destruct toks as [|q toks].
  - destruct j; intros H; exact H.
  - intros H. apply andb_true_iff in H as [Hp Hmore]. specialize (IH j Hmore).
    destruct j as [|j]; cbn [take] in *; [rewrite Hp; reflexivity|].
    rewrite Hp. exact IH.
Qed.

Lemma upper_char_colon (c : ascii) : Ascii.eqb (JS.upper_char c) ":" = Ascii.eqb c ":".
Proof. destruct c as [[] [] [] [] [] [] [] []]; reflexivity. Qed.

Lemma toUpperCase_first_colon (s : string) :
  JS.first_is ":" (JS.toUpperCase s) = JS.first_is ":" s.
Proof. destruct s as [|c s]; [reflexivity|]. apply upper_char_colon. Qed.

Lemma tokenize_command_no_colon (splitLine : list string) :
  forall st st',
    command_no_colon (tok_command st) ->
    tokenize splitLine st = Ok st' ->
    command_no_colon (tok_command st').
Proof.
  induction splitLine as [|token shifted IH]; intros st st' Hcmd.
  - intros [= <-]. exact Hcmd.
  - cbn [tokenize].
    destruct (JS.first_is "@" token && is_unset (tok_tags st) && no_command (tok_command st)).
    { destruct (parseTags (JS.substr1 token)) as [tags|e]; [|discriminate].
      cbn [mbind result_bind]. apply IH. exact Hcmd. }
    destruct (JS.first_is ":" token) eqn:Ecolon.
    { destruct (is_unset (tok_prefix st) && no_command (tok_command st)).
      - apply IH. exact Hcmd.
      - intros [= <-]. exact Hcmd. }
    destruct (no_command (tok_command st)).
    + apply IH. cbn [tok_command command_no_colon].
      rewrite toUpperCase_first_colon. exact Ecolon.
    + apply IH. exact Hcmd.
Qed.

Lemma parse_anatomy (line : string) (client : Client) (m : Message) :
  parse line client = Ok m ->
  exists toks command parsed,
    parseParams (class_for client command) client command (Some (tok_params toks))
    = Ok parsed
    /\ m = {| constructor := class_for client command; _tags := tok_tags toks;
              _prefix := tok_prefix toks; _command := command;
              _params := Some (tok_params toks); _parsedParams := parsed;
              _raw := Some line |}
    /\ raw_stream (tok_params toks) = true
    /\ JS.falsy command = false
    /\ JS.toUpperCase command = command
    /\ JS.has_char " " command = false
    /\ JS.first_is ":" command = false.
Proof.
  rewrite parse_unfold.
  destruct (tokenize (JS.split " " line) no_tokens) as [toks|e] eqn:Etok; [|discriminate].
  cbn [mbind result_bind].
  destruct (tokenize_keeps _ no_tokens toks (split_pieces_free " " line) eq_refl I Etok)
    as [Hps Hcmd].
  pose proof (tokenize_command_no_colon _ no_tokens toks I Etok) as Hcolon.
  destruct (tok_command toks) as [command|]; [|discriminate].
  destruct (JS.falsy command) eqn:Ef; [discriminate|].
  unfold new.
  destruct (parseParams _ client command (Some (tok_params toks))) as [parsed|e] eqn:Eparsed;
    [|discriminate].
  cbn [mbind result_bind]. intros [= <-].
  exists toks, command, parsed. destruct Hcmd as [Hup Hsp].
  split; [exact Eparsed|]. split; [reflexivity|]. auto.
Qed.

(** X25: what [toString] writes of a parsed message reads back as the
    same message.  For a message that [parse] returned, of a class whose
    spec has no [rest] entry, [trailing] on the last entry at most, no
    name twice and no name that plain objects inherit a member under, and
    whose command does not start with an at sign: [toString] succeeds,
    and parsing its text with the same client gives a message of the same
    class and command with the same resolved parameters.  Tags and prefix
    are not written, and of the raw tokens only the leading ones that an
    entry took come back. *)
Theorem parse_toString_parse (line : string) (client : Client) (m : Message) :
  parse line client = Ok m ->
  ordinary_names (PARAM_SPEC (constructor m)) = true ->
  forallb (fun entry => negb (spec_rest entry.2)) (PARAM_SPEC (constructor m)) = true ->
  trailing_last (PARAM_SPEC (constructor m)) = true ->
  NoDup (map fst (PARAM_SPEC (constructor m))) ->
  JS.first_is "@" (_command m) = false ->
  exists written taken dropped,
    toString m = Ok written
    /\ _params m = Some (taken ++ dropped)%list
    /\ parse written client
       = Ok {| constructor := constructor m; _tags := None; _prefix := None;
               _command := _command m; _params := Some taken;
               _parsedParams := _parsedParams m; _raw := Some written |}.
Proof.
  intros Hparse.
  destruct (parse_anatomy _ _ _ Hparse)
    as (toks & command & parsed & Hparsed & -> & Hraw & Hfalsy & Hupper & Hspace & Hcolon).
  cbn [constructor _command _params _parsedParams].
  set (cls := class_for client command) in *. set (ps := tok_params toks) in *.
  intros Hord Hplain Hlast Hnd Hat.
  assert (Hcmd : command_like command = true)
    by (unfold command_like; rewrite Hfalsy, Hat, Hcolon; reflexivity).
  revert Hparsed. unfold parseParams at 1.
  destruct (minParamCount cls >? Z.of_nat (length ps)) eqn:Emin; [discriminate|].
  set (st0 := {| res_i := 0%nat; res_requiredParamsLeft := minParamCount cls;
                 res_parsedParams := ∅ |}).
  destruct (parseParams_loop client ps (PARAM_SPEC cls) st0) as [st|e] eqn:Eloop;
    [|discriminate].
  cbn [mbind result_bind]. intros [= <-].
  assert (Hcount : counting ps (PARAM_SPEC cls) st0).
  { split; [apply minParamCount_counts | cbn; lia]. }
  destruct (parseParams_loop_cut client ps _ _ _ Hcount Hlast Hplain Eloop)
    as (Hlow & Hhigh & Hcut).
  assert (Hfresh : forall k, k ∈ map fst (PARAM_SPEC cls) ->
                             res_parsedParams st0 !! k = None)
    by (intros k _; apply lookup_empty).
  destruct (parseParams_loop_rendered client ps _ st0 st Hord (lookup_empty _) Hplain Hnd
              Hfresh Eloop)
    as (_ & _ & Hrendered).
  cbn [st0 res_i] in Hlow, Hrendered. rewrite Nat.sub_0_r in Hrendered.
  cbn [drop] in Hrendered.
  set (taken := take (res_i st) ps) in *.
  assert (Hagain : parseParams cls client command (Some taken)
                   = Ok (Some (res_parsedParams st))).
  { unfold parseParams. subst taken. rewrite (length_take_le _ _ Hhigh).
    replace (minParamCount cls >? Z.of_nat (res_i st)) with false
      by (symmetry; rewrite minParamCount_counts;
          destruct (Z.gtb_spec (Z.of_nat (nonOptionalEntries (PARAM_SPEC cls)))
                               (Z.of_nat (res_i st))); [lia|reflexivity]).
    fold st0. rewrite (Hcut (res_i st) (Nat.le_refl _) Hhigh). reflexivity. }
  exists (JS.join " " (command :: map token_text taken)), taken, (drop (res_i st) ps).
  split; [|split].
  - unfold toString. cbn [constructor _parsedParams _command]. fold cls.
    rewrite Hrendered. reflexivity.
  - subst taken. rewrite take_drop. reflexivity.
  - destruct (raw_stream_shape taken (raw_stream_take ps (res_i st) Hraw))
      as (pieces & Hpieces & [[Htaken Htexts]|(text & Htaken & Htexts)]).
    + rewrite Htexts.
      rewrite (proj2 (parse_joined client command pieces EmptyString Hcmd Hspace Hpieces)).
      rewrite Hupper, <- Htaken. fold cls. rewrite Hagain. reflexivity.
    + rewrite Htexts.
      rewrite (proj1 (parse_joined client command pieces text Hcmd Hspace Hpieces)).
      rewrite Hupper, <- Htaken. fold cls. rewrite Hagain. reflexivity.
Qed.

Lemma parse_toString_parse_witness :
  exists written taken dropped,
    toString {| constructor := Error436NickCollision;
                _tags := Some {[ "time" := "now" ]};
                _prefix := Some {| raw := "irc.example.org"; nick := "irc.example.org";
                                   user := None; host := None |};
                _command := "436";
                _params := Some [ {| value := "me"; trailing := false |};
                                  {| value := "you"; trailing := false |};
                                  {| value := "in"; trailing := false |};
                                  {| value := "use"; trailing := false |} ];
                _parsedParams :=
                  Some (<["suffix" := {| value := "in"; trailing := false |}]>
                          (<["nick" := {| value := "you"; trailing := false |}]>
                             (<["me" := {| value := "me"; trailing := false |}]> ∅)));
                _raw := Some "@time=now :irc.example.org 436 me you in use" |}
    = Ok written
    /\ Some [ {| value := "me"; trailing := false |};
              {| value := "you"; trailing := false |};
              {| value := "in"; trailing := false |};
              {| value := "use"; trailing := false |} ] = Some (taken ++ dropped)%list
    /\ parse written sample_client
       = Ok {| constructor := Error436NickCollision; _tags := None; _prefix := None;
               _command := "436"; _params := Some taken;
               _parsedParams :=
                 Some (<["suffix" := {| value := "in"; trailing := false |}]>
                         (<["nick" := {| value := "you"; trailing := false |}]>
                            (<["me" := {| value := "me"; trailing := false |}]> ∅)));
               _raw := Some written |}.
Proof.
  pose (m := {| constructor := Error436NickCollision;
                _tags := Some ({[ "time" := "now" ]} : gmap string string);
                _prefix := Some {| raw := "irc.example.org"; nick := "irc.example.org";
                                   user := None; host := None |};
                _command := "436";
                _params := Some [ {| value := "me"; trailing := false |};
                                  {| value := "you"; trailing := false |};
                                  {| value := "in"; trailing := false |};
                                  {| value := "use"; trailing := false |} ];
                _parsedParams :=
                  Some (<["suffix" := {| value := "in"; trailing := false |}]>
                          (<["nick" := {| value := "you"; trailing := false |}]>
                             (<["me" := {| value := "me"; trailing := false |}]> ∅)));
                _raw := Some "@time=now :irc.example.org 436 me you in use" |}).
  assert (Hparse : parse "@time=now :irc.example.org 436 me you in use" sample_client = Ok m)
    by reflexivity.
  assert (Hnd : NoDup (map fst (PARAM_SPEC (constructor m)))) by distinct_names.
  exact (parse_toString_parse _ sample_client m Hparse eq_refl eq_refl eq_refl Hnd eq_refl).
Defined.

(** An entry named like a member that plain objects inherit, left
    unresolved by [parse], is written as the text [undefined], which
    reads back as its value. *)
Example unresolved_inherited_name_is_written :
  exists m written m',
    parse "X" inheriting_client = Ok m
    /\ param m "toString" = None
    /\ toString m = Ok written /\ written = "X undefined"
    /\ parse written inheriting_client = Ok m'
    /\ param m' "toString" = Some "undefined".
Proof. do 3 eexists. repeat (split; [reflexivity|]). reflexivity. Qed.
